(** * deabook: constraint generation of the CQR/CER (+Z, +G) models

    A shallow embedding of [deabook/utils/CQERZG1.py], [CQERZG2.py] and of
    the regression rule of [CNLSG1.py].  The Python classes build a Pyomo
    model: index sets, an objective and families of constraint expressions.
    Here the expressions are a small syntax tree, the rule methods are
    functions into an error monad (Python exceptions), and the indexed
    [Constraint] components are association lists in index order.

    The data ([y], [x], [z], [tau]) are rational numbers; the only
    arithmetic the classes do on them is [1 - tau].  The solver is not
    part of the development: the accessors that call it take it as a
    parameter. *)

From Stdlib Require Import List String Bool Arith Lia ZArith QArith.
Import ListNotations.
Local Open Scope nat_scope.
Local Open Scope string_scope.

Set Implicit Arguments.

(** ** Python exceptions as an error monad *)

Inductive exn : Type :=
| ValueError (msg : string)
| TypeError
| IndexError
| NameError
| InvalidConstraintError.

Inductive result (A : Type) : Type :=
| Ok (a : A)
| Err (e : exn).
Arguments Ok {A} a.
Arguments Err {A} e.

Definition bind {A B} (m : result A) (k : A -> result B) : result B :=
  match m with
  | Ok a => k a
  | Err e => Err e
  end.

Notation "x <- m ;; k" := (bind m (fun x => k))
  (at level 61, m at next level, right associativity).

Definition fmap {A B} (f : A -> B) (m : result A) : result B :=
  a <- m ;; Ok (f a).

(** The exception a computation raised, if any. *)
Definition raised {A} (m : result A) : option exn :=
  match m with
  | Ok _ => None
  | Err e => Some e
  end.

Fixpoint mapM {A B} (f : A -> result B) (l : list A) : result (list B) :=
  match l with
  | [] => Ok []
  | a :: l' => b <- f a ;; bs <- mapM f l' ;; Ok (b :: bs)
  end.

(** [l[i]] on a Python list, for an index that is never negative. *)
Definition index {A} (l : list A) (i : nat) : result A :=
  match nth_error l i with
  | Some a => Ok a
  | None => Err IndexError
  end.

(** [m[i][j]] *)
Definition index2 {A} (m : list (list A)) (i j : nat) : result A :=
  row <- index m i ;; index row j.

(** [range(n)] *)
Definition range (n : nat) : list nat := seq 0 n.

(** ** The constants of [deabook.constant]

    The rules only compare [cet], [fun] and [rts] with these constants.  The
    third constructor of each type stands for any value that is equal to
    none of the constants of its kind. *)

Inductive cet_t : Type := CET_ADDI | CET_MULT | CET_undefined.
Inductive fun_t : Type := FUN_PROD | FUN_COST | FUN_undefined.
Inductive rts_t : Type := RTS_VRS1 | RTS_CRS | RTS_undefined.

(** ** Pyomo expressions *)

Inductive var : Type :=
| alpha (i : nat)
| beta (i j : nat)
| lamda (k : nat)
| epsilon (i : nat)
| epsilon_plus (i : nat)
| epsilon_minus (i : nat)
| frontier (i : nat).

Local Unset Elimination Schemes.

Inductive expr : Type :=
| ENum (q : Q)
| EVar (v : var)
| EAdd (a b : expr)
| ESub (a b : expr)
| EMul (a b : expr)
| EPow (a : expr) (n : nat)
| ELog (a : expr)
| ESum (ts : list expr).

Local Set Elimination Schemes.

(** The induction principle of [expr], with the summands of a sum covered
    by [Forall]. *)
Section ExprInd.

Variable P : expr -> Prop.
Hypothesis HNum : forall q, P (ENum q).
Hypothesis HVar : forall v, P (EVar v).
Hypothesis HAdd : forall a b, P a -> P b -> P (EAdd a b).
Hypothesis HSub : forall a b, P a -> P b -> P (ESub a b).
Hypothesis HMul : forall a b, P a -> P b -> P (EMul a b).
Hypothesis HPow : forall a n, P a -> P (EPow a n).
Hypothesis HLog : forall a, P a -> P (ELog a).
Hypothesis HSum : forall ts, Forall P ts -> P (ESum ts).

Fixpoint expr_ind (e : expr) : P e :=
  match e with
  | ENum q => HNum q
  | EVar v => HVar v
  | EAdd a b => HAdd (expr_ind a) (expr_ind b)
  | ESub a b => HSub (expr_ind a) (expr_ind b)
  | EMul a b => HMul (expr_ind a) (expr_ind b)
  | EPow a n => HPow n (expr_ind a)
  | ELog a => HLog (expr_ind a)
  | ESum ts =>
      HSum ((fix all (l : list expr) : Forall P l :=
               match l with
               | [] => Forall_nil P
               | t :: l' => Forall_cons t (expr_ind t) (all l')
               end) ts)
  end.

End ExprInd.

(** A relational expression, as returned by a constraint rule. *)
Inductive cexpr : Type :=
| CEq (l r : expr)
| CLe (l r : expr)
| CGe (l r : expr).

(** What a constraint rule returns: [Constraint.Skip], a relational
    expression, or a plain Python [bool] ([Trivial]), which is what a
    comparison of two numbers is. *)
Inductive rule_result : Type :=
| Skip
| Emit (c : cexpr)
| Trivial.

(** [NumericValue.__le__] and [NumericValue.__ge__]. *)
Inductive operator : Type := le_op | ge_op.

Definition relate (o : operator) (l r : expr) : cexpr :=
  match o with
  | le_op => CLe l r
  | ge_op => CGe l r
  end.

(** The local [__operator] of a rule method is bound only when [fun] is one
    of the two constants; calling it unbound is a [NameError], raised before
    the arguments are evaluated. *)
Definition select_operator (f : fun_t) : option operator :=
  match f with
  | FUN_PROD => Some le_op
  | FUN_COST => Some ge_op
  | FUN_undefined => None
  end.

(** A plain Python number, not a Pyomo expression: no variable occurs in
    it.  The sum over an empty index set is one, the [int] 0. *)
Fixpoint native (e : expr) : bool :=
  match e with
  | ENum _ => true
  | EVar _ => false
  | EAdd a b | ESub a b | EMul a b => native a && native b
  | EPow a _ => native a
  | ELog a => native a
  | ESum ts => forallb native ts
  end.

(** [__operator(l, r)]: a relational expression, unless both operands are
    plain numbers, which [NumericValue.__le__] and [__ge__] compare to a
    [bool]. *)
Definition call_operator (op : option operator) (l r : result expr)
  : result rule_result :=
  match op with
  | None => Err NameError
  | Some o =>
      a <- l ;; b <- r ;;
      Ok (if native a && native b then Trivial else Emit (relate o a b))
  end.

(** [sum(f(j) for j in idx)] *)
Definition sum_over (idx : list nat) (f : nat -> result expr) : result expr :=
  ts <- mapM f idx ;; Ok (ESum ts).

(** [log(v)] of a number is [math.log(v)]: a domain error unless [0 < v].
    Its value is kept as a node of the tree. *)
Definition log_num (v : Q) : result expr :=
  if Qlt_le_dec 0 v then Ok (ELog (ENum v))
  else Err (ValueError "math domain error").

(** ** Truth value of an entry of a gating matrix *)

Inductive gate : Type :=
| GBool (b : bool)
| GNum (q : Q).

Definition truthy (g : gate) : bool :=
  match g with
  | GBool b => b
  | GNum q => negb (Qeq_bool q 0)
  end.

(** ** Indexed components *)

Record index_sets : Type := {
  I : list nat;
  J : list nat;
  K : list nat
}.

(** [I.nextw(i)] on the ordered set [range(n)]. *)
Definition nextw (model : index_sets) (i : nat) : nat :=
  (i + 1) mod (List.length (I model)).

(** [Constraint(idx, rule=...)]: the rule is called at every index, in
    order; skipped indices get no constraint; an exception aborts, and so
    does a rule that returns a [bool] instead of an expression
    ([InvalidConstraintError]). *)
Fixpoint Constraint_ {Ix} (idx : list Ix) (rule : Ix -> result rule_result)
  : result (list (Ix * cexpr)) :=
  match idx with
  | [] => Ok []
  | i :: rest =>
      r <- rule i ;;
      match r with
      | Skip => Constraint_ rest rule
      | Emit c => cs <- Constraint_ rest rule ;; Ok ((i, c) :: cs)
      | Trivial => Err InvalidConstraintError
      end
  end.

Record model_t : Type := {
  model_sets : index_sets;
  objective : expr;
  objective_active : bool;
  squared_objective : option expr;
  regression_constraints : list (nat * cexpr);
  log_constraints : option (list (nat * cexpr));
  afriat_constraints : list (nat * cexpr);
  sweet_constraints : list ((nat * nat) * cexpr);
  sweet2_constraints : option (list ((nat * nat) * cexpr))
}.

Definition undefined_parameters {A} : result A :=
  Err (ValueError "Undefined model parameters.").

(** The attributes every model instance stores in [__init__]. *)
Record attrs : Type := {
  y : list Q;
  x : list (list Q);
  z : option (list (list Q));
  tau : Q;
  cutactive : list (list gate);
  cet : cet_t;
  fun_ : fun_t;
  rts : rts_t
}.

(** [self.z[i][k]]; subscripting [None] is a [TypeError]. *)
Definition z_at (self : attrs) (i k : nat) : result Q :=
  match z self with
  | None => Err TypeError
  | Some zs => index2 zs i k
  end.

(** [beta[c, j] * self.x[i][j]] and [lamda[k] * self.z[i][k]] *)
Definition beta_x (self : attrs) (c i j : nat) : result expr :=
  xij <- index2 (x self) i j ;; Ok (EMul (EVar (beta c j)) (ENum xij)).

Definition lamda_z (self : attrs) (i k : nat) : result expr :=
  zik <- z_at self i k ;; Ok (EMul (EVar (lamda k)) (ENum zik)).

(** The three [Set(initialize=range(len(...)))] of [__init__]. *)
Definition init_sets (self : attrs) : result index_sets :=
  x0 <- index (x self) 0 ;;
  z0 <- match z self with
        | None => Err TypeError
        | Some zs => index zs 0
        end ;;
  Ok {| I := range (List.length (y self));
        J := range (List.length x0);
        K := range (List.length z0) |}.

Definition rule1 : Type := index_sets -> nat -> result rule_result.
Definition rule2 : Type := index_sets -> nat -> nat -> result rule_result.

(** The frame every pairwise rule of the two files wraps around its
    comparison [body]:
    [if m[i][h]: (if i == h: return Skip); return body] and [return Skip]. *)
Definition gated (m : list (list gate)) (i h : nat)
    (body : result rule_result) : result rule_result :=
  g <- index2 m i h ;;
  if truthy g then
    if Nat.eqb i h then Ok Skip else body
  else Ok Skip.

(** ** CQERZG1.py *)

Module CQERZG1.

(** [CQRZG1.__objective_rule] *)
Definition objective_rule (self : attrs) : index_sets -> expr :=
  fun model =>
    EAdd (EMul (ENum (1 - tau self)%Q)
               (ESum (map (fun i => EVar (epsilon_plus i)) (I model))))
         (EMul (ENum (tau self))
               (ESum (map (fun i => EVar (epsilon_minus i)) (I model)))).

(** [CQRZG1.__regression_rule] *)
Definition regression_rule (self : attrs) : result rule1 :=
  match cet self with
  | CET_ADDI =>
      match rts self with
      | RTS_VRS1 =>
          Ok (fun model i =>
                yi <- index (y self) i ;;
                sx <- sum_over (J model) (beta_x self i i) ;;
                sz <- sum_over (K model) (lamda_z self i) ;;
                Ok (Emit (CEq (ENum yi)
                  (EAdd (ESub (ESub (EAdd (EVar (alpha i)) sx) sz)
                              (EVar (epsilon_minus i)))
                        (EVar (epsilon_plus i))))))
      | RTS_CRS =>
          Ok (fun model i =>
                yi <- index (y self) i ;;
                sx <- sum_over (J model) (beta_x self i i) ;;
                sz <- sum_over (K model) (lamda_z self i) ;;
                Ok (Emit (CEq (ENum yi)
                  (EAdd (ESub (EAdd sx sz) (EVar (epsilon_minus i)))
                        (EVar (epsilon_plus i))))))
      | RTS_undefined => undefined_parameters
      end
  | CET_MULT =>
      Ok (fun model i =>
            yi <- index (y self) i ;;
            ly <- log_num yi ;;
            sz <- sum_over (K model) (lamda_z self i) ;;
            Ok (Emit (CEq ly
              (EAdd (ESub (ESub (ELog (EAdd (EVar (frontier i)) (ENum 1))) sz)
                          (EVar (epsilon_minus i)))
                    (EVar (epsilon_plus i))))))
  | CET_undefined => undefined_parameters
  end.

(** [CQRZG1.__log_rule] *)
Definition log_rule (self : attrs) : result rule1 :=
  match cet self with
  | CET_MULT =>
      match rts self with
      | RTS_VRS1 =>
          Ok (fun model i =>
                sx <- sum_over (J model) (beta_x self i i) ;;
                Ok (Emit (CEq (EVar (frontier i))
                  (ESub (EAdd (EVar (alpha i)) sx) (ENum 1)))))
      | RTS_CRS =>
          Ok (fun model i =>
                sx <- sum_over (J model) (beta_x self i i) ;;
                Ok (Emit (CEq (EVar (frontier i)) (ESub sx (ENum 1)))))
      | RTS_undefined => undefined_parameters
      end
  | _ => undefined_parameters
  end.

(** [CQRZG1.__afriat_rule] *)
Definition afriat_rule (self : attrs) : result rule1 :=
  let __operator := select_operator (fun_ self) in
  match cet self with
  | CET_ADDI =>
      match rts self with
      | RTS_VRS1 =>
          Ok (fun model i =>
                call_operator __operator
                  (sx <- sum_over (J model) (beta_x self i i) ;;
                   Ok (EAdd (EVar (alpha i)) sx))
                  (sx <- sum_over (J model) (beta_x self (nextw model i) i) ;;
                   Ok (EAdd (EVar (alpha (nextw model i))) sx)))
      | RTS_CRS =>
          Ok (fun model i =>
                call_operator __operator
                  (sum_over (J model) (beta_x self i i))
                  (sum_over (J model) (beta_x self (nextw model i) i)))
      | RTS_undefined => undefined_parameters
      end
  | CET_MULT =>
      match rts self with
      | RTS_VRS1 =>
          Ok (fun model i =>
                call_operator __operator
                  (sx <- sum_over (J model) (beta_x self i i) ;;
                   Ok (EAdd (EVar (alpha i)) sx))
                  (sx <- sum_over (J model) (beta_x self (nextw model i) i) ;;
                   Ok (EAdd (EVar (alpha (nextw model i))) sx)))
      | RTS_CRS =>
          Ok (fun model i =>
                call_operator __operator
                  (sum_over (J model) (beta_x self i i))
                  (sum_over (J model) (beta_x self (nextw model i) i)))
      | RTS_undefined => undefined_parameters
      end
  | CET_undefined => undefined_parameters
  end.

(** [CQRZG1.__sweet_rule] *)
Definition sweet_rule (self : attrs) : result rule2 :=
  let __operator := select_operator (fun_ self) in
  match cet self with
  | CET_ADDI =>
      match rts self with
      | RTS_VRS1 =>
          Ok (fun model i h =>
                gated (cutactive self) i h
                  (call_operator __operator
                     (sx <- sum_over (J model) (beta_x self i i) ;;
                      Ok (EAdd (EVar (alpha i)) sx))
                     (sx <- sum_over (J model) (beta_x self h i) ;;
                      Ok (EAdd (EVar (alpha h)) sx))))
      | RTS_CRS =>
          Ok (fun model i h =>
                gated (cutactive self) i h
                  (call_operator __operator
                     (sum_over (J model) (beta_x self i i))
                     (sum_over (J model) (beta_x self h i))))
      | RTS_undefined => undefined_parameters
      end
  | CET_MULT =>
      match rts self with
      | RTS_VRS1 =>
          Ok (fun model i h =>
                gated (cutactive self) i h
                  (call_operator __operator
                     (sx <- sum_over (J model) (beta_x self i i) ;;
                      Ok (EAdd (EVar (alpha i)) sx))
                     (sx <- sum_over (J model) (beta_x self h i) ;;
                      Ok (EAdd (EVar (alpha h)) sx))))
      | RTS_CRS =>
          Ok (fun model i h =>
                gated (cutactive self) i h
                  (call_operator __operator
                     (sum_over (J model) (beta_x self i i))
                     (sum_over (J model) (beta_x self h i))))
      | RTS_undefined => undefined_parameters
      end
  | CET_undefined => undefined_parameters
  end.

(** [CQRZG1.__init__] *)
Definition CQRZG1 (self : attrs) : result model_t :=
  model <- init_sets self ;;
  let obj := objective_rule self model in
  r <- regression_rule self ;;
  regression <- Constraint_ (I model) (r model) ;;
  logc <- (if match cet self with CET_MULT => true | _ => false end
           then r <- log_rule self ;;
                cs <- Constraint_ (I model) (r model) ;;
                Ok (Some cs)
           else Ok None) ;;
  r <- afriat_rule self ;;
  afriat <- Constraint_ (I model) (r model) ;;
  r <- sweet_rule self ;;
  sweet <- Constraint_ (list_prod (I model) (I model))
                       (fun ih => r model (fst ih) (snd ih)) ;;
  Ok {| model_sets := model;
        objective := obj;
        objective_active := true;
        squared_objective := None;
        regression_constraints := regression;
        log_constraints := logc;
        afriat_constraints := afriat;
        sweet_constraints := sweet;
        sweet2_constraints := None |}.

(** [CERZG1.__squared_objective_rule] *)
Definition squared_objective_rule (self : attrs) : index_sets -> expr :=
  fun model =>
    EAdd (EMul (ENum (1 - tau self)%Q)
               (ESum (map (fun i => EPow (EVar (epsilon_plus i)) 2) (I model))))
         (EMul (ENum (tau self))
               (ESum (map (fun i => EPow (EVar (epsilon_minus i)) 2) (I model)))).

(** [CERZG1.__init__]: the parent's [__init__], then the objective is
    deactivated and the squared objective added. *)
Definition CERZG1 (self : attrs) : result model_t :=
  m <- CQRZG1 self ;;
  Ok {| model_sets := model_sets m;
        objective := objective m;
        objective_active := false;
        squared_objective := Some (squared_objective_rule self (model_sets m));
        regression_constraints := regression_constraints m;
        log_constraints := log_constraints m;
        afriat_constraints := afriat_constraints m;
        sweet_constraints := sweet_constraints m;
        sweet2_constraints := sweet2_constraints m |}.

End CQERZG1.

(** ** CQERZG2.py *)

Module CQERZG2.

(** A phase-2 instance: the attributes of the parent class and [active]. *)
Record attrs2 : Type := {
  base :> attrs;
  active : list (list gate)
}.

(** [CQRZG2.__sweet_rule2] *)
Definition sweet_rule2 (self : attrs2) : result rule2 :=
  let __operator := select_operator (fun_ self) in
  match cet self with
  | CET_ADDI =>
      match rts self with
      | RTS_VRS1 =>
          Ok (fun model i h =>
                gated (active self) i h
                  (call_operator __operator
                     (sx <- sum_over (J model) (beta_x self i i) ;;
                      Ok (EAdd (EVar (alpha i)) sx))
                     (sx <- sum_over (J model) (beta_x self h i) ;;
                      Ok (EAdd (EVar (alpha h)) sx))))
      | RTS_CRS =>
          Ok (fun model i h =>
                gated (active self) i h
                  (call_operator __operator
                     (sx <- sum_over (J model) (beta_x self i i) ;;
                      Ok (EAdd (EVar (alpha i)) sx))
                     (sx <- sum_over (J model) (beta_x self h i) ;;
                      Ok (EAdd (EVar (alpha h)) sx))))
      | RTS_undefined => undefined_parameters
      end
  | CET_MULT =>
      match rts self with
      | RTS_VRS1 =>
          Ok (fun model i h =>
                gated (active self) i h
                  (call_operator __operator
                     (sx <- sum_over (J model) (beta_x self i i) ;;
                      Ok (EAdd (EVar (alpha i)) sx))
                     (sx <- sum_over (J model) (beta_x self h i) ;;
                      Ok (EAdd (EVar (alpha h)) sx))))
      | RTS_CRS =>
          Ok (fun model i h =>
                gated (active self) i h
                  (call_operator __operator
                     (sum_over (J model) (beta_x self i i))
                     (sum_over (J model) (beta_x self h i))))
      | RTS_undefined => undefined_parameters
      end
  | CET_undefined => undefined_parameters
  end.

Section Tools.

(** [trans_list] and [to_2d_list] are imported from [deabook.utils.tools];
    they turn the [active] argument into the list of rows the rule reads. *)
Variables raw_active listed : Type.
Variable trans_list : raw_active -> result listed.
Variable to_2d_list : listed -> result (list (list gate)).

(** [CQRZG2.__init__]; it does not call the parent's [__init__] but the
    parent's rule methods, under their mangled names. *)
Definition CQRZG2 (a : attrs) (active_arg : raw_active) : result model_t :=
  l <- trans_list active_arg ;;
  act <- to_2d_list l ;;
  let self := {| base := a; active := act |} in
  model <- init_sets self ;;
  let obj := CQERZG1.objective_rule self model in
  r <- CQERZG1.regression_rule self ;;
  regression <- Constraint_ (I model) (r model) ;;
  logc <- (if match cet self with CET_MULT => true | _ => false end
           then r <- CQERZG1.log_rule self ;;
                cs <- Constraint_ (I model) (r model) ;;
                Ok (Some cs)
           else Ok None) ;;
  r <- CQERZG1.afriat_rule self ;;
  afriat <- Constraint_ (I model) (r model) ;;
  r <- CQERZG1.sweet_rule self ;;
  sweet <- Constraint_ (list_prod (I model) (I model))
                       (fun ih => r model (fst ih) (snd ih)) ;;
  r <- sweet_rule2 self ;;
  sweet2 <- Constraint_ (list_prod (I model) (I model))
                        (fun ih => r model (fst ih) (snd ih)) ;;
  Ok {| model_sets := model;
        objective := obj;
        objective_active := true;
        squared_objective := None;
        regression_constraints := regression;
        log_constraints := logc;
        afriat_constraints := afriat;
        sweet_constraints := sweet;
        sweet2_constraints := Some sweet2 |}.

(** [CERZG2.__squared_objective_rule] *)
Definition squared_objective_rule (self : attrs) : index_sets -> expr :=
  fun model =>
    EAdd (EMul (ENum (1 - tau self)%Q)
               (ESum (map (fun i => EPow (EVar (epsilon_plus i)) 2) (I model))))
         (EMul (ENum (tau self))
               (ESum (map (fun i => EPow (EVar (epsilon_minus i)) 2) (I model)))).

(** [CERZG2.__init__] *)
Definition CERZG2 (a : attrs) (active_arg : raw_active) : result model_t :=
  m <- CQRZG2 a active_arg ;;
  Ok {| model_sets := model_sets m;
        objective := objective m;
        objective_active := false;
        squared_objective := Some (squared_objective_rule a (model_sets m));
        regression_constraints := regression_constraints m;
        log_constraints := log_constraints m;
        afriat_constraints := afriat_constraints m;
        sweet_constraints := sweet_constraints m;
        sweet2_constraints := sweet2_constraints m |}.

End Tools.

End CQERZG2.

(** ** CNLSG1.py *)

Module CNLSG1.

(** [CNLSG1.__regression_rule]; the class has a single residual [epsilon]
    and no contextual term.  Of [attrs] it reads [y], [x], [cet], [rts]. *)
Definition regression_rule (self : attrs) : result rule1 :=
  match cet self with
  | CET_ADDI =>
      match rts self with
      | RTS_VRS1 =>
          Ok (fun model i =>
                yi <- index (y self) i ;;
                sx <- sum_over (J model) (beta_x self i i) ;;
                Ok (Emit (CEq (ENum yi)
                  (ESub (EAdd (EVar (alpha i)) sx) (EVar (epsilon i))))))
      | RTS_CRS =>
          Ok (fun model i =>
                yi <- index (y self) i ;;
                sx <- sum_over (J model) (beta_x self i i) ;;
                Ok (Emit (CEq (ENum yi) (ESub sx (EVar (epsilon i))))))
      | RTS_undefined => undefined_parameters
      end
  | CET_MULT =>
      Ok (fun model i =>
            yi <- index (y self) i ;;
            ly <- log_num yi ;;
            Ok (Emit (CEq ly
              (ESub (ELog (EAdd (EVar (frontier i)) (ENum 1)))
                    (EVar (epsilon i))))))
  | CET_undefined => undefined_parameters
  end.

End CNLSG1.

(** ** Reading the expressions *)

(** Replace every residual [epsilon_plus[i]], [epsilon_minus[i]] by its
    square and leave the rest of the expression as it is. *)
Fixpoint square_residuals (e : expr) : expr :=
  match e with
  | ENum q => ENum q
  | EVar (epsilon_plus i) => EPow (EVar (epsilon_plus i)) 2
  | EVar (epsilon_minus i) => EPow (EVar (epsilon_minus i)) 2
  | EVar v => EVar v
  | EAdd a b => EAdd (square_residuals a) (square_residuals b)
  | ESub a b => ESub (square_residuals a) (square_residuals b)
  | EMul a b => EMul (square_residuals a) (square_residuals b)
  | EPow a n => EPow (square_residuals a) n
  | ELog a => ELog (square_residuals a)
  | ESum ts => ESum (map square_residuals ts)
  end.

(** No power occurs in the expression. *)
Fixpoint pow_free (e : expr) : bool :=
  match e with
  | ENum _ | EVar _ => true
  | EAdd a b | ESub a b | EMul a b => pow_free a && pow_free b
  | EPow _ _ => false
  | ELog a => pow_free a
  | ESum ts => forallb pow_free ts
  end.

Section Eval.

(** The value of an expression under an assignment of the variables; the
    logarithm is that of the solver, kept abstract. *)
Variable ln : Q -> Q.
Variable rho : var -> Q.

Fixpoint eval (e : expr) : Q :=
  match e with
  | ENum q => q
  | EVar v => rho v
  | EAdd a b => eval a + eval b
  | ESub a b => eval a - eval b
  | EMul a b => eval a * eval b
  | EPow a n => eval a ^ Z.of_nat n
  | ELog a => ln (eval a)
  | ESum ts => fold_left (fun acc t => acc + eval t) ts 0
  end%Q.

End Eval.

(** [sum(f(i) for i in idx)] on numbers. *)
Definition Qsum (f : nat -> Q) (idx : list nat) : Q :=
  fold_right (fun i acc => f i + acc)%Q 0%Q idx.

(** ** The closed forms the specification gives *)

Definition x_val (self : attrs) (i j : nat) : Q :=
  nth j (nth i (x self) []) 0%Q.

Definition z_val (self : attrs) (i k : nat) : Q :=
  match z self with
  | Some zs => nth k (nth i zs []) 0%Q
  | None => 0%Q
  end.

Definition y_val (self : attrs) (i : nat) : Q := nth i (y self) 0%Q.

Definition gate_val (m : list (list gate)) (i h : nat) : gate :=
  nth h (nth i m []) (GBool false).

(** [Σ_j beta[c,j]·x[i][j]]: the coefficients of unit [c] at the inputs of
    unit [i]. *)
Definition sum_beta_x (self : attrs) (model : index_sets) (c i : nat) : expr :=
  ESum (map (fun j => EMul (EVar (beta c j)) (ENum (x_val self i j))) (J model)).

(** [Σ_k lamda[k]·z[i][k]] *)
Definition sum_lamda_z (self : attrs) (model : index_sets) (i : nat) : expr :=
  ESum (map (fun k => EMul (EVar (lamda k)) (ENum (z_val self i k))) (K model)).

(** The linear predictor: [alpha[c] + Σ_j beta[c,j]·x[i][j]] under VRS,
    [Σ_j beta[c,j]·x[i][j]] under CRS. *)
Definition predictor_at (r : rts_t) (self : attrs) (model : index_sets)
    (c i : nat) : expr :=
  match r with
  | RTS_CRS => sum_beta_x self model c i
  | _ => EAdd (EVar (alpha c)) (sum_beta_x self model c i)
  end.

Definition predictor (self : attrs) : index_sets -> nat -> nat -> expr :=
  predictor_at (rts self) self.

(** The next neighbour in index order, wrapping at [n-1] to [0]. *)
Definition next_neighbor (n i : nat) : nat :=
  if Nat.eqb i (n - 1) then 0 else i + 1.

(** [<=] for a production frontier, [>=] for a cost frontier. *)
Definition orientation (f : fun_t) (l r : expr) : cexpr :=
  match f with
  | FUN_COST => CGe l r
  | _ => CLe l r
  end.

(** The concavity inequality of unit [i] against unit [h]. *)
Definition concavity (self : attrs) (model : index_sets) (i h : nat) : cexpr :=
  orientation (fun_ self) (predictor self model i i) (predictor self model h i).

(** The same inequality with the predictor of the returns to scale [r]. *)
Definition concavity_at (r : rts_t) (self : attrs) (model : index_sets)
    (i h : nat) : cexpr :=
  orientation (fun_ self) (predictor_at r self model i i)
                          (predictor_at r self model h i).

(** The returns to scale whose predictor the phase-2 rule compares. *)
Definition phase2_rts (a : attrs) : rts_t :=
  match cet a, rts a with
  | CET_ADDI, RTS_CRS => RTS_VRS1
  | _, r => r
  end.

(** A pair passes the gate when its entry is truthy and it is off the
    diagonal. *)
Definition passes (m : list (list gate)) (ih : nat * nat) : bool :=
  truthy (gate_val m (fst ih) (snd ih)) && negb (Nat.eqb (fst ih) (snd ih)).

(** The regression equation as the specification states it: the linear
    predictor (or [log(frontier[i]+1)]), minus the contextual term, minus
    the residual terms [epsilon_minus[i] - epsilon_plus[i]]. *)
Definition spec_regression (self : attrs) (model : index_sets) (i : nat) : cexpr :=
  let residuals e :=
    EAdd (ESub e (EVar (epsilon_minus i))) (EVar (epsilon_plus i)) in
  match cet self with
  | CET_MULT =>
      CEq (ELog (ENum (y_val self i)))
          (residuals (ESub (ELog (EAdd (EVar (frontier i)) (ENum 1)))
                           (sum_lamda_z self model i)))
  | _ =>
      CEq (ENum (y_val self i))
          (residuals (ESub (predictor self model i i)
                           (sum_lamda_z self model i)))
  end.

(** The log-linearization equation of the specification. *)
Definition spec_log (self : attrs) (model : index_sets) (i : nat) : cexpr :=
  CEq (EVar (frontier i)) (ESub (predictor self model i i) (ENum 1)).

(** The quantile objective [(1-τ)·Σ epsilon_plus + τ·Σ epsilon_minus]. *)
Definition quantile_objective (t : Q) (n : nat) : expr :=
  EAdd (EMul (ENum (1 - t)%Q) (ESum (map (fun i => EVar (epsilon_plus i)) (range n))))
       (EMul (ENum t) (ESum (map (fun i => EVar (epsilon_minus i)) (range n)))).

(** An expectile model made from a quantile model: the objective is
    deactivated and its squared variant added; nothing else changes. *)
Definition expectile_of (m : model_t) : model_t :=
  {| model_sets := model_sets m;
     objective := objective m;
     objective_active := false;
     squared_objective := Some (square_residuals (objective m));
     regression_constraints := regression_constraints m;
     log_constraints := log_constraints m;
     afriat_constraints := afriat_constraints m;
     sweet_constraints := sweet_constraints m;
     sweet2_constraints := sweet2_constraints m |}.

(** Turning [<=] into [>=] with both operands kept. *)
Definition flip (c : cexpr) : cexpr :=
  match c with
  | CLe l r => CGe l r
  | other => other
  end.

Definition flip_all {Ix} (cs : list (Ix * cexpr)) : list (Ix * cexpr) :=
  map (fun ic => (fst ic, flip (snd ic))) cs.

(** The cost-frontier counterpart of a production-frontier model: the
    concavity constraints flipped, everything else kept. *)
Definition to_cost (m : model_t) : model_t :=
  {| model_sets := model_sets m;
     objective := objective m;
     objective_active := objective_active m;
     squared_objective := squared_objective m;
     regression_constraints := regression_constraints m;
     log_constraints := log_constraints m;
     afriat_constraints := flip_all (afriat_constraints m);
     sweet_constraints := flip_all (sweet_constraints m);
     sweet2_constraints := option_map flip_all (sweet2_constraints m) |}.

Definition with_fun (self : attrs) (f : fun_t) : attrs :=
  {| y := y self; x := x self; z := z self; tau := tau self;
     cutactive := cutactive self; cet := cet self; fun_ := f;
     rts := rts self |}.

Definition is_le (c : cexpr) : bool :=
  match c with CLe _ _ => true | _ => false end.

(** A combination for which no model is defined: one of the three options
    is none of its constants. *)
Definition unreachable (self : attrs) : bool :=
  match cet self, rts self, fun_ self with
  | CET_undefined, _, _ => true
  | _, RTS_undefined, _ => true
  | _, _, FUN_undefined => true
  | _, _, _ => false
  end.

(** ** The four contextual classes *)

Inductive variant : Type := CQRZG1 | CERZG1 | CQRZG2 | CERZG2.

Definition quantile_variant (v : variant) : bool :=
  match v with CQRZG1 | CQRZG2 => true | _ => false end.

Definition phase2_variant (v : variant) : bool :=
  match v with CQRZG2 | CERZG2 => true | _ => false end.

(** The expectile class derived from a quantile class. *)
Definition expectile_class (v : variant) : variant :=
  match v with
  | CQRZG1 | CERZG1 => CERZG1
  | CQRZG2 | CERZG2 => CERZG2
  end.

Section Construct.

Variables raw_active listed : Type.
Variable trans_list : raw_active -> result listed.
Variable to_2d_list : listed -> result (list (list gate)).

(** Instantiating a class; the [active] argument is read by the phase-2
    classes only. *)
Definition construct (v : variant) (a : attrs) (active_arg : raw_active)
  : result model_t :=
  match v with
  | CQRZG1 => CQERZG1.CQRZG1 a
  | CERZG1 => CQERZG1.CERZG1 a
  | CQRZG2 => CQERZG2.CQRZG2 trans_list to_2d_list a active_arg
  | CERZG2 => CQERZG2.CERZG2 trans_list to_2d_list a active_arg
  end.

(** [self.active] as [__init__] stores it. *)
Definition stored_active (active_arg : raw_active) : result (list (list gate)) :=
  l <- trans_list active_arg ;; to_2d_list l.

End Construct.

(** What a successful [__init__] of any of the classes has done, step by
    step: the parts common to phase 1 and phase 2. *)
Record phase1_built (a : attrs) (m : model_t) : Prop := {
  built_sets : init_sets a = Ok (model_sets m);
  built_objective :
    objective m = CQERZG1.objective_rule a (model_sets m);
  built_regression :
    exists r, CQERZG1.regression_rule a = Ok r /\
      Constraint_ (I (model_sets m)) (r (model_sets m))
        = Ok (regression_constraints m);
  built_log :
    match cet a with
    | CET_MULT =>
        exists r cs, CQERZG1.log_rule a = Ok r /\
          Constraint_ (I (model_sets m)) (r (model_sets m)) = Ok cs /\
          log_constraints m = Some cs
    | _ => log_constraints m = None
    end;
  built_afriat :
    exists r, CQERZG1.afriat_rule a = Ok r /\
      Constraint_ (I (model_sets m)) (r (model_sets m))
        = Ok (afriat_constraints m);
  built_sweet :
    exists r, CQERZG1.sweet_rule a = Ok r /\
      Constraint_ (list_prod (I (model_sets m)) (I (model_sets m)))
                  (fun ih => r (model_sets m) (fst ih) (snd ih))
        = Ok (sweet_constraints m)
}.

(** The phase-2 component, built from the stored [active] matrix [act]. *)
Definition phase2_built (a : attrs) (act : list (list gate)) (m : model_t)
  : Prop :=
  exists r cs,
    CQERZG2.sweet_rule2 {| CQERZG2.base := a; CQERZG2.active := act |} = Ok r /\
    Constraint_ (list_prod (I (model_sets m)) (I (model_sets m)))
                (fun ih => r (model_sets m) (fst ih) (snd ih)) = Ok cs /\
    sweet2_constraints m = Some cs.

(** The expectile objective [(1-τ)·Σ epsilon_plus² + τ·Σ epsilon_minus²]. *)
Definition expectile_objective (t : Q) (n : nat) : expr :=
  EAdd (EMul (ENum (1 - t)%Q)
             (ESum (map (fun i => EPow (EVar (epsilon_plus i)) 2) (range n))))
       (EMul (ENum t)
             (ESum (map (fun i => EPow (EVar (epsilon_minus i)) 2) (range n)))).

Definition flip_result (r : rule_result) : rule_result :=
  match r with
  | Skip => Skip
  | Emit c => Emit (flip c)
  | Trivial => Trivial
  end.

(** A phase-1 model with the phase-2 component [cs] added. *)
Definition with_sweet2 (m : model_t) (cs : list ((nat * nat) * cexpr))
  : model_t :=
  {| model_sets := model_sets m;
     objective := objective m;
     objective_active := objective_active m;
     squared_objective := squared_objective m;
     regression_constraints := regression_constraints m;
     log_constraints := log_constraints m;
     afriat_constraints := afriat_constraints m;
     sweet_constraints := sweet_constraints m;
     sweet2_constraints := Some cs |}.

(** A rule selected for the cost frontier is the rule selected for the
    production frontier with its result flipped; selection fails for the
    one when it fails for the other. *)
Definition flipped_selection {R} (ap : R -> R -> Prop)
    (prod cost : result R) : Prop :=
  match prod with
  | Ok r => exists r', cost = Ok r' /\ ap r r'
  | Err e => cost = Err e
  end.

(** The assignment that gives every residual variable the square of its
    value and every other variable its value. *)
Definition squared_values (rho : var -> Q) (v : var) : Q :=
  match v with
  | epsilon_plus _ | epsilon_minus _ => (rho v ^ 2)%Q
  | _ => rho v
  end.

(** ** Data a model can be built from *)

(** The first [n] rows of the matrix exist and have at least [k] entries. *)
Definition rows_cover {A} (m : list (list A)) (n k : nat) : bool :=
  Nat.leb n (List.length m)
  && forallb (fun row => Nat.leb k (List.length row)) (firstn n m).

Definition positive (v : Q) : bool :=
  if Qlt_le_dec 0 v then true else false.

(** [x], [z] and [cutactive] have a row for every observation, as long as
    the first row of [x] (of [z]; as the number of observations), and the
    outputs are positive when their logarithm is taken. *)
Definition well_shaped (a : attrs) : bool :=
  let n := List.length (y a) in
  match x a, z a with
  | x0 :: _, Some (z0 :: zr) =>
      rows_cover (x a) n (List.length x0)
      && rows_cover (z0 :: zr) n (List.length z0)
      && rows_cover (cutactive a) n n
      && match cet a with
         | CET_MULT => forallb positive (y a)
         | _ => true
         end
  | _, _ => false
  end.

(** ** Example data *)

(** Two units, one input, one contextual variable, [tau = 1/2]; the
    phase-1 mask mixes booleans and numbers. *)
Definition example (c : cet_t) (f : fun_t) (r : rts_t) : attrs :=
  {| y := [2; 3]%Q;
     x := [[1]; [2]]%Q;
     z := Some [[1]; [4]]%Q;
     tau := (1 # 2)%Q;
     cutactive := [[GBool true; GBool true]; [GNum 0; GBool true]];
     cet := c; fun_ := f; rts := r |}.

Definition example_active : list (list gate) :=
  [[GBool false; GNum 3]; [GBool true; GBool true]].

Definition with_z (self : attrs) (zs : option (list (list Q))) : attrs :=
  {| y := y self; x := x self; z := zs; tau := tau self;
     cutactive := cutactive self; cet := cet self; fun_ := fun_ self;
     rts := rts self |}.

(** The right-hand side of a relational expression. *)
Definition rhs (c : cexpr) : expr :=
  match c with
  | CEq _ r | CLe _ r | CGe _ r => r
  end.

(** The assignment with every [lamda[k]] at 1 and every other variable
    at 0. *)
Definition unit_lamda (v : var) : Q :=
  match v with
  | lamda _ => 1%Q
  | _ => 0%Q
  end.

(** An [active] argument that already is a list of rows is stored as it
    is. *)
Definition as_given {A} (l : A) : result A := Ok l.

(** ** Reading a built model *)

(** A pair off the diagonal. *)
Definition off_diagonal (ih : nat * nat) : bool :=
  negb (Nat.eqb (fst ih) (snd ih)).

Definition with_cutactive (self : attrs) (c : list (list gate)) : attrs :=
  {| y := y self; x := x self; z := z self; tau := tau self;
     cutactive := c; cet := cet self; fun_ := fun_ self; rts := rts self |}.

(** A relational expression is satisfied by an assignment. *)
Definition holds (ln : Q -> Q) (rho : var -> Q) (c : cexpr) : Prop :=
  match c with
  | CEq l r => (eval ln rho l == eval ln rho r)%Q
  | CLe l r => (eval ln rho l <= eval ln rho r)%Q
  | CGe l r => (eval ln rho r <= eval ln rho l)%Q
  end.

Definition component_holds {Ix} (ln : Q -> Q) (rho : var -> Q)
    (cs : list (Ix * cexpr)) : Prop :=
  forall k c, In (k, c) cs -> holds ln rho c.

(** The assignment satisfies every constraint of the model. *)
Definition feasible (ln : Q -> Q) (rho : var -> Q) (m : model_t) : Prop :=
  component_holds ln rho (regression_constraints m) /\
  (forall cs, log_constraints m = Some cs -> component_holds ln rho cs) /\
  component_holds ln rho (afriat_constraints m) /\
  component_holds ln rho (sweet_constraints m) /\
  (forall cs, sweet2_constraints m = Some cs -> component_holds ln rho cs).

(** The variables of an expression. *)
Fixpoint vars_of (e : expr) : list var :=
  match e with
  | ENum _ => []
  | EVar v => [v]
  | EAdd a b | ESub a b | EMul a b => vars_of a ++ vars_of b
  | EPow a _ => vars_of a
  | ELog a => vars_of a
  | ESum ts => flat_map vars_of ts
  end.

Definition cvars (c : cexpr) : list var :=
  match c with
  | CEq l r | CLe l r | CGe l r => vars_of l ++ vars_of r
  end.

(** The [Var] components [CQRZG1.__init__] and [CQRZG2.__init__] declare:
    [alpha], [epsilon_plus], [epsilon_minus] and [frontier] over [I],
    [beta] over [I x J], [lamda] over [K]; no [epsilon]. *)
Definition declared (model : index_sets) (v : var) : Prop :=
  match v with
  | alpha i | epsilon_plus i | epsilon_minus i | frontier i => In i (I model)
  | beta i j => In i (I model) /\ In j (J model)
  | lamda k => In k (K model)
  | epsilon _ => False
  end.

(** The [bounds=(0.0, None)] of the declarations: the lower bound of a
    variable, if it has one. *)
Definition lower_bound (v : var) : option Q :=
  match v with
  | beta _ _ | epsilon_plus _ | epsilon_minus _ | frontier _ => Some 0%Q
  | alpha _ | lamda _ | epsilon _ => None
  end.

Definition respects_bounds (rho : var -> Q) : Prop :=
  forall v l, lower_bound v = Some l -> (l <= rho v)%Q.

(** The phase-1 class whose rules a phase-2 class reuses. *)
Definition phase1_class (v : variant) : variant :=
  match v with
  | CQRZG1 | CQRZG2 => CQRZG1
  | CERZG1 | CERZG2 => CERZG1
  end.

(** Every variable of every constraint of the component is declared. *)
Definition component_declared {Ix} (model : index_sets)
    (cs : list (Ix * cexpr)) : Prop :=
  forall k c, In (k, c) cs -> forall w, In w (cvars c) -> declared model w.

(** The regression equation of CNLSG1 in closed form: the predictor (or
    [log(frontier[i]+1)]) minus the single residual [epsilon[i]]. *)
Definition CNLSG1_equation (self : attrs) (model : index_sets) (i : nat)
  : cexpr :=
  match cet self with
  | CET_MULT =>
      CEq (ELog (ENum (y_val self i)))
          (ESub (ELog (EAdd (EVar (frontier i)) (ENum 1))) (EVar (epsilon i)))
  | _ =>
      CEq (ENum (y_val self i))
          (ESub (predictor self model i i) (EVar (epsilon i)))
  end.

(** ** Solving and reading the solution

    [optimize], [get_alpha] and [get_beta] of CQRZG1.  The solver
    ([optimize_model] of [deabook.utils.tools]) and the constants
    [OPT_LOCAL], [OPT_DEFAULT] are not in these files: they are
    parameters.  A solve returns the two status codes and leaves new
    values in the variables of the model. *)

(** [k] put at its place in an increasing list, unless it is there. *)
Fixpoint insert_sorted (k : nat) (l : list nat) : list nat :=
  match l with
  | [] => [k]
  | h :: t =>
      if Nat.ltb k h then k :: l
      else if Nat.eqb k h then l
      else h :: insert_sorted k t
  end.

(** The distinct labels of an axis of a pivot table, in increasing
    order. *)
Definition axis_labels (l : list nat) : list nat :=
  fold_right insert_sorted [] l.

Definition same_key (p q : nat * nat) : bool :=
  Nat.eqb (fst p) (fst q) && Nat.eqb (snd p) (snd q).

Fixpoint unique_keys (l : list (nat * nat)) : bool :=
  match l with
  | [] => true
  | p :: t => negb (existsb (same_key p) t) && unique_keys t
  end.

Section Access.

Variable value : Type.
Variables email solver : Type.
Variable OPT_LOCAL : email.
Variable OPT_DEFAULT : solver.
Variable optimize_model :
  model_t -> (var -> value) -> email -> cet_t -> solver ->
  result ((Z * Z) * (var -> value)).

(** An instance after [__init__]: its attributes, its model, the values
    of the model's variables, and the two status fields. *)
Record instance : Type := {
  inst_self : attrs;
  inst_model : model_t;
  values : var -> value;
  optimization_status : Z;
  problem_status : Z
}.

(** [CQRZG1.optimize] *)
Definition optimize (s : instance) (e : email) (sv : solver)
  : result instance :=
  out <- optimize_model (inst_model s) (values s) e (cet (inst_self s)) sv ;;
  Ok {| inst_self := inst_self s;
        inst_model := inst_model s;
        values := snd out;
        optimization_status := snd (fst out);
        problem_status := fst (fst out) |}.

(** [if self.optimization_status == 0: self.optimize()] *)
Definition solve_if_unsolved (s : instance) : result instance :=
  if Z.eqb (optimization_status s) 0
  then optimize s OPT_LOCAL OPT_DEFAULT
  else Ok s.

(** [component[:].value] and [component[:, :].value] as a list: the
    values at the keys of the component, in their order.  A component over
    an empty index set cannot be sliced: its dimension is not known, and
    the subscript raises an [IndexError]. *)
Definition slice_values {Ix} (keys : list Ix) (read : Ix -> value)
  : result (list value) :=
  match keys with
  | [] => Err IndexError
  | _ => Ok (map read keys)
  end.

(** [CQRZG1.get_alpha] *)
Definition get_alpha (s : instance) : result (instance * list value) :=
  s' <- solve_if_unsolved s ;;
  al <- slice_values (I (model_sets (inst_model s')))
                     (fun i => values s' (alpha i)) ;;
  Ok (s', al).

(** The cell of a pivot table: the value of the row with that name and
    key, if there is one. *)
Definition cell (rows : list ((nat * nat) * value)) (name key : nat)
  : option value :=
  option_map snd (find (fun t => same_key (fst t) (name, key)) rows).

(** [pd.DataFrame(np.asarray(rows), columns=['Name', 'Key', 'Value'])
    .pivot(index='Name', columns='Key', values='Value').to_numpy()], for
    the rows [row :: more]: duplicate (name, key) pairs cannot be
    reshaped; a missing cell is [None] here. *)
Definition pivot (row : (nat * nat) * value)
    (more : list ((nat * nat) * value))
  : result (list (list (option value))) :=
  let rows := row :: more in
  if unique_keys (map fst rows)
  then Ok (map (fun name =>
                  map (fun key => cell rows name key)
                      (axis_labels (map (fun t => snd (fst t)) rows)))
               (axis_labels (map (fun t => fst (fst t)) rows)))
  else Err (ValueError
              "Index contains duplicate entries, cannot reshape").

(** [CQRZG1.get_beta]: the keys of [beta] zipped with the values of the
    slice, one row per key; the slice of a component without keys has
    raised before there is a table. *)
Definition get_beta (s : instance)
  : result (instance * list (list (option value))) :=
  s' <- solve_if_unsolved s ;;
  let model := model_sets (inst_model s') in
  let keys := list_prod (I model) (J model) in
  vals <- slice_values keys (fun ij => values s' (beta (fst ij) (snd ij))) ;;
  match combine keys vals with
  | [] => Err IndexError
  | row :: more => table <- pivot row more ;; Ok (s', table)
  end.

End Access.

(** ** More example data *)

Definition with_y (self : attrs) (ys : list Q) : attrs :=
  {| y := ys; x := x self; z := z self; tau := tau self;
     cutactive := cutactive self; cet := cet self; fun_ := fun_ self;
     rts := rts self |}.

Definition with_x (self : attrs) (xs : list (list Q)) : attrs :=
  {| y := y self; x := xs; z := z self; tau := tau self;
     cutactive := cutactive self; cet := cet self; fun_ := fun_ self;
     rts := rts self |}.

Definition no_pair : list (list gate) :=
  [[GBool false; GNum 0]; [GNum 0; GBool false]].

(** The model of the example, additive, production, VRS. *)
Definition example_model : model_t :=
  match CQERZG1.CQRZG1 (example CET_ADDI FUN_PROD RTS_VRS1) with
  | Ok m => m
  | Err _ =>
      {| model_sets := {| I := []; J := []; K := [] |};
         objective := ENum 0; objective_active := true;
         squared_objective := None; regression_constraints := [];
         log_constraints := None; afriat_constraints := [];
         sweet_constraints := []; sweet2_constraints := None |}
  end.

(** A solver that reports status 1 and sets every variable to 3. *)
Definition example_solver (m : model_t) (old : var -> Q) (e : unit)
    (c : cet_t) (sv : unit) : result ((Z * Z) * (var -> Q)) :=
  Ok ((1%Z, 1%Z), fun _ => 3%Q).

Definition example_instance : instance Q :=
  {| inst_self := example CET_ADDI FUN_PROD RTS_VRS1;
     inst_model := example_model;
     values := fun _ => 0%Q;
     optimization_status := 0;
     problem_status := 0 |}.

(** ** Lemmas on the monad and on the indexed components *)

Lemma bind_Ok {A B} (m : result A) (k : A -> result B) (b : B) :
  bind m k = Ok b -> exists a, m = Ok a /\ k a = Ok b.
Proof.
  destruct m as [a|e]; simpl; intros H.
  - exists a. split; [reflexivity | exact H].
  - discriminate H.
Qed.

Ltac bind_inv H :=
  let a := fresh "v" in
  let E := fresh "E" in
  apply bind_Ok in H; destruct H as (a & E & H).

Lemma index_Ok {A} (l : list A) (i : nat) (a d : A) :
  index l i = Ok a -> i < List.length l /\ nth i l d = a.
Proof.
  unfold index. destruct (nth_error l i) as [b|] eqn:E; intros H.
  - injection H as <-. split.
    + apply nth_error_Some. congruence.
    + apply nth_error_nth. exact E.
  - discriminate H.
Qed.

Lemma index_lt {A} (l : list A) (i : nat) (d : A) :
  i < List.length l -> index l i = Ok (nth i l d).
Proof.
  intros H. unfold index.
  rewrite (nth_error_nth' l d H). reflexivity.
Qed.

Lemma index2_Ok {A} (m : list (list A)) (i j : nat) (a d : A) :
  index2 m i j = Ok a -> nth j (nth i m []) d = a.
Proof.
  unfold index2. intros H. bind_inv H.
  apply (index_Ok _ _ []) in E. destruct E as [_ <-].
  apply (index_Ok _ _ d) in H. apply H.
Qed.

Lemma mapM_Ok {A B} (f : A -> result B) (g : A -> B) (l : list A) (bs : list B) :
  (forall a b, In a l -> f a = Ok b -> b = g a) ->
  mapM f l = Ok bs -> bs = map g l.
Proof.
  revert bs. induction l as [|a l IH]; simpl; intros bs Hf H.
  - injection H as <-. reflexivity.
  - bind_inv H. bind_inv H. injection H as <-.
    rewrite (Hf a v) by auto. rewrite (IH v0); auto.
Qed.

Lemma mapM_total {A B} (f : A -> result B) (g : A -> B) (l : list A) :
  (forall a, In a l -> f a = Ok (g a)) -> mapM f l = Ok (map g l).
Proof.
  induction l as [|a l IH]; simpl; intros Hf.
  - reflexivity.
  - rewrite Hf by auto. simpl. rewrite IH by auto. reflexivity.
Qed.

(** The entries of a built component are the emitted results of the rule,
    and the rule returned at every index. *)
Lemma Constraint_In {Ix} (idx : list Ix) (rule : Ix -> result rule_result)
    (cs : list (Ix * cexpr)) :
  Constraint_ idx rule = Ok cs ->
  forall i c, In (i, c) cs <-> In i idx /\ rule i = Ok (Emit c).
Proof.
  revert cs. induction idx as [|k idx IH]; simpl; intros cs H i c.
  - injection H as <-. simpl. tauto.
  - bind_inv H. destruct v as [|c0|]; [| |discriminate H].
    + rewrite (IH _ H). split.
      * intros [Hi Hr]. auto.
      * intros [[->|Hi] Hr]; [congruence | auto].
    + bind_inv H. injection H as <-. simpl. rewrite (IH _ E0). split.
      * intros [Heq|[Hi Hr]].
        -- injection Heq as -> ->. auto.
        -- auto.
      * intros [[->|Hi] Hr].
        -- left. congruence.
        -- right. auto.
Qed.

(** A built component met no [bool]. *)
Lemma Constraint_no_bool {Ix} (idx : list Ix)
    (rule : Ix -> result rule_result) (cs : list (Ix * cexpr)) :
  Constraint_ idx rule = Ok cs ->
  forall i, In i idx -> rule i <> Ok Trivial.
Proof.
  revert cs. induction idx as [|k idx IH]; simpl; intros cs H i Hi.
  - contradiction.
  - bind_inv H. destruct Hi as [->|Hi].
    + destruct v; [congruence | congruence | discriminate H].
    + destruct v as [|c0|]; [| |discriminate H].
      * eapply IH; eauto.
      * bind_inv H. eapply IH; eauto.
Qed.

Lemma Constraint_returns {Ix} (idx : list Ix) (rule : Ix -> result rule_result)
    (cs : list (Ix * cexpr)) :
  Constraint_ idx rule = Ok cs ->
  forall i, In i idx -> exists r, rule i = Ok r.
Proof.
  revert cs. induction idx as [|k idx IH]; simpl; intros cs H i Hi.
  - contradiction.
  - bind_inv H. destruct Hi as [->|Hi].
    + exists v. exact E.
    + destruct v as [|c0|]; [| |discriminate H].
      * eapply IH; eauto.
      * bind_inv H. eapply IH; eauto.
Qed.

(** A rule that emits at every index gives one constraint per index. *)
Lemma Constraint_all {Ix} (idx : list Ix) (rule : Ix -> result rule_result)
    (g : Ix -> cexpr) (cs : list (Ix * cexpr)) :
  (forall i r, In i idx -> rule i = Ok r -> r <> Trivial ->
               r = Emit (g i)) ->
  Constraint_ idx rule = Ok cs ->
  cs = map (fun i => (i, g i)) idx.
Proof.
  revert cs. induction idx as [|k idx IH]; simpl; intros cs Hg H.
  - injection H as <-. reflexivity.
  - bind_inv H. destruct v as [|c0|]; [| |discriminate H].
    + specialize (Hg k Skip (or_introl eq_refl) E). 
      discriminate Hg. discriminate.
    + bind_inv H. injection H as <-.
      assert (Hc : Emit c0 = Emit (g k))
        by (apply (Hg k); auto; discriminate).
      injection Hc as ->. rewrite (IH v); auto.
Qed.

(** A rule that emits exactly where [p] holds gives the constraints of the
    indices that satisfy [p]. *)
Lemma Constraint_filter {Ix} (idx : list Ix) (rule : Ix -> result rule_result)
    (p : Ix -> bool) (g : Ix -> cexpr) (cs : list (Ix * cexpr)) :
  (forall i r, In i idx -> rule i = Ok r -> r <> Trivial ->
               r = if p i then Emit (g i) else Skip) ->
  Constraint_ idx rule = Ok cs ->
  cs = map (fun i => (i, g i)) (filter p idx).
Proof.
  revert cs. induction idx as [|k idx IH]; simpl; intros cs Hg H.
  - injection H as <-. reflexivity.
  - bind_inv H. destruct v as [|c0|]; [| |discriminate H].
    + assert (Hc : Skip = if p k then Emit (g k) else Skip)
        by (apply (Hg k); auto; discriminate).
      destruct (p k); [discriminate Hc|]. apply IH; auto.
    + bind_inv H. injection H as <-.
      assert (Hc : Emit c0 = if p k then Emit (g k) else Skip)
        by (apply (Hg k); auto; discriminate).
      destruct (p k); [|discriminate Hc]. injection Hc as ->.
      simpl. rewrite (IH v); auto.
Qed.

Lemma Constraint_ext {Ix} (idx : list Ix) (r1 r2 : Ix -> result rule_result) :
  (forall i, In i idx -> r1 i = r2 i) ->
  Constraint_ idx r1 = Constraint_ idx r2.
Proof.
  induction idx as [|k idx IH]; simpl; intros H.
  - reflexivity.
  - rewrite H by auto. rewrite IH by auto. reflexivity.
Qed.

(** ** What the rules return *)

Lemma beta_x_Ok (a : attrs) (c i j : nat) (t : expr) :
  beta_x a c i j = Ok t ->
  t = EMul (EVar (beta c j)) (ENum (x_val a i j)).
Proof.
  unfold beta_x. intros H. bind_inv H. injection H as <-.
  apply (index2_Ok _ _ _ 0%Q) in E. unfold x_val. rewrite E. reflexivity.
Qed.

Lemma lamda_z_Ok (a : attrs) (i k : nat) (t : expr) :
  lamda_z a i k = Ok t ->
  t = EMul (EVar (lamda k)) (ENum (z_val a i k)).
Proof.
  unfold lamda_z, z_at, z_val. intros H. bind_inv H. injection H as <-.
  destruct (z a) as [zs|]; [|discriminate E].
  apply (index2_Ok _ _ _ 0%Q) in E. rewrite E. reflexivity.
Qed.

Lemma sum_beta_x_Ok (a : attrs) (model : index_sets) (c i : nat) (e : expr) :
  sum_over (J model) (beta_x a c i) = Ok e -> e = sum_beta_x a model c i.
Proof.
  unfold sum_over, sum_beta_x. intros H. bind_inv H. injection H as <-.
  f_equal. eapply mapM_Ok; [|exact E].
  intros j t _. apply beta_x_Ok.
Qed.

Lemma sum_lamda_z_Ok (a : attrs) (model : index_sets) (i : nat) (e : expr) :
  sum_over (K model) (lamda_z a i) = Ok e -> e = sum_lamda_z a model i.
Proof.
  unfold sum_over, sum_lamda_z. intros H. bind_inv H. injection H as <-.
  f_equal. eapply mapM_Ok; [|exact E].
  intros k t _. apply lamda_z_Ok.
Qed.

Lemma log_num_Ok (v : Q) (e : expr) :
  log_num v = Ok e -> e = ELog (ENum v) /\ (0 < v)%Q.
Proof.
  unfold log_num. destruct (Qlt_le_dec 0 v); intros H.
  - injection H as <-. auto.
  - discriminate H.
Qed.

Lemma call_operator_Ok (f : fun_t) (l r : result expr) (res : rule_result) :
  call_operator (select_operator f) l r = Ok res ->
  exists a b, l = Ok a /\ r = Ok b /\
              (res <> Trivial -> res = Emit (orientation f a b)) /\
              f <> FUN_undefined.
Proof.
  destruct f; simpl; intros H; try discriminate H;
    bind_inv H; bind_inv H; injection H as <-;
    exists v, v0; (split; [assumption|]); (split; [assumption|]);
    (split; [|discriminate]);
    destruct (native v && native v0); congruence.
Qed.

Lemma gated_Ok (m : list (list gate)) (i h : nat) (body : result rule_result)
    (res : rule_result) :
  gated m i h body = Ok res ->
  if passes m (i, h) then body = Ok res else res = Skip.
Proof.
  unfold gated, passes. intros H. bind_inv H.
  apply (index2_Ok _ _ _ (GBool false)) in E. unfold gate_val. simpl.
  rewrite E. destruct (truthy v); simpl.
  - destruct (Nat.eqb i h); simpl; [congruence | exact H].
  - congruence.
Qed.

(** The unfolding steps shared by the proofs about the rule bodies. *)
Ltac rule_steps :=
  repeat match goal with
  | H : bind _ _ = Ok _ |- _ => bind_inv H
  | H : sum_over (J _) (beta_x _ _ _) = Ok _ |- _ =>
      apply sum_beta_x_Ok in H; subst
  | H : sum_over (K _) (lamda_z _ _) = Ok _ |- _ =>
      apply sum_lamda_z_Ok in H; subst
  | H : Ok _ = Ok _ |- _ => injection H as H; subst
  | H : @undefined_parameters _ = Ok _ |- _ => discriminate H
  end.

Lemma comparison_Ok (f : fun_t) (r : rts_t) (a : attrs) (model : index_sets)
    (i h : nat) (res : rule_result) :
  fun_ a = f ->
  (match r with
   | RTS_CRS =>
       call_operator (select_operator f)
         (sum_over (J model) (beta_x a i i))
         (sum_over (J model) (beta_x a h i))
   | _ =>
       call_operator (select_operator f)
         (sx <- sum_over (J model) (beta_x a i i) ;;
          Ok (EAdd (EVar (alpha i)) sx))
         (sx <- sum_over (J model) (beta_x a h i) ;;
          Ok (EAdd (EVar (alpha h)) sx))
   end) = Ok res ->
  (res <> Trivial -> res = Emit (concavity_at r a model i h)) /\
  f <> FUN_undefined.
Proof.
  intros Hf H. unfold concavity_at, predictor_at. rewrite Hf.
  destruct r; apply call_operator_Ok in H;
    destruct H as (l & r' & Hl & Hr & He & Hn);
    rule_steps; auto.
Qed.

(** The elementary Afriat rule compares unit [i] with [nextw(i)]. *)
Lemma afriat_rule_Ok (a : attrs) (r : rule1) (model : index_sets) (i : nat)
    (res : rule_result) :
  CQERZG1.afriat_rule a = Ok r -> r model i = Ok res ->
  (res <> Trivial -> res = Emit (concavity a model i (nextw model i))) /\
  fun_ a <> FUN_undefined.
Proof.
  unfold CQERZG1.afriat_rule, concavity, predictor. intros Hr H.
  destruct (cet a); destruct (rts a) eqn:Er; rule_steps;
    (apply (comparison_Ok (f := fun_ a) RTS_VRS1) in H
     || apply (comparison_Ok (f := fun_ a) RTS_CRS) in H); auto.
Qed.

(** The phase-1 pairwise rule. *)
Lemma sweet_rule_Ok (a : attrs) (r : rule2) (model : index_sets) (i h : nat)
    (res : rule_result) :
  CQERZG1.sweet_rule a = Ok r -> r model i h = Ok res ->
  res <> Trivial ->
  res = if passes (cutactive a) (i, h)
        then Emit (concavity a model i h) else Skip.
Proof.
  unfold CQERZG1.sweet_rule, concavity, predictor. intros Hr H Hb.
  destruct (cet a); destruct (rts a) eqn:Er; rule_steps;
    apply gated_Ok in H; destruct (passes (cutactive a) (i, h)); auto;
    (apply (comparison_Ok (f := fun_ a) RTS_VRS1) in H
     || apply (comparison_Ok (f := fun_ a) RTS_CRS) in H); auto;
    apply H; exact Hb.
Qed.

(** A pair that does not pass the mask is skipped, and only such a pair. *)
Lemma sweet_rule_Skip (a : attrs) (r : rule2) (model : index_sets) (i h : nat)
    (res : rule_result) :
  CQERZG1.sweet_rule a = Ok r -> r model i h = Ok res ->
  (res = Skip <-> passes (cutactive a) (i, h) = false).
Proof.
  intros Hr H. destruct res as [|c|].
  - pose proof (sweet_rule_Ok _ _ _ _ Hr H) as Hc.
    destruct (passes (cutactive a) (i, h)).
    + discriminate Hc. discriminate.
    + tauto.
  - pose proof (sweet_rule_Ok _ _ _ _ Hr H) as Hc.
    destruct (passes (cutactive a) (i, h)).
    + split; discriminate.
    + discriminate Hc. discriminate.
  - split; [discriminate|]. intros Hp. exfalso.
    unfold CQERZG1.sweet_rule in Hr.
    destruct (cet a); destruct (rts a); rule_steps;
      apply gated_Ok in H; rewrite Hp in H; discriminate H.
Qed.

(** The phase-2 pairwise rule. *)
Lemma sweet_rule2_Ok (a : CQERZG2.attrs2) (r : rule2) (model : index_sets)
    (i h : nat) (res : rule_result) :
  CQERZG2.sweet_rule2 a = Ok r -> r model i h = Ok res ->
  res <> Trivial ->
  res = if passes (CQERZG2.active a) (i, h)
        then Emit (concavity_at (phase2_rts (CQERZG2.base a))
                                (CQERZG2.base a) model i h)
        else Skip.
Proof.
  unfold CQERZG2.sweet_rule2, phase2_rts. intros Hr H Hb.
  destruct a as [a act]; simpl in *.
  destruct (cet a); destruct (rts a) eqn:Er; rule_steps;
    apply gated_Ok in H; destruct (passes act (i, h)); auto;
    (apply (comparison_Ok (f := fun_ a) RTS_VRS1) in H
     || apply (comparison_Ok (f := fun_ a) RTS_CRS) in H); auto;
    apply H; exact Hb.
Qed.

Lemma sweet_rule2_Skip (a : CQERZG2.attrs2) (r : rule2) (model : index_sets)
    (i h : nat) (res : rule_result) :
  CQERZG2.sweet_rule2 a = Ok r -> r model i h = Ok res ->
  (res = Skip <-> passes (CQERZG2.active a) (i, h) = false).
Proof.
  intros Hr H. destruct res as [|c|].
  - pose proof (sweet_rule2_Ok _ _ _ _ Hr H) as Hc.
    destruct (passes (CQERZG2.active a) (i, h)).
    + discriminate Hc. discriminate.
    + tauto.
  - pose proof (sweet_rule2_Ok _ _ _ _ Hr H) as Hc.
    destruct (passes (CQERZG2.active a) (i, h)).
    + split; discriminate.
    + discriminate Hc. discriminate.
  - split; [discriminate|]. intros Hp. exfalso.
    unfold CQERZG2.sweet_rule2 in Hr. destruct a as [a act]; simpl in *.
    destruct (cet a); destruct (rts a); rule_steps;
      apply gated_Ok in H; rewrite Hp in H; discriminate H.
Qed.

Lemma y_index_Ok (a : attrs) (i : nat) (yi : Q) :
  index (y a) i = Ok yi -> yi = y_val a i.
Proof.
  intros H. apply (index_Ok _ _ 0%Q) in H. symmetry. apply H.
Qed.

(** Outside the additive CRS branch the regression rule returns the
    equation of the specification. *)
Lemma regression_rule_Ok (a : attrs) (r : rule1) (model : index_sets)
    (i : nat) (res : rule_result) :
  CQERZG1.regression_rule a = Ok r -> r model i = Ok res ->
  (cet a = CET_ADDI -> rts a = RTS_CRS -> False) ->
  res = Emit (spec_regression a model i).
Proof.
  unfold CQERZG1.regression_rule, spec_regression, predictor, predictor_at.
  intros Hr H Hn.
  destruct (cet a); destruct (rts a); try (exfalso; auto; fail); rule_steps;
    try (apply log_num_Ok in E0; destruct E0 as [-> _]);
    apply y_index_Ok in E; subst; reflexivity.
Qed.

(** In the additive CRS branch the contextual term is added. *)
Lemma regression_rule_additive_crs (a : attrs) (r : rule1)
    (model : index_sets) (i : nat) (res : rule_result) :
  CQERZG1.regression_rule a = Ok r -> r model i = Ok res ->
  cet a = CET_ADDI -> rts a = RTS_CRS ->
  res = Emit (CEq (ENum (y_val a i))
                  (EAdd (ESub (EAdd (sum_beta_x a model i i)
                                    (sum_lamda_z a model i))
                              (EVar (epsilon_minus i)))
                        (EVar (epsilon_plus i)))).
Proof.
  unfold CQERZG1.regression_rule. intros Hr H Hc Hs. rewrite Hc, Hs in Hr.
  rule_steps. apply y_index_Ok in E. subst. reflexivity.
Qed.

Lemma log_rule_Ok (a : attrs) (r : rule1) (model : index_sets) (i : nat)
    (res : rule_result) :
  CQERZG1.log_rule a = Ok r -> r model i = Ok res ->
  res = Emit (spec_log a model i).
Proof.
  unfold CQERZG1.log_rule, spec_log, predictor, predictor_at. intros Hr H.
  destruct (cet a); destruct (rts a); rule_steps; reflexivity.
Qed.

Lemma CNLSG1_regression_rule_mult (a : attrs) (r : rule1)
    (model : index_sets) (i : nat) (res : rule_result) :
  CNLSG1.regression_rule a = Ok r -> r model i = Ok res ->
  cet a = CET_MULT ->
  res = Emit (CEq (ELog (ENum (y_val a i)))
                  (ESub (ELog (EAdd (EVar (frontier i)) (ENum 1)))
                        (EVar (epsilon i)))).
Proof.
  unfold CNLSG1.regression_rule. intros Hr H Hc. rewrite Hc in Hr.
  rule_steps. apply log_num_Ok in E0. destruct E0 as [-> _].
  apply y_index_Ok in E. subst. reflexivity.
Qed.

(** ** What a successful construction has done *)

Lemma init_sets_I (a : attrs) (model : index_sets) :
  init_sets a = Ok model -> I model = range (List.length (y a)).
Proof.
  unfold init_sets. intros H. rule_steps. reflexivity.
Qed.

Lemma init_sets_J (a : attrs) (model : index_sets) :
  init_sets a = Ok model ->
  J model = range (List.length (nth 0 (x a) [])).
Proof.
  unfold init_sets. intros H. bind_inv H. bind_inv H. injection H as <-.
  apply (index_Ok _ _ []) in E. destruct E as [_ ->]. reflexivity.
Qed.

Lemma init_sets_K (a : attrs) (model : index_sets) :
  init_sets a = Ok model ->
  exists zs, z a = Some zs /\
    K model = range (List.length (nth 0 zs [])).
Proof.
  unfold init_sets. intros H. bind_inv H. bind_inv H. injection H as <-.
  destruct (z a) as [zs|]; [|discriminate E0].
  exists zs. split; [reflexivity|].
  apply (index_Ok _ _ []) in E0. destruct E0 as [_ ->]. reflexivity.
Qed.

Lemma squared_is_square_residuals (a : attrs) (model : index_sets) :
  CQERZG1.squared_objective_rule a model
  = square_residuals (CQERZG1.objective_rule a model).
Proof.
  unfold CQERZG1.squared_objective_rule, CQERZG1.objective_rule. simpl.
  rewrite !map_map. reflexivity.
Qed.

Lemma CQRZG1_built (a : attrs) (m : model_t) :
  CQERZG1.CQRZG1 a = Ok m ->
  phase1_built a m /\ objective_active m = true /\
  squared_objective m = None /\ sweet2_constraints m = None.
Proof.
  unfold CQERZG1.CQRZG1. intros H.
  bind_inv H. bind_inv H. bind_inv H. bind_inv H. bind_inv H. bind_inv H.
  bind_inv H. bind_inv H. injection H as <-. simpl.
  repeat split; simpl; eauto.
  destruct (cet a); try (injection E2 as <-; reflexivity).
  bind_inv E2. bind_inv E2. injection E2 as <-. eauto.
Qed.

Section Built.

Variables raw_active listed : Type.
Variable trans_list : raw_active -> result listed.
Variable to_2d_list : listed -> result (list (list gate)).

Lemma CQRZG2_built (a : attrs) (active_arg : raw_active) (m : model_t) :
  CQERZG2.CQRZG2 trans_list to_2d_list a active_arg = Ok m ->
  exists act,
    stored_active trans_list to_2d_list active_arg = Ok act /\
    phase1_built a m /\ phase2_built a act m /\
    objective_active m = true /\ squared_objective m = None.
Proof.
  unfold CQERZG2.CQRZG2, stored_active. intros H.
  bind_inv H. bind_inv H. exists v0. rewrite E. simpl. split; [exact E0|].
  simpl in H.
  bind_inv H. bind_inv H. bind_inv H. bind_inv H. bind_inv H. bind_inv H.
  bind_inv H. bind_inv H. bind_inv H. bind_inv H. injection H as <-.
  unfold phase2_built. simpl.
  repeat split; simpl; eauto.
  destruct (cet a); try (injection E4 as <-; reflexivity).
  bind_inv E4. bind_inv E4. injection E4 as <-. eauto.
Qed.

(** The phase-2 class builds what the phase-1 class builds and one more
    component. *)
Lemma CQRZG2_extends (a : attrs) (active_arg : raw_active) (m : model_t) :
  CQERZG2.CQRZG2 trans_list to_2d_list a active_arg = Ok m ->
  exists m1, CQERZG1.CQRZG1 a = Ok m1 /\
    model_sets m = model_sets m1 /\ objective m = objective m1 /\
    regression_constraints m = regression_constraints m1 /\
    log_constraints m = log_constraints m1 /\
    afriat_constraints m = afriat_constraints m1 /\
    sweet_constraints m = sweet_constraints m1.
Proof.
  unfold CQERZG2.CQRZG2, CQERZG1.CQRZG1. intros H.
  bind_inv H. bind_inv H. simpl in H.
  bind_inv H. rewrite E1. simpl.
  bind_inv H. rewrite E2. simpl.
  bind_inv H. rewrite E3. simpl.
  bind_inv H. rewrite E4. simpl.
  bind_inv H. rewrite E5. simpl.
  bind_inv H. rewrite E6. simpl.
  bind_inv H. rewrite E7. simpl.
  bind_inv H. rewrite E8. simpl.
  bind_inv H. bind_inv H. injection H as <-. simpl.
  eexists. split; [reflexivity|]. simpl. repeat split.
Qed.

(** [CQRZG2.__init__] repeats the steps of [CQRZG1.__init__] and adds the
    phase-2 component. *)
Lemma CQRZG2_decompose (a : attrs) (active_arg : raw_active) :
  CQERZG2.CQRZG2 trans_list to_2d_list a active_arg
  = (act <- stored_active trans_list to_2d_list active_arg ;;
     m1 <- CQERZG1.CQRZG1 a ;;
     r <- CQERZG2.sweet_rule2 {| CQERZG2.base := a; CQERZG2.active := act |} ;;
     cs <- Constraint_ (list_prod (I (model_sets m1)) (I (model_sets m1)))
                       (fun ih => r (model_sets m1) (fst ih) (snd ih)) ;;
     Ok (with_sweet2 m1 cs)).
Proof.
  unfold CQERZG2.CQRZG2, CQERZG1.CQRZG1, stored_active.
  destruct (trans_list active_arg) as [l|]; simpl; [|reflexivity].
  destruct (to_2d_list l) as [act|]; simpl; [|reflexivity].
  destruct (init_sets a) as [model|]; simpl; [|reflexivity].
  destruct (CQERZG1.regression_rule a) as [rr|]; simpl; [|reflexivity].
  destruct (Constraint_ (I model) (rr model)); simpl; [|reflexivity].
  destruct (if match cet a with CET_MULT => true | _ => false end
            then r <- CQERZG1.log_rule a ;;
                 cs <- Constraint_ (I model) (r model) ;; Ok (Some cs)
            else Ok None); simpl; [|reflexivity].
  destruct (CQERZG1.afriat_rule a) as [ra|]; simpl; [|reflexivity].
  destruct (Constraint_ (I model) (ra model)); simpl; [|reflexivity].
  destruct (CQERZG1.sweet_rule a) as [rs|]; simpl; [|reflexivity].
  destruct (Constraint_ (list_prod (I model) (I model))
              (fun ih => rs model (fst ih) (snd ih))); simpl; [|reflexivity].
  reflexivity.
Qed.

Lemma expectile_fields (a : attrs) (m : model_t) :
  objective m = CQERZG1.objective_rule a (model_sets m) ->
  {| model_sets := model_sets m;
     objective := objective m;
     objective_active := false;
     squared_objective :=
       Some (CQERZG1.squared_objective_rule a (model_sets m));
     regression_constraints := regression_constraints m;
     log_constraints := log_constraints m;
     afriat_constraints := afriat_constraints m;
     sweet_constraints := sweet_constraints m;
     sweet2_constraints := sweet2_constraints m |} = expectile_of m.
Proof.
  intros H. unfold expectile_of.
  rewrite squared_is_square_residuals, <- H. reflexivity.
Qed.

(** The expectile classes are the quantile classes with the objective
    swapped, and fail where they fail. *)
Lemma CERZG1_is_expectile_of (a : attrs) :
  CQERZG1.CERZG1 a = fmap expectile_of (CQERZG1.CQRZG1 a).
Proof.
  unfold CQERZG1.CERZG1, fmap.
  destruct (CQERZG1.CQRZG1 a) as [m|e] eqn:E; simpl; [|reflexivity].
  f_equal. apply expectile_fields.
  apply CQRZG1_built in E. apply E.
Qed.

Lemma CERZG2_is_expectile_of (a : attrs) (active_arg : raw_active) :
  CQERZG2.CERZG2 trans_list to_2d_list a active_arg
  = fmap expectile_of (CQERZG2.CQRZG2 trans_list to_2d_list a active_arg).
Proof.
  unfold CQERZG2.CERZG2, fmap.
  destruct (CQERZG2.CQRZG2 trans_list to_2d_list a active_arg) as [m|e] eqn:E;
    simpl; [|reflexivity].
  f_equal.
  change (CQERZG2.squared_objective_rule a (model_sets m))
    with (CQERZG1.squared_objective_rule a (model_sets m)).
  apply expectile_fields.
  apply CQRZG2_built in E. destruct E as (act & _ & P & _). apply P.
Qed.

Lemma expectile_of_built (a : attrs) (m : model_t) :
  phase1_built a m -> phase1_built a (expectile_of m).
Proof.
  intros [S O R L A W]. constructor; simpl; auto.
Qed.

(** Every class has done the phase-1 steps; the phase-2 classes the
    phase-2 step as well. *)
Lemma construct_built (v : variant) (a : attrs) (active_arg : raw_active)
    (m : model_t) :
  construct trans_list to_2d_list v a active_arg = Ok m ->
  phase1_built a m /\
  if phase2_variant v
  then exists act,
         stored_active trans_list to_2d_list active_arg = Ok act /\
         phase2_built a act m
  else sweet2_constraints m = None.
Proof.
  destruct v; simpl; intros H.
  - apply CQRZG1_built in H. tauto.
  - rewrite CERZG1_is_expectile_of in H. unfold fmap in H. bind_inv H.
    injection H as <-. apply CQRZG1_built in E.
    split; [apply expectile_of_built; tauto | simpl; tauto].
  - apply CQRZG2_built in H. destruct H as (act & ? & ? & ? & _).
    split; eauto.
  - rewrite CERZG2_is_expectile_of in H. unfold fmap in H. bind_inv H.
    injection H as <-. apply CQRZG2_built in E.
    destruct E as (act & ? & ? & ? & _).
    split; [apply expectile_of_built; auto | exists act; auto].
Qed.

End Built.

(** ** The components in closed form *)

Lemma nextw_next_neighbor (model : index_sets) (n i : nat) :
  I model = range n -> i < n -> nextw model i = next_neighbor n i.
Proof.
  intros HI Hi. unfold nextw, next_neighbor. rewrite HI. unfold range.
  rewrite length_seq.
  destruct (Nat.eqb_spec i (n - 1)) as [->|Hne].
  - replace (n - 1 + 1) with n by lia. apply Nat.Div0.mod_same.
  - apply Nat.mod_small. lia.
Qed.

Lemma afriat_closed (a : attrs) (m : model_t) :
  phase1_built a m ->
  afriat_constraints m
  = map (fun i => (i, concavity a (model_sets m) i (nextw (model_sets m) i)))
        (I (model_sets m)).
Proof.
  intros [_ _ _ _ (r & Hr & Hc) _].
  eapply Constraint_all; [|exact Hc].
  intros i res _ H Hb. apply (proj1 (afriat_rule_Ok _ _ _ Hr H) Hb).
Qed.

Lemma afriat_operator_bound (a : attrs) (m : model_t) :
  phase1_built a m -> I (model_sets m) <> [] -> fun_ a <> FUN_undefined.
Proof.
  intros [_ _ _ _ (r & Hr & Hc) _] Hne.
  destruct (I (model_sets m)) as [|i l] eqn:EI; [congruence|].
  destruct (Constraint_returns _ _ Hc i) as (res & Hres); [simpl; auto|].
  apply (proj2 (afriat_rule_Ok _ _ _ Hr Hres)).
Qed.

Lemma sweet_closed (a : attrs) (m : model_t) :
  phase1_built a m ->
  sweet_constraints m
  = map (fun ih => (ih, concavity a (model_sets m) (fst ih) (snd ih)))
        (filter (passes (cutactive a))
                (list_prod (I (model_sets m)) (I (model_sets m)))).
Proof.
  intros [_ _ _ _ _ (r & Hr & Hc)].
  eapply Constraint_filter; [|exact Hc].
  intros [i h] res _ H Hb. simpl in *. eapply sweet_rule_Ok; eauto.
Qed.

Lemma sweet2_closed (a : attrs) (act : list (list gate)) (m : model_t) :
  phase2_built a act m ->
  sweet2_constraints m
  = Some (map (fun ih => (ih, concavity_at (phase2_rts a) a (model_sets m)
                                           (fst ih) (snd ih)))
              (filter (passes act)
                      (list_prod (I (model_sets m)) (I (model_sets m))))).
Proof.
  intros (r & cs & Hr & Hc & ->). f_equal.
  eapply Constraint_filter; [|exact Hc].
  intros [i h] res _ H Hb. simpl in *.
  apply (sweet_rule2_Ok _ _ _ _ Hr H Hb).
Qed.

Lemma regression_closed (a : attrs) (m : model_t) :
  phase1_built a m ->
  (cet a = CET_ADDI -> rts a = RTS_CRS -> False) ->
  regression_constraints m
  = map (fun i => (i, spec_regression a (model_sets m) i)) (I (model_sets m)).
Proof.
  intros [_ _ (r & Hr & Hc) _ _ _] Hn.
  eapply Constraint_all; [|exact Hc].
  intros i res _ H _. eapply regression_rule_Ok; eauto.
Qed.

Lemma log_closed (a : attrs) (m : model_t) :
  phase1_built a m ->
  log_constraints m
  = match cet a with
    | CET_MULT =>
        Some (map (fun i => (i, spec_log a (model_sets m) i)) (I (model_sets m)))
    | _ => None
    end.
Proof.
  intros [_ _ _ L _ _].
  destruct (cet a); auto.
  destruct L as (r & cs & Hr & Hc & ->). f_equal.
  eapply Constraint_all; [|exact Hc].
  intros i res _ H _. eapply log_rule_Ok; eauto.
Qed.

Lemma In_gated_pairs {C} (g : nat * nat -> C) (p : nat * nat -> bool)
    (n i h : nat) :
  (exists c, In ((i, h), c)
               (map (fun ih => (ih, g ih))
                    (filter p (list_prod (range n) (range n)))))
  <-> (i < n /\ h < n /\ p (i, h) = true).
Proof.
  split.
  - intros (c & H). apply in_map_iff in H. destruct H as (ih & Heq & Hin).
    injection Heq as -> _. apply filter_In in Hin. destruct Hin as [Hin Hp].
    apply in_prod_iff in Hin. unfold range in Hin. rewrite !in_seq in Hin.
    repeat split; try lia. exact Hp.
  - intros (Hi & Hh & Hp). exists (g (i, h)).
    apply in_map_iff. exists (i, h). split; [reflexivity|].
    apply filter_In. split; [|exact Hp].
    apply in_prod_iff. unfold range. rewrite !in_seq. lia.
Qed.

Lemma passes_iff (mx : list (list gate)) (i h : nat) :
  passes mx (i, h) = true <-> truthy (gate_val mx i h) = true /\ i <> h.
Proof.
  unfold passes. simpl. rewrite andb_true_iff, negb_true_iff, Nat.eqb_neq.
  tauto.
Qed.

(** ** The claims *)

Section Claims.

Variables raw_active listed : Type.
Variable trans_list : raw_active -> result listed.
Variable to_2d_list : listed -> result (list (list gate)).

Lemma built_I (v : variant) (a : attrs) (act : raw_active) (m : model_t) :
  construct trans_list to_2d_list v a act = Ok m ->
  I (model_sets m) = range (List.length (y a)).
Proof.
  intros H. apply construct_built in H. destruct H as [[S _ _ _ _ _] _].
  apply init_sets_I. exact S.
Qed.

(** C3.  In a model built by any of the four classes, the phase-1
    component holds a constraint for the pair (i,h) exactly when
    [cutactive[i][h]] is truthy and [i <> h], and the phase-2 component
    exactly when the stored [active[i][h]] is truthy and [i <> h]; no
    self-pair has a constraint in either; and the rules return
    [Constraint.Skip], not a constraint, for a pair that does not pass. *)
Theorem sweet_spot_gating (v : variant) (a : attrs) (act : raw_active)
    (m : model_t) :
  construct trans_list to_2d_list v a act = Ok m ->
  let n := List.length (y a) in
  (forall i h, i < n -> h < n ->
     ((exists c, In ((i, h), c) (sweet_constraints m))
      <-> truthy (gate_val (cutactive a) i h) = true /\ i <> h)) /\
  (forall i c, ~ In ((i, i), c) (sweet_constraints m)) /\
  (forall cs, sweet2_constraints m = Some cs ->
     exists stored, stored_active trans_list to_2d_list act = Ok stored /\
       (forall i h, i < n -> h < n ->
          ((exists c, In ((i, h), c) cs)
           <-> truthy (gate_val stored i h) = true /\ i <> h)) /\
       (forall i c, ~ In ((i, i), c) cs)) /\
  (forall r i h res, CQERZG1.sweet_rule a = Ok r ->
     r (model_sets m) i h = Ok res ->
     (res = Skip <-> ~ (truthy (gate_val (cutactive a) i h) = true /\ i <> h))) /\
  (forall stored r i h res,
     CQERZG2.sweet_rule2 {| CQERZG2.base := a; CQERZG2.active := stored |} = Ok r ->
     r (model_sets m) i h = Ok res ->
     (res = Skip <-> ~ (truthy (gate_val stored i h) = true /\ i <> h))).
Proof.
  intros H n. pose proof (built_I _ _ _ H) as HI. fold n in HI.
  pose proof (construct_built _ _ _ _ _ H) as [P1 P2].
  pose proof (sweet_closed P1) as HS. rewrite HI in HS.
  split; [|split; [|split; [|split]]].
  - intros i h Hi Hh. rewrite HS, In_gated_pairs, passes_iff. tauto.
  - intros i c Hin. rewrite HS in Hin.
    assert (Hex : exists c, In ((i, i), c)
      (map (fun ih => (ih, concavity a (model_sets m) (fst ih) (snd ih)))
           (filter (passes (cutactive a)) (list_prod (range n) (range n)))))
      by eauto.
    apply In_gated_pairs in Hex. destruct Hex as (_ & _ & Hp).
    apply passes_iff in Hp. destruct Hp as [_ Hne]. congruence.
  - intros cs Hcs. destruct (phase2_variant v).
    + destruct P2 as (stored & Hst & P2). exists stored. split; [exact Hst|].
      apply sweet2_closed in P2. rewrite HI, Hcs in P2. injection P2 as ->.
      split.
      * intros i h Hi Hh. rewrite In_gated_pairs, passes_iff. tauto.
      * intros i c Hin.
        assert (Hex : exists c, In ((i, i), c)
          (map (fun ih => (ih, concavity_at (phase2_rts a) a (model_sets m)
                                            (fst ih) (snd ih)))
               (filter (passes stored) (list_prod (range n) (range n)))))
          by eauto.
        apply In_gated_pairs in Hex. destruct Hex as (_ & _ & Hp).
        apply passes_iff in Hp. destruct Hp as [_ Hne]. congruence.
    + congruence.
  - intros r i h res Hr Hres. rewrite <- passes_iff.
    rewrite (sweet_rule_Skip _ _ _ _ Hr Hres).
    destruct (passes (cutactive a) (i, h)); split; congruence.
  - intros stored r i h res Hr Hres. rewrite <- passes_iff.
    rewrite (sweet_rule2_Skip _ _ _ _ Hr Hres). simpl.
    destruct (passes stored (i, h)); split; congruence.
Qed.

(** C5.  The elementary Afriat component has exactly one constraint per
    observation, in index order; the constraint of [i] compares the
    predictor with the coefficients of [i] at [x[i]] (left) to the
    predictor with the coefficients of the next neighbour, wrapping from
    the last index to 0, at the same [x[i]] (right), with [<=] for a
    production frontier and [>=] for a cost frontier.  The sums of the
    predictor range over the entries of the first row of [x]. *)
Theorem elementary_afriat (v : variant) (a : attrs) (act : raw_active)
    (m : model_t) :
  construct trans_list to_2d_list v a act = Ok m ->
  let n := List.length (y a) in
  J (model_sets m) = range (List.length (nth 0 (x a) [])) /\
  map fst (afriat_constraints m) = range n /\
  forall i c, In (i, c) (afriat_constraints m) ->
    i < n /\
    (fun_ a = FUN_PROD \/ fun_ a = FUN_COST) /\
    (fun_ a = FUN_PROD ->
       c = CLe (predictor a (model_sets m) i i)
               (predictor a (model_sets m) (next_neighbor n i) i)) /\
    (fun_ a = FUN_COST ->
       c = CGe (predictor a (model_sets m) i i)
               (predictor a (model_sets m) (next_neighbor n i) i)).
Proof.
  intros H n. pose proof (built_I _ _ _ H) as HI. fold n in HI.
  pose proof (construct_built _ _ _ _ _ H) as [P1 _].
  pose proof (afriat_closed P1) as HA.
  pose proof (afriat_operator_bound P1) as HF.
  rewrite HI in HA, HF. split; [|split].
  - apply init_sets_J, P1.
  - rewrite HA, map_map. simpl. apply map_id.
  - intros i c Hin. rewrite HA in Hin. apply in_map_iff in Hin.
    destruct Hin as (k & Heq & Hk). injection Heq as -> <-.
    assert (Hlt : i < n) by (unfold range in Hk; apply in_seq in Hk; lia).
    rewrite (nextw_next_neighbor _ HI Hlt).
    assert (Hne : range n <> []) by (intros E; rewrite E in Hk; exact Hk).
    specialize (HF Hne). unfold concavity.
    split; [exact Hlt|].
    destruct (fun_ a); simpl; repeat split; auto; try congruence.
Qed.

(** *** Switching the frontier type *)

Lemma call_operator_cost (l r : result expr) :
  call_operator (Some ge_op) l r
  = fmap flip_result (call_operator (Some le_op) l r).
Proof.
  unfold call_operator, fmap. destruct l as [a|]; simpl; [|reflexivity].
  destruct r as [b|]; simpl; [|reflexivity].
  destruct (native a && native b); reflexivity.
Qed.

Lemma gated_flip (mx : list (list gate)) (i h : nat)
    (body : result rule_result) :
  gated mx i h (fmap flip_result body) = fmap flip_result (gated mx i h body).
Proof.
  unfold gated, fmap. destruct (index2 mx i h) as [g|]; simpl; [|reflexivity].
  destruct (truthy g); [|reflexivity].
  destruct (Nat.eqb i h); reflexivity.
Qed.

Lemma Constraint_flip {Ix} (idx : list Ix) (rule : Ix -> result rule_result) :
  Constraint_ idx (fun i => fmap flip_result (rule i))
  = fmap flip_all (Constraint_ idx rule).
Proof.
  unfold fmap. induction idx as [|k idx IH]; simpl; [reflexivity|].
  destruct (rule k) as [res|]; simpl; [|reflexivity].
  destruct res; simpl; [exact IH | | reflexivity].
  rewrite IH. destruct (Constraint_ idx rule) as [cs|]; reflexivity.
Qed.

Lemma afriat_rule_cost (a : attrs) :
  fun_ a = FUN_PROD ->
  flipped_selection
    (fun r r' : rule1 => forall model i,
       r' model i = fmap flip_result (r model i))
    (CQERZG1.afriat_rule a) (CQERZG1.afriat_rule (with_fun a FUN_COST)).
Proof.
  intros Hf. unfold CQERZG1.afriat_rule. simpl. rewrite Hf.
  destruct (cet a); destruct (rts a); simpl; try reflexivity;
    (eexists; split; [reflexivity|]; intros model i; simpl;
     apply call_operator_cost).
Qed.

Lemma sweet_rule_cost (a : attrs) :
  fun_ a = FUN_PROD ->
  flipped_selection
    (fun r r' : rule2 => forall model i h,
       r' model i h = fmap flip_result (r model i h))
    (CQERZG1.sweet_rule a) (CQERZG1.sweet_rule (with_fun a FUN_COST)).
Proof.
  intros Hf. unfold CQERZG1.sweet_rule. simpl. rewrite Hf.
  destruct (cet a); destruct (rts a); simpl; try reflexivity;
    (eexists; split; [reflexivity|]; intros model i h; simpl;
     rewrite <- gated_flip; f_equal; apply call_operator_cost).
Qed.

Lemma sweet_rule2_cost (a : attrs) (act : list (list gate)) :
  fun_ a = FUN_PROD ->
  flipped_selection
    (fun r r' : rule2 => forall model i h,
       r' model i h = fmap flip_result (r model i h))
    (CQERZG2.sweet_rule2 {| CQERZG2.base := a; CQERZG2.active := act |})
    (CQERZG2.sweet_rule2
       {| CQERZG2.base := with_fun a FUN_COST; CQERZG2.active := act |}).
Proof.
  intros Hf. unfold CQERZG2.sweet_rule2. simpl. rewrite Hf.
  destruct (cet a); destruct (rts a); simpl; try reflexivity;
    (eexists; split; [reflexivity|]; intros model i h; simpl;
     rewrite <- gated_flip; f_equal; apply call_operator_cost).
Qed.

Lemma CQRZG1_cost (a : attrs) :
  fun_ a = FUN_PROD ->
  CQERZG1.CQRZG1 (with_fun a FUN_COST) = fmap to_cost (CQERZG1.CQRZG1 a).
Proof.
  intros Hf. unfold CQERZG1.CQRZG1, fmap.
  change (init_sets (with_fun a FUN_COST)) with (init_sets a).
  destruct (init_sets a) as [model|]; simpl; [|reflexivity].
  change (CQERZG1.regression_rule (with_fun a FUN_COST))
    with (CQERZG1.regression_rule a).
  destruct (CQERZG1.regression_rule a) as [rr|]; simpl; [|reflexivity].
  destruct (Constraint_ (I model) (rr model)); simpl; [|reflexivity].
  change (CQERZG1.log_rule (with_fun a FUN_COST)) with (CQERZG1.log_rule a).
  destruct (if match cet a with CET_MULT => true | _ => false end
            then r <- CQERZG1.log_rule a ;;
                 cs <- Constraint_ (I model) (r model) ;; Ok (Some cs)
            else Ok None); simpl; [|reflexivity].
  pose proof (afriat_rule_cost a Hf) as HA. unfold flipped_selection in HA.
  destruct (CQERZG1.afriat_rule a) as [ra|];
    [destruct HA as (ra' & -> & HA) | rewrite HA; reflexivity]; simpl.
  rewrite (Constraint_ext _ _ (fun i => fmap flip_result (ra model i)))
    by (intros; apply HA).
  rewrite Constraint_flip. unfold fmap.
  destruct (Constraint_ (I model) (ra model)); simpl; [|reflexivity].
  pose proof (sweet_rule_cost a Hf) as HS. unfold flipped_selection in HS.
  destruct (CQERZG1.sweet_rule a) as [rs|];
    [destruct HS as (rs' & -> & HS) | rewrite HS; reflexivity]; simpl.
  rewrite (Constraint_ext _ _
             (fun ih => fmap flip_result (rs model (fst ih) (snd ih))))
    by (intros; apply HS).
  rewrite Constraint_flip. unfold fmap.
  destruct (Constraint_ (list_prod (I model) (I model))
              (fun ih => rs model (fst ih) (snd ih))); reflexivity.
Qed.

Lemma CQRZG2_cost (a : attrs) (act : raw_active) :
  fun_ a = FUN_PROD ->
  CQERZG2.CQRZG2 trans_list to_2d_list (with_fun a FUN_COST) act
  = fmap to_cost (CQERZG2.CQRZG2 trans_list to_2d_list a act).
Proof.
  intros Hf. rewrite !CQRZG2_decompose, (CQRZG1_cost a Hf). unfold fmap.
  destruct (stored_active trans_list to_2d_list act) as [st|]; simpl;
    [|reflexivity].
  destruct (CQERZG1.CQRZG1 a) as [m1|]; simpl; [|reflexivity].
  pose proof (sweet_rule2_cost a st Hf) as HS. unfold flipped_selection in HS.
  destruct (CQERZG2.sweet_rule2 _) as [rs|];
    [destruct HS as (rs' & -> & HS) | rewrite HS; reflexivity]; simpl.
  rewrite (Constraint_ext _ _
             (fun ih => fmap flip_result (rs (model_sets m1) (fst ih) (snd ih))))
    by (intros; apply HS).
  rewrite Constraint_flip. unfold fmap.
  destruct (Constraint_ _ _); reflexivity.
Qed.

Lemma fmap_fmap {A B C} (f : A -> B) (g : B -> C) (m : result A) :
  fmap g (fmap f m) = fmap (fun a => g (f a)) m.
Proof.
  destruct m; reflexivity.
Qed.

Lemma construct_cost (v : variant) (a : attrs) (act : raw_active) :
  fun_ a = FUN_PROD ->
  construct trans_list to_2d_list v (with_fun a FUN_COST) act
  = fmap to_cost (construct trans_list to_2d_list v a act).
Proof.
  intros Hf. destruct v; simpl.
  - apply CQRZG1_cost, Hf.
  - rewrite !CERZG1_is_expectile_of, (CQRZG1_cost a Hf), !fmap_fmap.
    reflexivity.
  - apply CQRZG2_cost, Hf.
  - rewrite !CERZG2_is_expectile_of, (CQRZG2_cost a act Hf), !fmap_fmap.
    reflexivity.
Qed.

Lemma concavity_production (a : attrs) (r : rts_t) (model : index_sets)
    (i h : nat) :
  fun_ a = FUN_PROD -> is_le (concavity_at r a model i h) = true.
Proof.
  intros Hf. unfold concavity_at. rewrite Hf. reflexivity.
Qed.

(** C4.  With everything but the frontier type fixed, the cost-frontier
    model is the production-frontier model in which every elementary
    Afriat, phase-1 and phase-2 sweet-spot constraint [l <= r] has become
    [l >= r] on the same operands, and the regression and
    log-linearization constraints and both objectives are the same;
    construction fails for the one exactly when it fails for the other,
    with the same exception. *)
Theorem frontier_switch (v : variant) (a : attrs) (act : raw_active) :
  fun_ a = FUN_PROD ->
  construct trans_list to_2d_list v (with_fun a FUN_COST) act
  = fmap to_cost (construct trans_list to_2d_list v a act) /\
  forall m, construct trans_list to_2d_list v a act = Ok m ->
    (forall i c, In (i, c) (afriat_constraints m) -> is_le c = true) /\
    (forall ih c, In (ih, c) (sweet_constraints m) -> is_le c = true) /\
    (forall cs ih c, sweet2_constraints m = Some cs -> In (ih, c) cs ->
                     is_le c = true) /\
    regression_constraints (to_cost m) = regression_constraints m /\
    log_constraints (to_cost m) = log_constraints m /\
    objective (to_cost m) = objective m /\
    objective_active (to_cost m) = objective_active m /\
    squared_objective (to_cost m) = squared_objective m.
Proof.
  intros Hf. split; [apply construct_cost, Hf|].
  intros m H. pose proof (construct_built _ _ _ _ _ H) as [P1 P2].
  split; [|split; [|split; [|repeat split]]].
  - intros i c Hin. rewrite (afriat_closed P1) in Hin.
    apply in_map_iff in Hin. destruct Hin as (k & Heq & _).
    injection Heq as _ <-. apply (concavity_production a (rts a)), Hf.
  - intros ih c Hin. rewrite (sweet_closed P1) in Hin.
    apply in_map_iff in Hin. destruct Hin as (k & Heq & _).
    injection Heq as _ <-. apply (concavity_production a (rts a)), Hf.
  - intros cs ih c Hcs Hin. destruct (phase2_variant v); [|congruence].
    destruct P2 as (st & _ & P2). rewrite (sweet2_closed P2) in Hcs.
    injection Hcs as <-. apply in_map_iff in Hin.
    destruct Hin as (k & Heq & _). injection Heq as _ <-.
    apply concavity_production, Hf.
Qed.

(** *** Objectives *)


(** Evaluating the squared expression is evaluating the expression at the
    squared residuals. *)
Lemma eval_square_residuals (ln : Q -> Q) (rho : var -> Q) (e : expr) :
  eval ln rho (square_residuals e) = eval ln (squared_values rho) e.
Proof.
  induction e using expr_ind; simpl; try congruence.
  - destruct v; reflexivity.
  - generalize 0%Q as acc. induction H as [|t ts Ht _ IH]; simpl; intros acc.
    + reflexivity.
    + rewrite Ht. apply IH.
Qed.

Lemma eval_ESum (ln : Q -> Q) (rho : var -> Q) (f : nat -> expr)
    (g : nat -> Q) (idx : list nat) :
  (forall i, eval ln rho (f i) == g i)%Q ->
  (eval ln rho (ESum (map f idx)) == Qsum g idx)%Q.
Proof.
  intros Hf. simpl.
  assert (G : forall acc,
    (fold_left (fun acc t => acc + eval ln rho t) (map f idx) acc
     == acc + Qsum g idx)%Q).
  { induction idx as [|i idx IH]; simpl; intros acc.
    - ring.
    - rewrite IH, Hf. ring. }
  rewrite G. ring.
Qed.

Lemma Qsum_plus (f g : nat -> Q) (idx : list nat) :
  (Qsum (fun i => f i + g i) idx == Qsum f idx + Qsum g idx)%Q.
Proof.
  induction idx as [|i idx IH]; simpl.
  - ring.
  - rewrite IH. ring.
Qed.

Lemma eval_quantile_objective (ln : Q -> Q) (rho : var -> Q) (t : Q) (n : nat) :
  (eval ln rho (quantile_objective t n)
   == (1 - t) * Qsum (fun i => rho (epsilon_plus i)) (range n)
      + t * Qsum (fun i => rho (epsilon_minus i)) (range n))%Q.
Proof.
  unfold quantile_objective.
  change (eval ln rho (EAdd ?a ?b)) with (eval ln rho a + eval ln rho b)%Q.
  change (eval ln rho (EMul (ENum ?q) ?b)) with (q * eval ln rho b)%Q.
  rewrite (eval_ESum ln rho _ (fun i => rho (epsilon_plus i)))
    by (intros; reflexivity).
  rewrite (eval_ESum ln rho _ (fun i => rho (epsilon_minus i)))
    by (intros; reflexivity).
  reflexivity.
Qed.

Lemma eval_expectile_objective (ln : Q -> Q) (rho : var -> Q) (t : Q) (n : nat) :
  (eval ln rho (expectile_objective t n)
   == (1 - t) * Qsum (fun i => rho (epsilon_plus i) ^ 2) (range n)
      + t * Qsum (fun i => rho (epsilon_minus i) ^ 2) (range n))%Q.
Proof.
  unfold expectile_objective.
  change (eval ln rho (EAdd ?a ?b)) with (eval ln rho a + eval ln rho b)%Q.
  change (eval ln rho (EMul (ENum ?q) ?b)) with (q * eval ln rho b)%Q.
  rewrite (eval_ESum ln rho _ (fun i => rho (epsilon_plus i) ^ 2)%Q)
    by (intros; reflexivity).
  rewrite (eval_ESum ln rho _ (fun i => rho (epsilon_minus i) ^ 2)%Q)
    by (intros; reflexivity).
  reflexivity.
Qed.

Lemma square_quantile_objective (t : Q) (n : nat) :
  square_residuals (quantile_objective t n) = expectile_objective t n.
Proof.
  unfold quantile_objective, expectile_objective. simpl.
  rewrite !map_map. reflexivity.
Qed.

Lemma pow_free_quantile_objective (t : Q) (n : nat) :
  pow_free (quantile_objective t n) = true.
Proof.
  unfold quantile_objective. simpl.
  apply andb_true_intro. split; apply forallb_forall; intros e He;
    apply in_map_iff in He; destruct He as (i & <- & _); reflexivity.
Qed.

Lemma built_objective_form (v : variant) (a : attrs) (act : raw_active)
    (m : model_t) :
  construct trans_list to_2d_list v a act = Ok m ->
  objective m = quantile_objective (tau a) (List.length (y a)).
Proof.
  intros H. pose proof (built_I _ _ _ H) as HI.
  apply construct_built in H. destruct H as [[_ O _ _ _ _] _].
  rewrite O. unfold CQERZG1.objective_rule, quantile_objective.
  rewrite HI. reflexivity.
Qed.

Lemma quantile_flags (v : variant) (a : attrs) (act : raw_active)
    (m : model_t) :
  quantile_variant v = true ->
  construct trans_list to_2d_list v a act = Ok m ->
  objective_active m = true /\ squared_objective m = None.
Proof.
  destruct v; simpl; try discriminate; intros _ H.
  - apply CQRZG1_built in H. tauto.
  - apply CQRZG2_built in H. destruct H as (st & _ & _ & _ & ? & ?). tauto.
Qed.

(** C8.  A model built by a quantile class minimizes its objective
    component, which is [(1-τ)·Σ_i epsilon_plus[i] + τ·Σ_i epsilon_minus[i]]
    over the observations: as an expression, in value under every
    assignment, with no power in it and additive in the assignment; no
    squared objective is present.  At [τ = 1/2] both weights are 1/2. *)
Theorem quantile_objective_linear (v : variant) (a : attrs) (act : raw_active)
    (m : model_t) :
  quantile_variant v = true ->
  construct trans_list to_2d_list v a act = Ok m ->
  let n := List.length (y a) in
  objective_active m = true /\
  squared_objective m = None /\
  objective m = quantile_objective (tau a) n /\
  pow_free (objective m) = true /\
  (forall ln rho,
     eval ln rho (objective m)
     == (1 - tau a) * Qsum (fun i => rho (epsilon_plus i)) (range n)
        + tau a * Qsum (fun i => rho (epsilon_minus i)) (range n))%Q /\
  (forall ln rho1 rho2,
     eval ln (fun w => rho1 w + rho2 w) (objective m)
     == eval ln rho1 (objective m) + eval ln rho2 (objective m))%Q /\
  (tau a == 1 # 2 ->
   forall ln rho,
     eval ln rho (objective m)
     == (1 # 2) * Qsum (fun i => rho (epsilon_plus i)) (range n)
        + (1 # 2) * Qsum (fun i => rho (epsilon_minus i)) (range n))%Q.
Proof.
  intros Hq H n. destruct (quantile_flags _ _ _ Hq H) as [Ha Hs].
  pose proof (built_objective_form _ _ _ H) as Ho. fold n in Ho.
  split; [exact Ha|]. split; [exact Hs|]. split; [exact Ho|].
  rewrite Ho. split; [apply pow_free_quantile_objective|].
  split; [intros; apply eval_quantile_objective|]. split.
  - intros ln rho1 rho2. rewrite !eval_quantile_objective, !Qsum_plus. ring.
  - intros Ht ln rho. rewrite eval_quantile_objective, Ht. ring.
Qed.

(** C7.  Each expectile class builds what its quantile class builds, with
    the objective deactivated and the squared objective added, and fails
    where the quantile class fails.  The squared objective is the quantile
    objective with every residual squared: as an expression it is
    [(1-τ)·Σ epsilon_plus² + τ·Σ epsilon_minus²], and its value under any
    assignment is the value of the quantile objective at the squared
    residuals. *)
Theorem expectile_is_squared_quantile (v : variant) (a : attrs)
    (act : raw_active) :
  quantile_variant v = true ->
  construct trans_list to_2d_list (expectile_class v) a act
  = fmap expectile_of (construct trans_list to_2d_list v a act) /\
  forall m, construct trans_list to_2d_list v a act = Ok m ->
    let n := List.length (y a) in
    objective_active m = true /\
    squared_objective m = None /\
    objective_active (expectile_of m) = false /\
    objective m = quantile_objective (tau a) n /\
    squared_objective (expectile_of m) = Some (expectile_objective (tau a) n) /\
    (forall ln rho,
       eval ln rho (expectile_objective (tau a) n)
       = eval ln (squared_values rho) (objective m)) /\
    (forall ln rho,
       eval ln rho (expectile_objective (tau a) n)
       == (1 - tau a) * Qsum (fun i => rho (epsilon_plus i) ^ 2) (range n)
          + tau a * Qsum (fun i => rho (epsilon_minus i) ^ 2) (range n))%Q.
Proof.
  intros Hq. split.
  - destruct v; simpl in *; try discriminate.
    + apply CERZG1_is_expectile_of.
    + apply CERZG2_is_expectile_of.
  - intros m H n. destruct (quantile_flags _ _ _ Hq H) as [Ha Hs].
    pose proof (built_objective_form _ _ _ H) as Ho. fold n in Ho.
    split; [exact Ha|]. split; [exact Hs|]. split; [reflexivity|].
    split; [exact Ho|]. split; [|split].
    + unfold expectile_of, squared_objective.
      rewrite Ho, square_quantile_objective. reflexivity.
    + intros ln rho. rewrite Ho, <- square_quantile_objective.
      apply eval_square_residuals.
    + intros. apply eval_expectile_objective.
Qed.

(** C6.  In a model built with the multiplicative error term, the returns
    to scale is VRS or CRS, the log-linearization component holds exactly
    one constraint per observation,
    [frontier[i] == alpha[i] + Σ_j beta[i,j]·x[i][j] - 1] under VRS and
    [frontier[i] == Σ_j beta[i,j]·x[i][j] - 1] under CRS, and every
    regression constraint is
    [log(y[i]) == log(frontier[i]+1) - Σ_k lamda[k]·z[i][k]
                  - epsilon_minus[i] + epsilon_plus[i]];
    with the additive error term there is no log-linearization component.
    The sums range over the entries of the first rows of [x] and [z].
    The regression rule of CNLSG1 under the multiplicative error term is
    [log(y[i]) == log(frontier[i]+1) - epsilon[i]]. *)
Theorem multiplicative_log_linearization (v : variant) (a : attrs)
    (act : raw_active) (m : model_t) :
  construct trans_list to_2d_list v a act = Ok m ->
  let n := List.length (y a) in
  let model := model_sets m in
  J model = range (List.length (nth 0 (x a) [])) /\
  (exists zs, z a = Some zs /\ K model = range (List.length (nth 0 zs []))) /\
  (cet a = CET_MULT ->
     (rts a = RTS_VRS1 \/ rts a = RTS_CRS) /\
     (exists cs, log_constraints m = Some cs /\
        List.length cs = n /\ map fst cs = range n /\
        forall i c, In (i, c) cs ->
          (rts a = RTS_VRS1 ->
             c = CEq (EVar (frontier i))
                     (ESub (EAdd (EVar (alpha i)) (sum_beta_x a model i i))
                           (ENum 1))) /\
          (rts a = RTS_CRS ->
             c = CEq (EVar (frontier i))
                     (ESub (sum_beta_x a model i i) (ENum 1)))) /\
     List.length (regression_constraints m) = n /\
     (forall i c, In (i, c) (regression_constraints m) ->
        c = CEq (ELog (ENum (y_val a i)))
                (EAdd (ESub (ESub (ELog (EAdd (EVar (frontier i)) (ENum 1)))
                                  (sum_lamda_z a model i))
                            (EVar (epsilon_minus i)))
                      (EVar (epsilon_plus i))))) /\
  (cet a = CET_ADDI -> log_constraints m = None) /\
  (cet a = CET_MULT ->
   forall r sets i res,
     CNLSG1.regression_rule a = Ok r -> r sets i = Ok res ->
     res = Emit (CEq (ELog (ENum (y_val a i)))
                     (ESub (ELog (EAdd (EVar (frontier i)) (ENum 1)))
                           (EVar (epsilon i))))).
Proof.
  intros H n model. pose proof (built_I _ _ _ H) as HI. fold n model in HI.
  pose proof (construct_built _ _ _ _ _ H) as [P1 _].
  pose proof (log_closed P1) as HL. fold model in HL.
  split; [apply init_sets_J, P1|]. split; [apply init_sets_K, P1|].
  split; [|split].
  - intros Hc. rewrite Hc, HI in HL.
    assert (Hr : rts a = RTS_VRS1 \/ rts a = RTS_CRS).
    { destruct P1 as [_ _ _ L _ _]. rewrite Hc in L.
      destruct L as (r & cs & Hr & _). unfold CQERZG1.log_rule in Hr.
      rewrite Hc in Hr. destruct (rts a); auto. discriminate Hr. }
    split; [exact Hr|]. split; [|split].
    + eexists. split; [exact HL|]. split; [|split].
      * rewrite length_map. unfold range. apply length_seq.
      * rewrite map_map. simpl. apply map_id.
      * intros i c Hin. apply in_map_iff in Hin.
        destruct Hin as (k & Heq & _). injection Heq as -> <-.
        unfold spec_log, predictor, predictor_at.
        split; intros ->; reflexivity.
    + rewrite (regression_closed P1) by congruence.
      rewrite length_map. fold model. rewrite HI. unfold range.
      apply length_seq.
    + intros i c Hin. rewrite (regression_closed P1) in Hin by congruence.
      apply in_map_iff in Hin. destruct Hin as (k & Heq & _).
      injection Heq as -> <-. unfold spec_regression. rewrite Hc.
      reflexivity.
  - intros Hc. rewrite Hc in HL. exact HL.
  - intros Hc r sets i res Hr Hres.
    eapply CNLSG1_regression_rule_mult; eauto.
Qed.

(** The part of the parameter check the code does.  When the error
    composition or the returns to scale is none of its constants,
    selecting the Afriat rule or either
    sweet-spot rule raises [ValueError("Undefined model parameters.")], so
    does selecting the regression rule unless the error term is
    multiplicative, and then selecting the log rule does; none of the four
    classes assembles a model, and when the index sets could be initialized
    and the error term is not multiplicative the phase-1 classes raise
    exactly that error. *)
Theorem undefined_parameters_rejected (a : attrs) :
  cet a = CET_undefined \/ rts a = RTS_undefined ->
  CQERZG1.afriat_rule a = undefined_parameters /\
  CQERZG1.sweet_rule a = undefined_parameters /\
  (forall stored,
     CQERZG2.sweet_rule2 {| CQERZG2.base := a; CQERZG2.active := stored |}
     = undefined_parameters) /\
  (cet a <> CET_MULT -> CQERZG1.regression_rule a = undefined_parameters) /\
  (cet a = CET_MULT -> CQERZG1.log_rule a = undefined_parameters) /\
  (forall v act m, construct trans_list to_2d_list v a act <> Ok m) /\
  (forall sets, init_sets a = Ok sets -> cet a <> CET_MULT ->
     CQERZG1.CQRZG1 a = undefined_parameters /\
     CQERZG1.CERZG1 a = undefined_parameters).
Proof.
  intros Hu.
  assert (HA : CQERZG1.afriat_rule a = undefined_parameters).
  { unfold CQERZG1.afriat_rule.
    destruct Hu as [-> | ->]; [reflexivity | destruct (cet a); reflexivity]. }
  assert (HR : cet a <> CET_MULT ->
               CQERZG1.regression_rule a = undefined_parameters).
  { unfold CQERZG1.regression_rule. intros Hm.
    destruct Hu as [-> | ->]; [reflexivity |].
    destruct (cet a); congruence || reflexivity. }
  split; [exact HA|]. split; [|split; [|split; [exact HR|split; [|split]]]].
  - unfold CQERZG1.sweet_rule.
    destruct Hu as [-> | ->]; [reflexivity | destruct (cet a); reflexivity].
  - intros stored. unfold CQERZG2.sweet_rule2. simpl.
    destruct Hu as [-> | ->]; [reflexivity | destruct (cet a); reflexivity].
  - intros Hm. unfold CQERZG1.log_rule. rewrite Hm.
    destruct Hu as [Hc | ->]; [congruence | reflexivity].
  - intros v act m H. apply construct_built in H.
    destruct H as [[_ _ _ _ (r & Hr & _) _] _]. rewrite HA in Hr.
    discriminate Hr.
  - intros sets Hs Hm.
    assert (H1 : CQERZG1.CQRZG1 a = undefined_parameters).
    { unfold CQERZG1.CQRZG1. rewrite Hs. simpl. rewrite (HR Hm). reflexivity. }
    split; [exact H1|]. unfold CQERZG1.CERZG1. rewrite H1. reflexivity.
Qed.

(** C10, as the code has it.  With [z = None] none of the four classes
    builds a model: the contextual index set is initialized from
    [len(z[0])], a [TypeError] once [x[0]] could be read.  A model is only
    built when [z] has a first row, and the contextual index set then
    ranges over the length of that row, which may be zero. *)
Theorem contextual_matrix_required (v : variant) (a : attrs)
    (act : raw_active) :
  (z a = None ->
     (exists e, construct trans_list to_2d_list v a act = Err e) /\
     (x a <> [] -> init_sets a = Err TypeError) /\
     (x a <> [] -> phase2_variant v = false ->
      construct trans_list to_2d_list v a act = Err TypeError)) /\
  (forall m, construct trans_list to_2d_list v a act = Ok m ->
     exists row rows, z a = Some (row :: rows) /\
       K (model_sets m) = range (List.length row)).
Proof.
  assert (G : forall m, construct trans_list to_2d_list v a act = Ok m ->
     exists row rows, z a = Some (row :: rows) /\
       K (model_sets m) = range (List.length row)).
  { intros m H. apply construct_built in H.
    destruct H as [[S _ _ _ _ _] _]. unfold init_sets in S.
    bind_inv S. bind_inv S. injection S as S. rewrite <- S. simpl.
    destruct (z a) as [[|row rows]|]; try discriminate E0.
    injection E0 as <-. eauto. }
  split; [|exact G].
  intros Hz.
  assert (Hi : x a <> [] -> init_sets a = Err TypeError).
  { intros Hx. unfold init_sets. rewrite Hz.
    destruct (x a) as [|x0 xs]; [congruence|]. reflexivity. }
  split; [|split; [exact Hi|]].
  - destruct (construct trans_list to_2d_list v a act) as [m|e] eqn:E.
    + destruct (G m eq_refl) as (row & rows & Hrow & _). congruence.
    + eauto.
  - intros Hx Hp. specialize (Hi Hx).
    destruct v; simpl in *; try discriminate;
      unfold CQERZG1.CERZG1, CQERZG1.CQRZG1; rewrite Hi; reflexivity.
Qed.

End Claims.

(** ** Construction succeeds on well-shaped data *)

Lemma rows_cover_index2 {A} (mx : list (list A)) (n k i j : nat) (d : A) :
  rows_cover mx n k = true -> i < n -> j < k ->
  index2 mx i j = Ok (nth j (nth i mx []) d).
Proof.
  unfold rows_cover. rewrite andb_true_iff, Nat.leb_le, forallb_forall.
  intros [Hn Hrows] Hi Hj. unfold index2.
  rewrite (index_lt mx []) by lia. simpl. apply index_lt.
  assert (Hin : In (nth i mx []) (firstn n mx)).
  { apply nth_error_In with (n := i). rewrite nth_error_firstn.
    destruct (Nat.ltb_spec i n); [|lia].
    apply nth_error_nth'. lia. }
  apply Hrows in Hin. apply Nat.leb_le in Hin. lia.
Qed.

Lemma Constraint_total {Ix} (idx : list Ix) (rule : Ix -> result rule_result) :
  (forall i, In i idx -> exists r, rule i = Ok r /\ r <> Trivial) ->
  exists cs, Constraint_ idx rule = Ok cs.
Proof.
  induction idx as [|k idx IH]; simpl; intros H.
  - eauto.
  - destruct (H k) as (r & -> & Hb); [auto|]. simpl.
    destruct IH as (cs & Hcs); [auto|].
    destruct r; [eauto | rewrite Hcs; simpl; eauto | congruence].
Qed.

Lemma native_sum_beta_x (a : attrs) (model : index_sets) (c i : nat) :
  native (sum_beta_x a model c i)
  = match J model with [] => true | _ :: _ => false end.
Proof.
  unfold sum_beta_x. destruct (J model); reflexivity.
Qed.

Section Shaped.

Variable a : attrs.
Variables n nJ nK : nat.
Variable zs : list (list Q).
Let model := {| I := range n; J := range nJ; K := range nK |}.

Hypothesis Hn : n = List.length (y a).
Hypothesis Hz : z a = Some zs.
Hypothesis Hx_rows : rows_cover (x a) n nJ = true.
Hypothesis Hz_rows : rows_cover zs n nK = true.

Lemma sum_beta_x_total (c i : nat) :
  i < n -> sum_over (J model) (beta_x a c i) = Ok (sum_beta_x a model c i).
Proof.
  intros Hi. unfold sum_over, sum_beta_x.
  rewrite (mapM_total _
             (fun j => EMul (EVar (beta c j)) (ENum (x_val a i j)))).
  - reflexivity.
  - intros j Hj. simpl in Hj. unfold range in Hj. apply in_seq in Hj.
    unfold beta_x, x_val.
    rewrite (rows_cover_index2 _ 0%Q Hx_rows) by lia. reflexivity.
Qed.

Lemma sum_lamda_z_total (i : nat) :
  i < n -> sum_over (K model) (lamda_z a i) = Ok (sum_lamda_z a model i).
Proof.
  intros Hi. unfold sum_over, sum_lamda_z.
  rewrite (mapM_total _
             (fun k => EMul (EVar (lamda k)) (ENum (z_val a i k)))).
  - reflexivity.
  - intros k Hk. simpl in Hk. unfold range in Hk. apply in_seq in Hk.
    unfold lamda_z, z_at, z_val. rewrite Hz.
    rewrite (rows_cover_index2 _ 0%Q Hz_rows) by lia. reflexivity.
Qed.

Lemma next_in_range (i : nat) : i < n -> nextw model i < n.
Proof.
  intros Hi. unfold nextw. simpl. unfold range. rewrite length_seq.
  apply Nat.mod_upper_bound. lia.
Qed.

Ltac sums :=
  repeat (rewrite sum_beta_x_total by (try apply next_in_range; lia); simpl);
  repeat (rewrite sum_lamda_z_total by lia; simpl).

Ltac emitted := eexists; split; [reflexivity | discriminate].

Lemma regression_rule_total :
  cet a <> CET_undefined -> rts a <> RTS_undefined ->
  (cet a = CET_MULT -> forallb positive (y a) = true) ->
  exists r, CQERZG1.regression_rule a = Ok r /\
    forall i, In i (I model) ->
      exists res, r model i = Ok res /\ res <> Trivial.
Proof.
  intros Hc Hr Hp. unfold CQERZG1.regression_rule.
  destruct (cet a) eqn:Ec; try congruence;
    [destruct (rts a) eqn:Er; try congruence|];
    (eexists; split; [reflexivity|]);
    intros i Hi; simpl in Hi; unfold range in Hi; apply in_seq in Hi;
    cbv beta; rewrite (index_lt (y a) 0%Q) by lia; simpl; sums;
    try (emitted; fail).
  unfold log_num.
  assert (Hpos : positive (nth i (y a) 0%Q) = true).
  { specialize (Hp eq_refl). rewrite forallb_forall in Hp.
    apply Hp, nth_In. lia. }
  unfold positive in Hpos.
  destruct (Qlt_le_dec 0 (nth i (y a) 0%Q)); [|discriminate Hpos].
  simpl. sums. emitted.
Qed.

Lemma log_rule_total :
  cet a = CET_MULT -> rts a <> RTS_undefined ->
  exists r, CQERZG1.log_rule a = Ok r /\
    forall i, In i (I model) ->
      exists res, r model i = Ok res /\ res <> Trivial.
Proof.
  intros Hc Hr. unfold CQERZG1.log_rule. rewrite Hc.
  destruct (rts a) eqn:Er; try congruence;
    (eexists; split; [reflexivity|]);
    intros i Hi; simpl in Hi; unfold range in Hi; apply in_seq in Hi;
    cbv beta; sums; emitted.
Qed.

(** A comparison of the sums of a model with an input is an expression. *)
Ltac compared HJ :=
  simpl; sums; rewrite ?native_sum_beta_x; simpl;
  try (destruct HJ as [HJ0|HJ0]; [reflexivity | lia |]);
  try (destruct nJ; [lia|]; simpl);
  emitted.

(** Under CRS the comparisons need an input, or there is no
    observation. *)
Lemma afriat_rule_total :
  unreachable a = false ->
  (rts a = RTS_CRS -> n = 0 \/ 0 < nJ) ->
  exists r, CQERZG1.afriat_rule a = Ok r /\
    forall i, In i (I model) ->
      exists res, r model i = Ok res /\ res <> Trivial.
Proof.
  unfold unreachable, CQERZG1.afriat_rule. intros Hu HJ.
  destruct (cet a); destruct (rts a) eqn:Er; destruct (fun_ a);
    try discriminate Hu;
    (eexists; split; [reflexivity|]);
    intros i Hi; simpl in Hi; unfold range in Hi; apply in_seq in Hi;
    compared HJ.
Qed.

Lemma gated_total (mx : list (list gate)) (i h : nat)
    (body : result rule_result) :
  rows_cover mx n n = true -> i < n -> h < n ->
  (exists res, body = Ok res /\ res <> Trivial) ->
  exists res, gated mx i h body = Ok res /\ res <> Trivial.
Proof.
  intros Hm Hi Hh (res & -> & Hb). unfold gated.
  rewrite (rows_cover_index2 _ (GBool false) Hm) by lia. simpl.
  destruct (truthy _); [destruct (Nat.eqb i h)|]; eauto;
    eexists; (split; [reflexivity | discriminate]).
Qed.

Lemma sweet_rule_total :
  unreachable a = false -> rows_cover (cutactive a) n n = true ->
  (rts a = RTS_CRS -> n = 0 \/ 0 < nJ) ->
  exists r, CQERZG1.sweet_rule a = Ok r /\
    forall ih, In ih (list_prod (I model) (I model)) ->
      exists res, r model (fst ih) (snd ih) = Ok res /\ res <> Trivial.
Proof.
  unfold unreachable, CQERZG1.sweet_rule. intros Hu Hm HJ.
  destruct (cet a); destruct (rts a) eqn:Er; destruct (fun_ a);
    try discriminate Hu;
    (eexists; split; [reflexivity|]);
    intros [i h] Hi; apply in_prod_iff in Hi; simpl in Hi; unfold range in Hi;
    rewrite !in_seq in Hi; simpl;
    (apply gated_total; [exact Hm | lia | lia |]);
    compared HJ.
Qed.

Lemma sweet_rule2_total (stored : list (list gate)) :
  unreachable a = false -> rows_cover stored n n = true ->
  (rts a = RTS_CRS -> n = 0 \/ 0 < nJ) ->
  exists r,
    CQERZG2.sweet_rule2 {| CQERZG2.base := a; CQERZG2.active := stored |}
      = Ok r /\
    forall ih, In ih (list_prod (I model) (I model)) ->
      exists res, r model (fst ih) (snd ih) = Ok res /\ res <> Trivial.
Proof.
  unfold unreachable, CQERZG2.sweet_rule2. simpl. intros Hu Hm HJ.
  destruct (cet a); destruct (rts a) eqn:Er; destruct (fun_ a);
    try discriminate Hu;
    (eexists; split; [reflexivity|]);
    intros [i h] Hi; apply in_prod_iff in Hi; simpl in Hi; unfold range in Hi;
    rewrite !in_seq in Hi; simpl;
    (apply gated_total; [exact Hm | lia | lia |]);
    compared HJ.
Qed.

End Shaped.

Lemma well_shaped_sets (a : attrs) :
  well_shaped a = true ->
  exists nJ nK zs,
    z a = Some zs /\
    init_sets a = Ok {| I := range (List.length (y a));
                        J := range nJ; K := range nK |} /\
    rows_cover (x a) (List.length (y a)) nJ = true /\
    rows_cover zs (List.length (y a)) nK = true /\
    rows_cover (cutactive a) (List.length (y a)) (List.length (y a)) = true /\
    (cet a = CET_MULT -> forallb positive (y a) = true) /\
    nJ = List.length (nth 0 (x a) []).
Proof.
  unfold well_shaped, init_sets.
  destruct (x a) as [|x0 xs] eqn:Ex; [discriminate|].
  destruct (z a) as [[|z0 zr]|] eqn:Ez; try discriminate.
  rewrite !andb_true_iff. intros [[[Hx Hz] Hc] Hy].
  exists (List.length x0), (List.length z0), (z0 :: zr). simpl.
  repeat split; auto. intros Hm. rewrite Hm in Hy. exact Hy.
Qed.

(** With defined parameters and well-shaped data the phase-1 class builds
    a model; under CRS the data must have an input, or no observation:
    the comparison of two empty sums is no constraint. *)
Lemma CQRZG1_succeeds (a : attrs) :
  unreachable a = false -> well_shaped a = true ->
  (rts a = RTS_CRS ->
   List.length (y a) = 0 \/ 0 < List.length (nth 0 (x a) [])) ->
  exists m, CQERZG1.CQRZG1 a = Ok m.
Proof.
  intros Hu Hw HJ.
  destruct (well_shaped_sets a Hw)
    as (nJ & nK & zs & Hz & Hs & Hx & Hzr & Hc & Hy & HnJ).
  rewrite <- HnJ in HJ.
  assert (Hcet : cet a <> CET_undefined)
    by (intros E; unfold unreachable in Hu; rewrite E in Hu; discriminate).
  assert (Hrts : rts a <> RTS_undefined)
    by (intros E; unfold unreachable in Hu; rewrite E in Hu;
        destruct (cet a); discriminate).
  unfold CQERZG1.CQRZG1. rewrite Hs. simpl.
  destruct (regression_rule_total a nJ nK eq_refl Hz Hx Hzr Hcet Hrts Hy)
    as (rr & -> & Hrr). simpl.
  destruct (Constraint_total _ _ Hrr) as (cr & Hcr).
  simpl in Hcr. rewrite Hcr. simpl.
  assert (HL : exists l,
    (if match cet a with CET_MULT => true | _ => false end
     then r <- CQERZG1.log_rule a ;;
          cs <- Constraint_ (range (List.length (y a)))
                  (r {| I := range (List.length (y a));
                        J := range nJ; K := range nK |}) ;;
          Ok (Some cs)
     else Ok None) = Ok l).
  { destruct (cet a) eqn:Ec; eauto.
    destruct (log_rule_total a nJ nK eq_refl Hx Ec Hrts) as (rl & -> & Hrl).
    simpl. destruct (Constraint_total _ _ Hrl) as (cl & Hcl).
    simpl in Hcl. rewrite Hcl. simpl. eauto. }
  destruct HL as (l & ->). simpl.
  destruct (@afriat_rule_total a _ nJ nK eq_refl Hx Hu HJ)
    as (ra & -> & Hra).
  simpl. destruct (Constraint_total _ _ Hra) as (ca & Hca).
  simpl in Hca. rewrite Hca. simpl.
  destruct (@sweet_rule_total a _ nJ nK eq_refl Hx Hu Hc HJ)
    as (rs & -> & Hrs).
  simpl. destruct (Constraint_total _ _ Hrs) as (cs & Hcs).
  simpl in Hcs. rewrite Hcs. simpl. eauto.
Qed.

Section Succeeds.

Variables raw_active listed : Type.
Variable trans_list : raw_active -> result listed.
Variable to_2d_list : listed -> result (list (list gate)).

(** X17.  So does every class, the phase-2 ones when the stored [active]
    matrix has a row of [I] entries for every observation: defined
    parameters, well-shaped data and, under CRS, an input or no
    observation are sufficient for a model to be built. *)
Lemma construct_succeeds (v : variant) (a : attrs) (act : raw_active) :
  unreachable a = false -> well_shaped a = true ->
  (rts a = RTS_CRS ->
   List.length (y a) = 0 \/ 0 < List.length (nth 0 (x a) [])) ->
  (phase2_variant v = true ->
   exists stored,
     stored_active trans_list to_2d_list act = Ok stored /\
     rows_cover stored (List.length (y a)) (List.length (y a)) = true) ->
  exists m, construct trans_list to_2d_list v a act = Ok m.
Proof.
  intros Hu Hw HJ Hst.
  destruct (CQRZG1_succeeds a Hu Hw HJ) as (m1 & H1).
  assert (H2 : phase2_variant v = true ->
               exists m, CQERZG2.CQRZG2 trans_list to_2d_list a act = Ok m).
  { intros Hp. destruct (Hst Hp) as (stored & Hs & Hrows).
    rewrite CQRZG2_decompose, Hs, H1. simpl.
    destruct (well_shaped_sets a Hw)
      as (nJ & nK & zs & Hz & Hsets & Hx & _ & _ & _ & HnJ).
    rewrite <- HnJ in HJ.
    apply CQRZG1_built in H1. destruct H1 as [[S _ _ _ _ _] _].
    rewrite Hsets in S. injection S as <-.
    destruct (@sweet_rule2_total a _ nJ nK eq_refl Hx stored Hu Hrows HJ)
      as (r2 & -> & Hr2).
    simpl. destruct (Constraint_total _ _ Hr2) as (c2 & Hc2).
    simpl in Hc2. rewrite Hc2. simpl. eauto. }
  destruct v; simpl.
  - eauto.
  - rewrite CERZG1_is_expectile_of, H1. simpl. eauto.
  - apply H2. reflexivity.
  - rewrite CERZG2_is_expectile_of. destruct H2 as (m & ->); [reflexivity|].
    simpl. eauto.
Qed.

End Succeeds.

(** ** The claims on the example data *)

(** C1: the code at the additive CRS combination.  With the same matrix
    as [cutactive] and as [active], the phase-1 component compares
    [Σ_j beta[0,j]·x[0][j]] with [Σ_j beta[1,j]·x[0][j]], and the phase-2
    component compares the same sums with [alpha[0]] and [alpha[1]] added:
    the two constraints of the pair (0,1) differ in form. *)
Theorem phase2_additive_crs_keeps_intercept :
  exists m,
    CQERZG2.CQRZG2 as_given as_given (example CET_ADDI FUN_PROD RTS_CRS)
      (cutactive (example CET_ADDI FUN_PROD RTS_CRS)) = Ok m /\
    sweet_constraints m
    = [((0, 1), CLe (ESum [EMul (EVar (beta 0 0)) (ENum 1)])
                    (ESum [EMul (EVar (beta 1 0)) (ENum 1)]))] /\
    sweet2_constraints m
    = Some [((0, 1),
             CLe (EAdd (EVar (alpha 0)) (ESum [EMul (EVar (beta 0 0)) (ENum 1)]))
                 (EAdd (EVar (alpha 1)) (ESum [EMul (EVar (beta 1 0)) (ENum 1)])))] /\
    sweet2_constraints m <> Some (sweet_constraints m).
Proof.
  eexists. split; [vm_compute; reflexivity|]. simpl.
  split; [reflexivity|]. split; [reflexivity|]. discriminate.
Qed.

(** C2: the code at the additive CRS combination.  The regression
    constraint of unit 0 is
    [y[0] == Σ_j beta[0,j]·x[0][j] + Σ_k lamda[k]·z[0][k]
             - epsilon_minus[0] + epsilon_plus[0]]:
    the contextual term is added.  With [lamda[0] = 1] and every other
    variable 0 its right-hand side is [1], that of the equation of the
    specification is [-1]. *)
Theorem additive_crs_adds_contextual_term :
  exists m,
    CQERZG1.CQRZG1 (example CET_ADDI FUN_PROD RTS_CRS) = Ok m /\
    regression_constraints m
    = [(0, CEq (ENum 2)
               (EAdd (ESub (EAdd (ESum [EMul (EVar (beta 0 0)) (ENum 1)])
                                 (ESum [EMul (EVar (lamda 0)) (ENum 1)]))
                           (EVar (epsilon_minus 0)))
                     (EVar (epsilon_plus 0))));
       (1, CEq (ENum 3)
               (EAdd (ESub (EAdd (ESum [EMul (EVar (beta 1 0)) (ENum 2)])
                                 (ESum [EMul (EVar (lamda 0)) (ENum 4)]))
                           (EVar (epsilon_minus 1)))
                     (EVar (epsilon_plus 1))))] /\
    regression_constraints m
    <> map (fun i => (i, spec_regression (example CET_ADDI FUN_PROD RTS_CRS)
                           (model_sets m) i))
           (I (model_sets m)) /\
    (forall ln c, In (0, c) (regression_constraints m) ->
       (eval ln unit_lamda (rhs c) == 1)%Q) /\
    (forall ln,
       (eval ln unit_lamda
          (rhs (spec_regression (example CET_ADDI FUN_PROD RTS_CRS)
                                (model_sets m) 0)) == -(1))%Q).
Proof.
  eexists. split; [vm_compute; reflexivity|]. simpl.
  split; [reflexivity|]. split; [discriminate|]. split.
  - intros ln c [H|[H|[]]]; [|discriminate H].
    injection H as <-. reflexivity.
  - intros ln. reflexivity.
Qed.

(** Where the phase-2 rule compares the predictor of the model's own
    returns to scale, it emits what the phase-1 rule emits for the same
    mask. *)
Lemma phase2_same_form_elsewhere (a : attrs) (act : list (list gate))
    (m : model_t) :
  phase1_built a m -> phase2_built a act m ->
  (cet a = CET_ADDI -> rts a = RTS_CRS -> False) ->
  act = cutactive a ->
  sweet2_constraints m = Some (sweet_constraints m).
Proof.
  intros P1 P2 Hn ->. rewrite (sweet2_closed P2), (sweet_closed P1).
  unfold concavity, predictor, phase2_rts.
  destruct (cet a); destruct (rts a); try reflexivity. exfalso. auto.
Qed.

(** The regression rule of CNLSG1 on the example data, multiplicative. *)
Lemma CNLSG1_regression_example :
  fmap (fun r => r {| I := range 2; J := range 1; K := [] |} 1)
       (CNLSG1.regression_rule (example CET_MULT FUN_PROD RTS_CRS))
  = Ok (Ok (Emit (CEq (ELog (ENum 3))
                      (ESub (ELog (EAdd (EVar (frontier 1)) (ENum 1)))
                            (EVar (epsilon 1)))))).
Proof.
  reflexivity.
Qed.

Lemma sweet_spot_gating_witness :
  exists m,
    construct as_given as_given CQRZG2 (example CET_ADDI FUN_PROD RTS_VRS1)
      example_active = Ok m /\
    ((exists c, In ((1, 0), c) (sweet_constraints m))
     <-> truthy (gate_val
                   (cutactive (example CET_ADDI FUN_PROD RTS_VRS1)) 1 0)
         = true /\ 1 <> 0).
Proof.
  eexists. split; [vm_compute; reflexivity|].
  refine (proj1 (@sweet_spot_gating _ _ as_given as_given CQRZG2
                   (example CET_ADDI FUN_PROD RTS_VRS1) example_active _ _)
                1 0 _ _).
  - vm_compute. reflexivity.
  - simpl. lia.
  - simpl. lia.
Defined.

Lemma elementary_afriat_witness :
  exists m,
    construct as_given as_given CERZG1 (example CET_MULT FUN_COST RTS_CRS)
      example_active = Ok m /\
    map fst (afriat_constraints m) = range 2.
Proof.
  eexists. split; [vm_compute; reflexivity|].
  refine (proj1 (proj2 (@elementary_afriat _ _ as_given as_given CERZG1
                   (example CET_MULT FUN_COST RTS_CRS) example_active _ _))).
  vm_compute. reflexivity.
Defined.

Lemma frontier_switch_witness :
  fun_ (example CET_ADDI FUN_PROD RTS_VRS1) = FUN_PROD /\
  construct as_given as_given CQRZG2
    (with_fun (example CET_ADDI FUN_PROD RTS_VRS1) FUN_COST) example_active
  = fmap to_cost
      (construct as_given as_given CQRZG2
         (example CET_ADDI FUN_PROD RTS_VRS1) example_active).
Proof.
  split; [reflexivity|].
  refine (proj1 (@frontier_switch _ _ as_given as_given CQRZG2
                   (example CET_ADDI FUN_PROD RTS_VRS1) example_active _)).
  reflexivity.
Defined.

Lemma multiplicative_log_linearization_witness :
  exists m,
    construct as_given as_given CQRZG1 (example CET_MULT FUN_PROD RTS_VRS1)
      example_active = Ok m /\
    exists cs, log_constraints m = Some cs /\ List.length cs = 2.
Proof.
  eexists. split; [vm_compute; reflexivity|].
  destruct (proj1 (proj2 (proj2
              (@multiplicative_log_linearization _ _ as_given as_given
                 CQRZG1 (example CET_MULT FUN_PROD RTS_VRS1)
                 example_active _ ltac:(vm_compute; reflexivity))))
                  eq_refl)
    as (_ & (cs & Hcs & Hlen & _) & _).
  exists cs. split; [exact Hcs | exact Hlen].
Defined.

Lemma expectile_is_squared_quantile_witness :
  quantile_variant CQRZG1 = true /\
  construct as_given as_given CERZG1 (example CET_ADDI FUN_PROD RTS_VRS1)
    example_active
  = fmap expectile_of
      (construct as_given as_given CQRZG1
         (example CET_ADDI FUN_PROD RTS_VRS1) example_active).
Proof.
  split; [reflexivity|].
  refine (proj1 (@expectile_is_squared_quantile _ _ as_given as_given CQRZG1
                   (example CET_ADDI FUN_PROD RTS_VRS1) example_active _)).
  reflexivity.
Defined.

Lemma quantile_objective_linear_witness :
  quantile_variant CQRZG2 = true /\
  exists m,
    construct as_given as_given CQRZG2 (example CET_ADDI FUN_PROD RTS_VRS1)
      example_active = Ok m /\
    objective m = quantile_objective (1 # 2) 2.
Proof.
  split; [reflexivity|].
  eexists. split; [vm_compute; reflexivity|].
  refine (proj1 (proj2 (proj2
    (@quantile_objective_linear _ _ as_given as_given CQRZG2
       (example CET_ADDI FUN_PROD RTS_VRS1) example_active _ _ _)))).
  - reflexivity.
  - vm_compute. reflexivity.
Defined.

Lemma undefined_parameters_rejected_witness :
  (cet (example CET_ADDI FUN_PROD RTS_undefined) = CET_undefined \/
   rts (example CET_ADDI FUN_PROD RTS_undefined) = RTS_undefined) /\
  CQERZG1.CQRZG1 (example CET_ADDI FUN_PROD RTS_undefined)
  = undefined_parameters.
Proof.
  split; [right; reflexivity|].
  refine (proj1 (proj2 (proj2 (proj2 (proj2 (proj2 (proj2
    (@undefined_parameters_rejected (list (list gate)) (list (list gate))
       as_given as_given (example CET_ADDI FUN_PROD RTS_undefined) _))))))
    _ _ _)).
  - right. reflexivity.
  - vm_compute. reflexivity.
  - discriminate.
Defined.

(** C9: the code at an undefined frontier type.  Every rule method ends
    in [raise ValueError("Undefined model parameters.")], but binds its
    operator by [if fun == FUN_PROD ... elif fun == FUN_COST ...] without
    an [else]: with defined error composition and returns to scale, every
    rule selection succeeds, and the construction of each of the four
    classes stops with a [NameError], not with that [ValueError], when
    the first Afriat constraint calls the unbound operator. *)
Theorem undefined_frontier_type_passes_selection :
  unreachable (example CET_ADDI FUN_undefined RTS_VRS1) = true /\
  raised (CQERZG1.regression_rule (example CET_ADDI FUN_undefined RTS_VRS1))
    = None /\
  raised (CQERZG1.afriat_rule (example CET_ADDI FUN_undefined RTS_VRS1))
    = None /\
  raised (CQERZG1.sweet_rule (example CET_ADDI FUN_undefined RTS_VRS1))
    = None /\
  raised (CQERZG2.sweet_rule2
            {| CQERZG2.base := example CET_ADDI FUN_undefined RTS_VRS1;
               CQERZG2.active := example_active |}) = None /\
  CQERZG1.CQRZG1 (example CET_ADDI FUN_undefined RTS_VRS1) = Err NameError /\
  CQERZG1.CQRZG1 (example CET_ADDI FUN_undefined RTS_VRS1)
    <> undefined_parameters /\
  (forall v,
     construct as_given as_given v
       (example CET_ADDI FUN_undefined RTS_VRS1) example_active
     = Err NameError).
Proof.
  repeat split; try reflexivity.
  - vm_compute. discriminate.
  - intros v. destruct v; reflexivity.
Qed.

Lemma contextual_matrix_required_witness :
  z (with_z (example CET_ADDI FUN_PROD RTS_VRS1) None) = None /\
  x (with_z (example CET_ADDI FUN_PROD RTS_VRS1) None) <> [] /\
  construct as_given as_given CERZG1
    (with_z (example CET_ADDI FUN_PROD RTS_VRS1) None) example_active
  = Err TypeError.
Proof.
  split; [reflexivity|]. split; [discriminate|].
  refine (proj2 (proj2 (proj1
    (@contextual_matrix_required _ _ as_given as_given CERZG1
       (with_z (example CET_ADDI FUN_PROD RTS_VRS1) None) example_active)
    _)) _ _).
  - reflexivity.
  - discriminate.
  - reflexivity.
Defined.

(** C10 as stated fails for a contextual matrix with rows and no column:
    every class builds its model, with an empty contextual index set. *)
Lemma zero_column_contextual_matrix_accepted :
  z (with_z (example CET_ADDI FUN_PROD RTS_VRS1) (Some [[]; []]))
    = Some [[]; []] /\
  fmap (fun m => K (model_sets m))
    (construct as_given as_given CQRZG1
       (with_z (example CET_ADDI FUN_PROD RTS_VRS1) (Some [[]; []]))
       example_active) = Ok [] /\
  fmap (fun m => K (model_sets m))
    (construct as_given as_given CERZG1
       (with_z (example CET_ADDI FUN_PROD RTS_VRS1) (Some [[]; []]))
       example_active) = Ok [] /\
  fmap (fun m => K (model_sets m))
    (construct as_given as_given CQRZG2
       (with_z (example CET_ADDI FUN_PROD RTS_VRS1) (Some [[]; []]))
       example_active) = Ok [] /\
  fmap (fun m => K (model_sets m))
    (construct as_given as_given CERZG2
       (with_z (example CET_ADDI FUN_PROD RTS_VRS1) (Some [[]; []]))
       example_active) = Ok [].
Proof.
  repeat split.
Qed.

(** ** Further properties of the built models *)

Lemma regression_rule_emits (a : attrs) (r : rule1) (model : index_sets)
    (i : nat) (res : rule_result) :
  CQERZG1.regression_rule a = Ok r -> r model i = Ok res -> res <> Skip.
Proof.
  unfold CQERZG1.regression_rule. intros Hr H.
  destruct (cet a); destruct (rts a); rule_steps; discriminate.
Qed.

Lemma Constraint_keys {Ix} (idx : list Ix) (rule : Ix -> result rule_result)
    (cs : list (Ix * cexpr)) :
  (forall i res, In i idx -> rule i = Ok res -> res <> Skip) ->
  Constraint_ idx rule = Ok cs -> map fst cs = idx.
Proof.
  revert cs. induction idx as [|k idx IH]; simpl; intros cs Hn H.
  - injection H as <-. reflexivity.
  - bind_inv H. destruct v as [|c|]; [| |discriminate H].
    + exfalso. apply (Hn k Skip); auto.
    + bind_inv H. injection H as <-. simpl. f_equal. apply IH; [|exact E0].
      intros i res Hi. apply Hn. auto.
Qed.

Lemma count_eq_seq (i len start : nat) :
  List.length (filter (Nat.eqb i) (seq start len))
  = if (start <=? i)%nat && (i <? start + len)%nat then 1 else 0.
Proof.
  revert start. induction len as [|len IH]; intros start; simpl.
  - destruct (Nat.leb_spec start i); destruct (Nat.ltb_spec i (start + 0));
      simpl; auto; lia.
  - destruct (Nat.eqb_spec i start) as [->|Hne]; simpl; rewrite IH;
      repeat match goal with
      | |- context [Nat.leb ?p ?q] => destruct (Nat.leb_spec p q)
      | |- context [Nat.ltb ?p ?q] => destruct (Nat.ltb_spec p q)
      end; simpl; lia.
Qed.

Lemma count_off_diagonal_row (n i : nat) :
  i < n ->
  List.length (filter (fun h => negb (Nat.eqb i h)) (range n)) = n - 1.
Proof.
  intros Hi. pose proof (filter_length (Nat.eqb i) (range n)) as H.
  unfold range in *. rewrite count_eq_seq, length_seq in H.
  destruct (Nat.leb_spec 0 i); [|lia].
  destruct (Nat.ltb_spec i (0 + n)); [|lia]. simpl in H. lia.
Qed.

Lemma count_off_diagonal (n : nat) (l : list nat) :
  (forall i, In i l -> i < n) ->
  List.length (filter off_diagonal (list_prod l (range n)))
  = List.length l * (n - 1).
Proof.
  induction l as [|i l IH]; simpl; intros Hl.
  - reflexivity.
  - rewrite filter_app, length_app, IH by auto.
    rewrite filter_map_swap, length_map. unfold off_diagonal. simpl.
    rewrite count_off_diagonal_row by auto. reflexivity.
Qed.

Lemma filter_length_mono {A} (p q : A -> bool) (l : list A) :
  (forall a, In a l -> p a = true -> q a = true) ->
  List.length (filter p l) <= List.length (filter q l).
Proof.
  induction l as [|a l IH]; simpl; intros H.
  - lia.
  - assert (IH' := IH (fun b Hb => H b (or_intror Hb))).
    destruct (p a) eqn:Ep.
    + rewrite (H a) by auto. simpl. lia.
    + destruct (q a); simpl; lia.
Qed.

Lemma passes_off_diagonal (mx : list (list gate)) (ih : nat * nat) :
  passes mx ih = true -> off_diagonal ih = true.
Proof.
  unfold passes, off_diagonal. rewrite andb_true_iff. tauto.
Qed.

Lemma NoDup_list_prod {A B} (l : list A) (l' : list B) :
  NoDup l -> NoDup l' -> NoDup (list_prod l l').
Proof.
  intros Hl Hl'. induction Hl as [|a l Ha Hl IH]; simpl.
  - constructor.
  - apply NoDup_app; [| exact IH |].
    + clear IH Ha. induction Hl' as [|b l' Hb _ IH']; simpl; constructor; auto.
      intros Hin. apply in_map_iff in Hin. destruct Hin as (b' & Heq & Hb').
      injection Heq as ->. contradiction.
    + intros [a' b'] Hin Hin'. apply in_map_iff in Hin.
      destruct Hin as (b'' & Heq & _). injection Heq as -> ->.
      apply in_prod_iff in Hin'. tauto.
Qed.

Section Further.

Variables raw_active listed : Type.
Variable trans_list : raw_active -> result listed.
Variable to_2d_list : listed -> result (list (list gate)).

(** X1.  In a built model the regression and the Afriat components hold
    one constraint per observation, in index order, whatever the
    parameters; the log component does when the error term is
    multiplicative; the keys of a sweet-spot component are the pairs that
    pass its mask, without repetition, in row-major order, and there are at
    most [I*(I-1)] of them. *)
Theorem component_keys (v : variant) (a : attrs) (act : raw_active)
    (m : model_t) :
  construct trans_list to_2d_list v a act = Ok m ->
  let n := List.length (y a) in
  let pairs := list_prod (range n) (range n) in
  map fst (regression_constraints m) = range n /\
  map fst (afriat_constraints m) = range n /\
  (forall cs, log_constraints m = Some cs -> map fst cs = range n) /\
  map fst (sweet_constraints m) = filter (passes (cutactive a)) pairs /\
  NoDup (map fst (sweet_constraints m)) /\
  List.length (sweet_constraints m) <= n * (n - 1) /\
  (forall cs, sweet2_constraints m = Some cs ->
     exists stored, stored_active trans_list to_2d_list act = Ok stored /\
       map fst cs = filter (passes stored) pairs /\
       NoDup (map fst cs) /\
       List.length cs <= n * (n - 1)).
Proof.
  intros H n pairs. pose proof (built_I _ _ _ _ _ H) as HI. fold n in HI.
  pose proof (construct_built _ _ _ _ _ H) as [P1 P2].
  assert (Hpairs : forall mx,
    NoDup (filter (passes mx) pairs) /\
    List.length (filter (passes mx) pairs) <= n * (n - 1)).
  { intros mx. split.
    - apply NoDup_filter. unfold pairs, range.
      apply NoDup_list_prod; apply seq_NoDup.
    - apply Nat.le_trans with (List.length (filter off_diagonal pairs)).
      + apply filter_length_mono. intros ih _. apply passes_off_diagonal.
      + unfold pairs. rewrite count_off_diagonal.
        * unfold range. rewrite length_seq. lia.
        * intros i Hi. unfold range in Hi. apply in_seq in Hi. lia. }
  assert (Hkeys : forall (g : nat * nat -> cexpr) l,
    map fst (map (fun ih => (ih, g ih)) l) = l).
  { intros g l. rewrite map_map. simpl. apply map_id. }
  split; [|split; [|split; [|split; [|split; [|split]]]]].
  - destruct P1 as [_ _ (r & Hr & Hc) _ _ _]. rewrite HI in Hc.
    eapply Constraint_keys; [|exact Hc].
    intros i res _. apply (regression_rule_emits _ _ _ Hr).
  - rewrite (afriat_closed P1), HI, map_map. simpl. apply map_id.
  - intros cs Hcs. rewrite (log_closed P1) in Hcs.
    destruct (cet a); try discriminate Hcs. injection Hcs as <-.
    rewrite HI, map_map. simpl. apply map_id.
  - rewrite (sweet_closed P1), HI. apply Hkeys.
  - rewrite (sweet_closed P1), HI, Hkeys. apply Hpairs.
  - rewrite (sweet_closed P1), HI, length_map. apply Hpairs.
  - intros cs Hcs. destruct (phase2_variant v); [|congruence].
    destruct P2 as (stored & Hst & P2). exists stored. split; [exact Hst|].
    rewrite (sweet2_closed P2), HI in Hcs. injection Hcs as <-.
    rewrite Hkeys, length_map. split; [reflexivity|]. apply Hpairs.
Qed.


Lemma filter_passes_none (mx : list (list gate)) (n : nat) :
  (forall i h, i < n -> h < n -> truthy (gate_val mx i h) = false) ->
  filter (passes mx) (list_prod (range n) (range n)) = [].
Proof.
  intros H. rewrite <- (filter_false (list_prod (range n) (range n))).
  apply filter_ext_in. intros [i h] Hin. apply in_prod_iff in Hin.
  unfold range in Hin. rewrite !in_seq in Hin. unfold passes. simpl.
  rewrite H by lia. reflexivity.
Qed.

Lemma filter_passes_all (mx : list (list gate)) (n : nat) :
  (forall i h, i < n -> h < n -> i <> h -> truthy (gate_val mx i h) = true) ->
  filter (passes mx) (list_prod (range n) (range n))
  = filter off_diagonal (list_prod (range n) (range n)).
Proof.
  intros H. apply filter_ext_in. intros [i h] Hin. apply in_prod_iff in Hin.
  unfold range in Hin. rewrite !in_seq in Hin. unfold passes, off_diagonal.
  simpl. destruct (Nat.eqb_spec i h) as [->|Hne]; simpl.
  - apply andb_false_r.
  - rewrite H by lia. reflexivity.
Qed.

Lemma length_off_diagonal (n : nat) :
  List.length (filter off_diagonal (list_prod (range n) (range n)))
  = n * (n - 1).
Proof.
  rewrite count_off_diagonal.
  - unfold range. rewrite length_seq. reflexivity.
  - intros i Hi. unfold range in Hi. apply in_seq in Hi. lia.
Qed.

(** X2.  A mask whose entries are all falsy gives an empty sweet-spot
    component; a mask whose off-diagonal entries are all truthy gives a
    constraint for each of the [I*(I-1)] off-diagonal pairs, whatever its
    diagonal holds.  The same for the stored [active] mask of phase 2. *)
Theorem mask_extremes (v : variant) (a : attrs) (act : raw_active)
    (m : model_t) :
  construct trans_list to_2d_list v a act = Ok m ->
  let n := List.length (y a) in
  let pairs := list_prod (range n) (range n) in
  ((forall i h, i < n -> h < n ->
      truthy (gate_val (cutactive a) i h) = false) ->
   sweet_constraints m = []) /\
  ((forall i h, i < n -> h < n -> i <> h ->
      truthy (gate_val (cutactive a) i h) = true) ->
   map fst (sweet_constraints m) = filter off_diagonal pairs /\
   List.length (sweet_constraints m) = n * (n - 1)) /\
  (forall cs stored,
     sweet2_constraints m = Some cs ->
     stored_active trans_list to_2d_list act = Ok stored ->
     ((forall i h, i < n -> h < n ->
         truthy (gate_val stored i h) = false) -> cs = []) /\
     ((forall i h, i < n -> h < n -> i <> h ->
         truthy (gate_val stored i h) = true) ->
      map fst cs = filter off_diagonal pairs /\
      List.length cs = n * (n - 1))).
Proof.
  intros H n pairs. pose proof (built_I _ _ _ _ _ H) as HI. fold n in HI.
  pose proof (construct_built _ _ _ _ _ H) as [P1 P2].
  pose proof (sweet_closed P1) as HS. rewrite HI in HS.
  split; [|split].
  - intros Hf. rewrite HS, filter_passes_none by exact Hf. reflexivity.
  - intros Ht. rewrite HS, filter_passes_all by exact Ht.
    rewrite map_map, length_map. simpl. rewrite map_id.
    split; [reflexivity | apply length_off_diagonal].
  - intros cs stored Hcs Hst. destruct (phase2_variant v); [|congruence].
    destruct P2 as (stored' & Hst' & P2).
    assert (stored' = stored) by congruence. subst stored'.
    rewrite (sweet2_closed P2), HI in Hcs. injection Hcs as <-. split.
    + intros Hf. rewrite filter_passes_none by exact Hf. reflexivity.
    + intros Ht. rewrite filter_passes_all by exact Ht.
      rewrite map_map, length_map. simpl. rewrite map_id.
      split; [reflexivity | apply length_off_diagonal].
Qed.

Lemma next_neighbor_lt (n i : nat) : i < n -> next_neighbor n i < n.
Proof.
  unfold next_neighbor. intros Hi.
  destruct (Nat.eqb_spec i (n - 1)); lia.
Qed.

Lemma next_neighbor_neq (n i : nat) : i < n -> 2 <= n -> next_neighbor n i <> i.
Proof.
  unfold next_neighbor. intros Hi Hn.
  destruct (Nat.eqb_spec i (n - 1)); lia.
Qed.

Lemma afriat_members (a : attrs) (m : model_t) (n : nat) :
  phase1_built a m -> I (model_sets m) = range n ->
  forall i c, In (i, c) (afriat_constraints m) <->
    i < n /\ c = concavity a (model_sets m) i (next_neighbor n i).
Proof.
  intros P1 HI i c. rewrite (afriat_closed P1), HI, in_map_iff. split.
  - intros (k & Heq & Hk). injection Heq as -> <-.
    unfold range in Hk. apply in_seq in Hk.
    rewrite (nextw_next_neighbor _ HI) by lia. split; [lia | reflexivity].
  - intros [Hi ->]. exists i. rewrite (nextw_next_neighbor _ HI) by lia.
    split; [reflexivity|]. unfold range. apply in_seq. lia.
Qed.

Lemma sweet_members (a : attrs) (m : model_t) (n : nat) :
  phase1_built a m -> I (model_sets m) = range n ->
  forall i h c, In ((i, h), c) (sweet_constraints m) <->
    i < n /\ h < n /\ passes (cutactive a) (i, h) = true /\
    c = concavity a (model_sets m) i h.
Proof.
  intros P1 HI i h c. rewrite (sweet_closed P1), HI, in_map_iff. split.
  - intros (k & Heq & Hk). injection Heq as -> <-. simpl.
    apply filter_In in Hk. destruct Hk as [Hk Hp].
    apply in_prod_iff in Hk. unfold range in Hk. rewrite !in_seq in Hk.
    simpl in Hk. repeat split; try lia. exact Hp.
  - intros (Hi & Hh & Hp & ->). exists (i, h). split; [reflexivity|].
    apply filter_In. split; [|exact Hp].
    apply in_prod_iff. unfold range. rewrite !in_seq. lia.
Qed.

(** X3.  With two or more observations, when the mask entry of a unit
    and its next neighbour is truthy, the sweet-spot component repeats the
    elementary Afriat constraint of that unit, as the same expression,
    under the key of the pair. *)
Theorem neighbour_pair_repeats_afriat (v : variant) (a : attrs)
    (act : raw_active) (m : model_t) :
  construct trans_list to_2d_list v a act = Ok m ->
  let n := List.length (y a) in
  2 <= n ->
  forall i c, In (i, c) (afriat_constraints m) ->
    truthy (gate_val (cutactive a) i (next_neighbor n i)) = true ->
    In ((i, next_neighbor n i), c) (sweet_constraints m).
Proof.
  intros H n Hn i c Hin Ht. pose proof (built_I _ _ _ _ _ H) as HI.
  fold n in HI. pose proof (construct_built _ _ _ _ _ H) as [P1 _].
  apply (@afriat_members a m n P1 HI) in Hin. destruct Hin as [Hi ->].
  apply (@sweet_members a m n P1 HI). repeat split; auto using next_neighbor_lt.
  apply passes_iff. split; [exact Ht|].
  intros E. symmetry in E. revert E. apply next_neighbor_neq; assumption.
Qed.

Lemma holds_concavity_self (ln : Q -> Q) (rho : var -> Q) (a : attrs)
    (model : index_sets) (i : nat) :
  holds ln rho (concavity a model i i).
Proof.
  unfold concavity, orientation. destruct (fun_ a); simpl; apply Qle_refl.
Qed.

(** X4.  The elementary Afriat constraints chain the observations in one
    cycle: every unit is the right-hand neighbour in the constraint of
    exactly one unit, its predecessor (the last unit for unit 0).  With a
    single observation the unit is its own neighbour and its constraint is
    satisfied by every assignment. *)
Theorem afriat_cycle (v : variant) (a : attrs) (act : raw_active)
    (m : model_t) :
  construct trans_list to_2d_list v a act = Ok m ->
  let n := List.length (y a) in
  (forall h, h < n ->
     let p := if Nat.eqb h 0 then n - 1 else h - 1 in
     In (p, concavity a (model_sets m) p h) (afriat_constraints m) /\
     forall i c, In (i, c) (afriat_constraints m) ->
       next_neighbor n i = h -> i = p) /\
  (n = 1 ->
   afriat_constraints m = [(0, concavity a (model_sets m) 0 0)] /\
   forall ln rho, component_holds ln rho (afriat_constraints m)).
Proof.
  intros H n. pose proof (built_I _ _ _ _ _ H) as HI. fold n in HI.
  pose proof (construct_built _ _ _ _ _ H) as [P1 _].
  split.
  - intros h Hh p. split.
    + apply (@afriat_members a m n P1 HI).
      assert (Hp : p < n /\ next_neighbor n p = h).
      { unfold p, next_neighbor. destruct (Nat.eqb_spec h 0).
        - rewrite Nat.eqb_refl. lia.
        - destruct (Nat.eqb_spec (h - 1) (n - 1)); lia. }
      destruct Hp as [Hp ->]. auto.
    + intros i c Hin Hnext. apply (@afriat_members a m n P1 HI) in Hin.
      destruct Hin as [Hi _]. unfold p. unfold next_neighbor in Hnext.
      destruct (Nat.eqb_spec i (n - 1)); destruct (Nat.eqb_spec h 0); lia.
  - intros Hn1.
    assert (HA : afriat_constraints m = [(0, concavity a (model_sets m) 0 0)]).
    { rewrite (afriat_closed P1), HI, Hn1. simpl. unfold nextw.
      rewrite HI, Hn1. reflexivity. }
    split; [exact HA|].
    intros ln rho k c Hin. rewrite HA in Hin. destruct Hin as [Heq|[]].
    injection Heq as _ <-. apply holds_concavity_self.
Qed.


Lemma feasible_with_sweet2 (ln : Q -> Q) (rho : var -> Q) (m1 : model_t)
    (cs : list ((nat * nat) * cexpr)) :
  sweet2_constraints m1 = None ->
  (feasible ln rho (with_sweet2 m1 cs)
   <-> feasible ln rho m1 /\ component_holds ln rho cs).
Proof.
  intros Hn. unfold feasible. simpl. rewrite Hn. split.
  - intros (R & L & A & S & S2). repeat split; auto.
    + intros cs' Hcs'. discriminate Hcs'.
  - intros ((R & L & A & S & _) & S2). repeat split; auto.
    intros cs' Hcs'. injection Hcs' as <-. exact S2.
Qed.

(** X5.  A phase-2 class builds the model of its phase-1 class with one
    component added and nothing else changed, and fails with the error of
    the phase-1 class when that one fails (once [active] could be stored);
    so an assignment that satisfies the phase-2 model satisfies the
    phase-1 model. *)
Theorem phase2_adds_one_component (v : variant) (a : attrs)
    (act : raw_active) :
  phase2_variant v = true ->
  (forall m2, construct trans_list to_2d_list v a act = Ok m2 ->
     exists m1 cs,
       construct trans_list to_2d_list (phase1_class v) a act = Ok m1 /\
       sweet2_constraints m1 = None /\
       m2 = with_sweet2 m1 cs /\
       forall ln rho, feasible ln rho m2 <->
                      feasible ln rho m1 /\ component_holds ln rho cs) /\
  (forall stored e,
     stored_active trans_list to_2d_list act = Ok stored ->
     construct trans_list to_2d_list (phase1_class v) a act = Err e ->
     construct trans_list to_2d_list v a act = Err e) /\
  (forall e,
     stored_active trans_list to_2d_list act = Err e ->
     construct trans_list to_2d_list v a act = Err e).
Proof.
  intros Hp.
  assert (G2 : forall m2,
    CQERZG2.CQRZG2 trans_list to_2d_list a act = Ok m2 ->
    exists m1 cs, CQERZG1.CQRZG1 a = Ok m1 /\
      sweet2_constraints m1 = None /\ m2 = with_sweet2 m1 cs).
  { intros m2 H. rewrite CQRZG2_decompose in H.
    bind_inv H. bind_inv H. bind_inv H. bind_inv H. injection H as <-.
    exists v1, v3. split; [exact E0|]. split; [|reflexivity].
    apply CQRZG1_built in E0. tauto. }
  destruct v; try discriminate Hp; simpl; split; [|split| |split].
  - intros m2 H. destruct (G2 m2 H) as (m1 & cs & H1 & Hn & ->).
    exists m1, cs. split; [exact H1|]. split; [exact Hn|].
    split; [reflexivity|]. intros ln rho.
    apply feasible_with_sweet2. exact Hn.
  - intros stored e Hs He. rewrite CQRZG2_decompose, Hs, He. reflexivity.
  - intros e He. rewrite CQRZG2_decompose, He. reflexivity.
  - intros m2 H. rewrite CERZG2_is_expectile_of in H. unfold fmap in H.
    bind_inv H. injection H as <-.
    destruct (G2 _ E) as (m1 & cs & H1 & Hn & ->).
    exists (expectile_of m1), cs. rewrite CERZG1_is_expectile_of, H1.
    split; [reflexivity|]. split; [exact Hn|]. split; [reflexivity|].
    intros ln rho.
    apply (feasible_with_sweet2 ln rho (expectile_of m1) cs). exact Hn.
  - intros stored e Hs He. rewrite CERZG1_is_expectile_of in He.
    rewrite CERZG2_is_expectile_of, CQRZG2_decompose, Hs.
    destruct (CQERZG1.CQRZG1 a); [discriminate He | exact He].
  - intros e He. rewrite CERZG2_is_expectile_of, CQRZG2_decompose, He.
    reflexivity.
Qed.

(** X6.  Changing only [cutactive] changes only the phase-1 sweet-spot
    component; when every pair that passes the old mask passes the new
    one, every old sweet-spot constraint is in the new component, and an
    assignment that satisfies the new model satisfies the old one. *)
Theorem mask_monotone (v : variant) (a : attrs) (mask : list (list gate))
    (act : raw_active) (m m' : model_t) :
  construct trans_list to_2d_list v a act = Ok m ->
  construct trans_list to_2d_list v (with_cutactive a mask) act = Ok m' ->
  let n := List.length (y a) in
  (model_sets m' = model_sets m /\
   objective m' = objective m /\
   regression_constraints m' = regression_constraints m /\
   log_constraints m' = log_constraints m /\
   afriat_constraints m' = afriat_constraints m /\
   sweet2_constraints m' = sweet2_constraints m) /\
  ((forall i h, i < n -> h < n ->
      passes (cutactive a) (i, h) = true -> passes mask (i, h) = true) ->
   incl (sweet_constraints m) (sweet_constraints m') /\
   forall ln rho, feasible ln rho m' -> feasible ln rho m).
Proof.
  intros H H' n.
  pose proof (built_I _ _ _ _ _ H) as HI. fold n in HI.
  pose proof (construct_built _ _ _ _ _ H) as [P1 P2].
  pose proof (construct_built _ _ _ _ _ H') as [P1' P2'].
  assert (Hsets : model_sets m' = model_sets m).
  { destruct P1 as [S _ _ _ _ _], P1' as [S' _ _ _ _ _].
    change (init_sets (with_cutactive a mask)) with (init_sets a) in S'.
    congruence. }
  assert (HE : objective m' = objective m /\
    regression_constraints m' = regression_constraints m /\
    log_constraints m' = log_constraints m /\
    afriat_constraints m' = afriat_constraints m /\
    sweet2_constraints m' = sweet2_constraints m).
  { split; [|split; [|split; [|split]]].
    - destruct P1 as [_ O _ _ _ _], P1' as [_ O' _ _ _ _].
      rewrite O, O', Hsets. reflexivity.
    - destruct P1 as [_ _ (r & Hr & Hc) _ _ _],
               P1' as [_ _ (r' & Hr' & Hc') _ _ _].
      change (CQERZG1.regression_rule (with_cutactive a mask))
        with (CQERZG1.regression_rule a) in Hr'.
      rewrite Hsets in Hc'. congruence.
    - rewrite (log_closed P1), (log_closed P1'), Hsets. reflexivity.
    - rewrite (afriat_closed P1), (afriat_closed P1'), Hsets. reflexivity.
    - destruct (phase2_variant v); [|congruence].
      destruct P2 as (st & Hst & P2), P2' as (st' & Hst' & P2').
      assert (st' = st) by congruence. subst st'.
      rewrite (sweet2_closed P2), (sweet2_closed P2'), Hsets. reflexivity. }
  split; [tauto|].
  intros Hmask.
  assert (Hincl : incl (sweet_constraints m) (sweet_constraints m')).
  { intros [[i h] c] Hin.
    assert (HI' : I (model_sets m') = range n) by (rewrite Hsets; exact HI).
    apply (@sweet_members a m n P1 HI) in Hin.
    destruct Hin as (Hi & Hh & Hp & ->).
    apply (@sweet_members (with_cutactive a mask) m' n P1' HI').
    rewrite Hsets. repeat split; auto. }
  split; [exact Hincl|].
  intros ln rho (R & L & A & S & S2).
  destruct HE as (_ & ER & EL & EA & E2).
  unfold feasible. rewrite <- ER, <- EL, <- EA, <- E2.
  repeat split; auto. intros k c Hin. apply (S k c). apply Hincl, Hin.
Qed.


(** *** Errors and edge cases *)

Lemma construct_error_lifts (v : variant) (a : attrs) (act : raw_active)
    (e : exn) :
  CQERZG1.CQRZG1 a = Err e ->
  (phase2_variant v = true ->
   exists stored, stored_active trans_list to_2d_list act = Ok stored) ->
  construct trans_list to_2d_list v a act = Err e.
Proof.
  intros He Hst. destruct v; simpl in *.
  - exact He.
  - rewrite CERZG1_is_expectile_of, He. reflexivity.
  - destruct (Hst eq_refl) as (st & Hs).
    rewrite CQRZG2_decompose, Hs, He. reflexivity.
  - destruct (Hst eq_refl) as (st & Hs).
    rewrite CERZG2_is_expectile_of, CQRZG2_decompose, Hs, He. reflexivity.
Qed.

Lemma afriat_rule_unbound (a : attrs) :
  fun_ a = FUN_undefined ->
  cet a <> CET_undefined -> rts a <> RTS_undefined ->
  exists r, CQERZG1.afriat_rule a = Ok r /\
    forall model i, r model i = Err NameError.
Proof.
  intros Hf Hc Hr. unfold CQERZG1.afriat_rule. rewrite Hf.
  destruct (cet a); destruct (rts a); try congruence;
    (eexists; split; [reflexivity|]; intros; reflexivity).
Qed.

(** X7.  A frontier type that is neither constant is not noticed until a
    constraint calls the operator: with defined error composition and
    returns to scale, well-shaped data and at least one observation, every
    class stops with a [NameError] (after the regression and log
    components were built). *)
Theorem unbound_operator (v : variant) (a : attrs) (act : raw_active) :
  fun_ a = FUN_undefined ->
  cet a <> CET_undefined -> rts a <> RTS_undefined ->
  well_shaped a = true ->
  0 < List.length (y a) ->
  (phase2_variant v = true ->
   exists stored, stored_active trans_list to_2d_list act = Ok stored) ->
  construct trans_list to_2d_list v a act = Err NameError.
Proof.
  intros Hf Hc Hr Hw Hn Hst. apply construct_error_lifts; [|exact Hst].
  destruct (well_shaped_sets a Hw)
    as (nJ & nK & zs & Hz & Hs & Hx & Hzr & _ & Hy & _).
  unfold CQERZG1.CQRZG1. rewrite Hs. simpl.
  destruct (regression_rule_total a nJ nK eq_refl Hz Hx Hzr Hc Hr Hy)
    as (rr & -> & Hrr). simpl.
  destruct (Constraint_total _ _ Hrr) as (cr & Hcr).
  simpl in Hcr. rewrite Hcr. simpl.
  assert (HL : exists l,
    (if match cet a with CET_MULT => true | _ => false end
     then r <- CQERZG1.log_rule a ;;
          cs <- Constraint_ (range (List.length (y a)))
                  (r {| I := range (List.length (y a));
                        J := range nJ; K := range nK |}) ;;
          Ok (Some cs)
     else Ok None) = Ok l).
  { destruct (cet a) eqn:Ec; eauto.
    destruct (log_rule_total a nJ nK eq_refl Hx Ec Hr) as (rl & -> & Hrl).
    simpl. destruct (Constraint_total _ _ Hrl) as (cl & Hcl).
    simpl in Hcl. rewrite Hcl. simpl. eauto. }
  destruct HL as (l & ->). simpl.
  destruct (afriat_rule_unbound a Hf Hc Hr) as (ra & -> & Hra). simpl.
  unfold range.
  destruct (List.length (y a)) as [|n]; [lia|]. simpl.
  rewrite Hra. reflexivity.
Qed.

(** X8.  Without observations ([y] empty, [x] and [z] with a first row)
    every class builds a model whose components are all empty, whatever
    the frontier type and the masks are, as long as the error composition
    and the returns to scale are defined. *)
Theorem no_observations (v : variant) (a : attrs) (act : raw_active)
    (x0 : list Q) (xs : list (list Q)) (z0 : list Q) (zr : list (list Q)) :
  y a = [] -> x a = x0 :: xs -> z a = Some (z0 :: zr) ->
  cet a <> CET_undefined -> rts a <> RTS_undefined ->
  (phase2_variant v = true ->
   exists stored, stored_active trans_list to_2d_list act = Ok stored) ->
  exists m, construct trans_list to_2d_list v a act = Ok m /\
    model_sets m = {| I := []; J := range (List.length x0);
                      K := range (List.length z0) |} /\
    regression_constraints m = [] /\
    afriat_constraints m = [] /\
    sweet_constraints m = [] /\
    log_constraints m = match cet a with CET_MULT => Some [] | _ => None end /\
    sweet2_constraints m = (if phase2_variant v then Some [] else None) /\
    objective m = quantile_objective (tau a) 0.
Proof.
  intros Hy Hx Hz Hc Hr Hst.
  assert (H1 : exists m1, CQERZG1.CQRZG1 a = Ok m1 /\
    model_sets m1 = {| I := []; J := range (List.length x0);
                       K := range (List.length z0) |} /\
    regression_constraints m1 = [] /\ afriat_constraints m1 = [] /\
    sweet_constraints m1 = [] /\
    log_constraints m1
      = match cet a with CET_MULT => Some [] | _ => None end /\
    sweet2_constraints m1 = None /\
    objective m1 = quantile_objective (tau a) 0).
  { unfold CQERZG1.CQRZG1, init_sets, CQERZG1.regression_rule,
      CQERZG1.log_rule, CQERZG1.afriat_rule, CQERZG1.sweet_rule.
    rewrite Hx, Hz, Hy. simpl.
    destruct (cet a); destruct (rts a); try congruence; simpl;
      (eexists; split; [reflexivity|]; simpl; repeat split). }
  destruct H1 as (m1 & H1 & Hs & HR & HA & HS & HL & H2 & HO).
  assert (G2 : exists m2, CQERZG2.CQRZG2 trans_list to_2d_list a act = Ok m2 /\
    m2 = with_sweet2 m1 []
    \/ phase2_variant v = false).
  { destruct (phase2_variant v) eqn:Ep; [|exists m1; right; reflexivity].
    destruct (Hst eq_refl) as (st & Hs2). eexists. left.
    rewrite CQRZG2_decompose, Hs2, H1. simpl.
    unfold CQERZG2.sweet_rule2. simpl. rewrite Hs.
    destruct (cet a); destruct (rts a); try congruence; simpl;
      (split; reflexivity). }
  destruct G2 as (m2 & [[G2 ->]|G2]).
  - destruct v; simpl in *.
    + exists m1. repeat split; auto.
    + exists (expectile_of m1). rewrite CERZG1_is_expectile_of, H1.
      repeat split; auto.
    + exists (with_sweet2 m1 []). repeat split; auto.
    + exists (expectile_of (with_sweet2 m1 [])).
      rewrite CERZG2_is_expectile_of, G2. repeat split; auto.
  - destruct v; simpl in *; try discriminate G2.
    + exists m1. repeat split; auto.
    + exists (expectile_of m1). rewrite CERZG1_is_expectile_of, H1.
      repeat split; auto.
Qed.


Lemma bind_Err {A B} (m : result A) (k : A -> result B) (e : exn) :
  bind m k = Err e -> m = Err e \/ exists a, m = Ok a /\ k a = Err e.
Proof.
  destruct m as [a|e']; simpl; intros H.
  - right. eauto.
  - left. injection H as ->. reflexivity.
Qed.

Lemma Constraint_Err {Ix} (idx : list Ix) (rule : Ix -> result rule_result)
    (e : exn) :
  Constraint_ idx rule = Err e ->
  (exists i, In i idx /\ rule i = Err e) \/
  (e = InvalidConstraintError /\ exists i, In i idx /\ rule i = Ok Trivial).
Proof.
  induction idx as [|k idx IH]; simpl; intros H.
  - discriminate H.
  - apply bind_Err in H. destruct H as [H|(r & Hr & H)].
    + left. exists k. auto.
    + assert (G : Constraint_ idx rule = Err e \/
                  (r = Trivial /\ e = InvalidConstraintError)).
      { destruct r as [|c|].
        - left. exact H.
        - apply bind_Err in H.
          destruct H as [H|(cs & _ & H)]; [auto | discriminate H].
        - right. split; [reflexivity|]. congruence. }
      destruct G as [G|[-> ->]].
      * destruct (IH G) as [(i & Hi & He)|(He & i & Hi & Ht)].
        -- left. exists i. auto.
        -- right. split; [exact He|]. exists i. auto.
      * right. split; [reflexivity|]. exists k. auto.
Qed.

Lemma Constraint_fails {Ix} (idx : list Ix) (rule : Ix -> result rule_result)
    (e : exn) :
  (forall i, In i idx ->
     (exists r, rule i = Ok r /\ r <> Trivial) \/ rule i = Err e) ->
  (exists i, In i idx /\ rule i = Err e) ->
  Constraint_ idx rule = Err e.
Proof.
  induction idx as [|k idx IH]; simpl; intros Hall (i & Hi & He).
  - contradiction.
  - destruct (Hall k (or_introl eq_refl)) as [(r & Hr & Hb)|Hr];
      rewrite Hr; simpl; [|reflexivity].
    destruct Hi as [->|Hi]; [congruence|].
    assert (G : Constraint_ idx rule = Err e) by (apply IH; eauto).
    destruct r; [exact G | rewrite G; reflexivity | congruence].
Qed.

Lemma mapM_returns {A B} (f : A -> result B) (l : list A) (bs : list B) :
  mapM f l = Ok bs -> forall a, In a l -> exists b, f a = Ok b.
Proof.
  revert bs. induction l as [|a l IH]; simpl; intros bs H a0 Ha.
  - contradiction.
  - bind_inv H. bind_inv H. destruct Ha as [<-|Ha]; eauto.
Qed.

Lemma index2_bounds {A} (mx : list (list A)) (i j : nat) (v : A) :
  index2 mx i j = Ok v ->
  i < List.length mx /\ j < List.length (nth i mx []).
Proof.
  unfold index2. intros H. bind_inv H.
  apply (index_Ok _ _ []) in E. destruct E as [Hi <-].
  apply (index_Ok _ _ v) in H. tauto.
Qed.

Lemma sum_beta_x_reads (a : attrs) (idx : list nat) (c i : nat) (e : expr) :
  sum_over idx (beta_x a c i) = Ok e ->
  forall j, In j idx ->
    i < List.length (x a) /\ j < List.length (nth i (x a) []).
Proof.
  unfold sum_over. intros H j Hj. bind_inv H.
  destruct (mapM_returns _ _ E j Hj) as (t & Ht).
  unfold beta_x in Ht. bind_inv Ht. eapply index2_bounds; eauto.
Qed.

Lemma sum_lamda_z_reads (a : attrs) (idx : list nat) (i : nat) (e : expr) :
  sum_over idx (lamda_z a i) = Ok e ->
  forall k, In k idx ->
    exists zs, z a = Some zs /\
      i < List.length zs /\ k < List.length (nth i zs []).
Proof.
  unfold sum_over. intros H k Hk. bind_inv H.
  destruct (mapM_returns _ _ E k Hk) as (t & Ht).
  unfold lamda_z, z_at in Ht. bind_inv Ht.
  destruct (z a) as [zs|]; [|discriminate E0].
  exists zs. split; [reflexivity|]. eapply index2_bounds; eauto.
Qed.

Lemma afriat_reads_x (a : attrs) (r : rule1) (model : index_sets) (i : nat)
    (res : rule_result) :
  CQERZG1.afriat_rule a = Ok r -> r model i = Ok res ->
  forall j, In j (J model) ->
    i < List.length (x a) /\ j < List.length (nth i (x a) []).
Proof.
  unfold CQERZG1.afriat_rule. intros Hr H.
  destruct (cet a); destruct (rts a);
    try discriminate Hr; injection Hr as <-;
    apply call_operator_Ok in H; destruct H as (l & r' & Hl & _);
    match type of Hl with
    | sum_over _ _ = Ok _ => idtac
    | _ => bind_inv Hl
    end;
    intros j Hj; eapply sum_beta_x_reads; eauto.
Qed.

Lemma regression_reads_z (a : attrs) (r : rule1) (model : index_sets)
    (i : nat) (res : rule_result) :
  CQERZG1.regression_rule a = Ok r -> r model i = Ok res ->
  forall k, In k (K model) ->
    exists zs, z a = Some zs /\
      i < List.length zs /\ k < List.length (nth i zs []).
Proof.
  unfold CQERZG1.regression_rule. intros Hr H.
  destruct (cet a); destruct (rts a);
    try discriminate Hr; injection Hr as <-;
    bind_inv H; bind_inv H; bind_inv H;
    (eapply sum_lamda_z_reads; eassumption).
Qed.

Lemma regression_positive (a : attrs) (r : rule1) (model : index_sets)
    (i : nat) (res : rule_result) :
  cet a = CET_MULT ->
  CQERZG1.regression_rule a = Ok r -> r model i = Ok res ->
  (0 < y_val a i)%Q.
Proof.
  unfold CQERZG1.regression_rule. intros Hc Hr H. rewrite Hc in Hr.
  injection Hr as <-. bind_inv H. bind_inv H.
  apply y_index_Ok in E. subst. apply log_num_Ok in E0. apply E0.
Qed.

Lemma gated_reads (mx : list (list gate)) (i h : nat)
    (body : result rule_result) (res : rule_result) :
  gated mx i h body = Ok res ->
  i < List.length mx /\ h < List.length (nth i mx []).
Proof.
  unfold gated. intros H. bind_inv H. eapply index2_bounds; eauto.
Qed.

Lemma sweet_rule_reads (a : attrs) (r : rule2) (model : index_sets)
    (i h : nat) (res : rule_result) :
  CQERZG1.sweet_rule a = Ok r -> r model i h = Ok res ->
  i < List.length (cutactive a) /\
  h < List.length (nth i (cutactive a) []).
Proof.
  unfold CQERZG1.sweet_rule. intros Hr H.
  destruct (cet a); destruct (rts a);
    try discriminate Hr; injection Hr as <-;
    eapply gated_reads; eauto.
Qed.

Lemma sweet_rule2_reads (a : attrs) (stored : list (list gate)) (r : rule2)
    (model : index_sets) (i h : nat) (res : rule_result) :
  CQERZG2.sweet_rule2 {| CQERZG2.base := a; CQERZG2.active := stored |}
    = Ok r ->
  r model i h = Ok res ->
  i < List.length stored /\ h < List.length (nth i stored []).
Proof.
  unfold CQERZG2.sweet_rule2. simpl. intros Hr H.
  destruct (cet a); destruct (rts a);
    try discriminate Hr; injection Hr as <-;
    eapply gated_reads; eauto.
Qed.

(** X9.  A model is only built from data that cover it: [x] has a row
    for every observation with an entry for every input of its first row,
    [z] likewise, each mask has [I] rows of [I] entries, the outputs are
    positive when the error term is multiplicative, the error composition
    and returns to scale are defined, and so is the frontier type when
    there is an observation. *)
Theorem built_needs_shape (v : variant) (a : attrs) (act : raw_active)
    (m : model_t) :
  construct trans_list to_2d_list v a act = Ok m ->
  let n := List.length (y a) in
  (forall i j, i < n -> j < List.length (nth 0 (x a) []) ->
     i < List.length (x a) /\ j < List.length (nth i (x a) [])) /\
  (exists zs, z a = Some zs /\
     forall i k, i < n -> k < List.length (nth 0 zs []) ->
       i < List.length zs /\ k < List.length (nth i zs [])) /\
  (forall i h, i < n -> h < n ->
     i < List.length (cutactive a) /\
     h < List.length (nth i (cutactive a) [])) /\
  (forall cs, sweet2_constraints m = Some cs ->
     exists stored, stored_active trans_list to_2d_list act = Ok stored /\
       forall i h, i < n -> h < n ->
         i < List.length stored /\ h < List.length (nth i stored [])) /\
  (cet a = CET_MULT -> forall i, i < n -> (0 < y_val a i)%Q) /\
  cet a <> CET_undefined /\ rts a <> RTS_undefined /\
  (0 < n -> fun_ a <> FUN_undefined).
Proof.
  intros H n. pose proof (built_I _ _ _ _ _ H) as HI. fold n in HI.
  pose proof (construct_built _ _ _ _ _ H) as [P1 P2].
  assert (Hin : forall i, i < n -> In i (I (model_sets m))).
  { intros i Hi. rewrite HI. unfold range. apply in_seq. lia. }
  pose proof P1 as [S _ (rr & Hrr & Hcr) _ (ra & Hra & Hca) (rs & Hrs & Hcs)].
  split; [|split; [|split; [|split; [|split; [|split; [|split]]]]]].
  - intros i j Hi Hj.
    destruct (Constraint_returns _ _ Hca i (Hin i Hi)) as (res & Hres).
    apply (afriat_reads_x _ _ _ Hra Hres).
    rewrite (init_sets_J a S). unfold range. apply in_seq. lia.
  - destruct (init_sets_K a S) as (zs & Hz & HK). exists zs.
    split; [exact Hz|]. intros i k Hi Hk.
    destruct (Constraint_returns _ _ Hcr i (Hin i Hi)) as (res & Hres).
    destruct (regression_reads_z _ _ _ Hrr Hres k) as (zs' & Hz' & Hb).
    + rewrite HK. unfold range. apply in_seq. lia.
    + assert (zs' = zs) by congruence. subst zs'. exact Hb.
  - intros i h Hi Hh.
    destruct (Constraint_returns _ _ Hcs (i, h)) as (res & Hres).
    + apply in_prod_iff. auto.
    + simpl in Hres. apply (sweet_rule_reads _ _ _ _ Hrs Hres).
  - intros cs Hcs2. destruct (phase2_variant v); [|congruence].
    destruct P2 as (stored & Hst & (r2 & cs' & Hr2 & Hc2 & _)).
    exists stored. split; [exact Hst|]. intros i h Hi Hh.
    destruct (Constraint_returns _ _ Hc2 (i, h)) as (res & Hres).
    + apply in_prod_iff. auto.
    + simpl in Hres. apply (sweet_rule2_reads _ _ _ _ _ Hr2 Hres).
  - intros Hc i Hi.
    destruct (Constraint_returns _ _ Hcr i (Hin i Hi)) as (res & Hres).
    apply (regression_positive _ _ _ Hc Hrr Hres).
  - intros Hc. unfold CQERZG1.afriat_rule in Hra. rewrite Hc in Hra.
    discriminate Hra.
  - intros Hr. unfold CQERZG1.afriat_rule in Hra. rewrite Hr in Hra.
    destruct (cet a); discriminate Hra.
  - intros Hn. apply (afriat_operator_bound P1). rewrite HI.
    unfold range. destruct n; [lia | discriminate].
Qed.

(** X10.  With the multiplicative error term, an output that is not
    positive stops every class with [ValueError("math domain error")],
    raised by [log(y[i])] while the regression component is built (for
    [x] and [z] with a first row and [z] covering the observations). *)
Theorem nonpositive_output_rejected (v : variant) (a : attrs)
    (act : raw_active) (z0 : list Q) (zr : list (list Q)) :
  cet a = CET_MULT ->
  x a <> [] ->
  z a = Some (z0 :: zr) ->
  rows_cover (z0 :: zr) (List.length (y a)) (List.length z0) = true ->
  (exists i, i < List.length (y a) /\ (y_val a i <= 0)%Q) ->
  (phase2_variant v = true ->
   exists stored, stored_active trans_list to_2d_list act = Ok stored) ->
  construct trans_list to_2d_list v a act
  = Err (ValueError "math domain error").
Proof.
  intros Hc Hx Hz Hrows (i0 & Hi0 & Hy0) Hst.
  apply construct_error_lifts; [|exact Hst].
  unfold CQERZG1.CQRZG1, init_sets, CQERZG1.regression_rule.
  rewrite Hz, Hc. destruct (x a) as [|x0 xs]; [congruence|]. simpl.
  rewrite (@Constraint_fails _ _ _ (ValueError "math domain error"));
    [reflexivity| |].
  - intros i Hi. unfold range in Hi. apply in_seq in Hi.
    rewrite (index_lt (y a) 0%Q) by lia. simpl. unfold log_num.
    destruct (Qlt_le_dec 0 (nth i (y a) 0%Q)); [|right; reflexivity].
    left. simpl.
    rewrite (sum_lamda_z_total a (List.length x0) (List.length z0)
               eq_refl Hz Hrows) by lia.
    simpl. eexists. split; [reflexivity | discriminate].
  - exists i0. split; [unfold range; apply in_seq; lia|].
    rewrite (index_lt (y a) 0%Q) by lia. simpl. unfold log_num.
    destruct (Qlt_le_dec 0 (nth i0 (y a) 0%Q)) as [Hlt|]; [|reflexivity].
    exfalso. unfold y_val in Hy0. apply (Qlt_not_le _ _ Hlt Hy0).
Qed.


(** *** Which exceptions a construction raises *)

Lemma index_Err {A} (l : list A) (i : nat) (e : exn) :
  index l i = Err e -> e = IndexError.
Proof.
  unfold index. destruct (nth_error l i); intros H; [discriminate H|].
  injection H as <-. reflexivity.
Qed.

Lemma index2_Err {A} (mx : list (list A)) (i j : nat) (e : exn) :
  index2 mx i j = Err e -> e = IndexError.
Proof.
  unfold index2. intros H. apply bind_Err in H.
  destruct H as [H|(row & _ & H)]; eapply index_Err; eauto.
Qed.

Lemma mapM_Err {A B} (f : A -> result B) (l : list A) (e : exn) :
  mapM f l = Err e -> exists a, In a l /\ f a = Err e.
Proof.
  induction l as [|a l IH]; simpl; intros H.
  - discriminate H.
  - apply bind_Err in H. destruct H as [H|(b & _ & H)].
    + exists a. auto.
    + apply bind_Err in H. destruct H as [H|(bs & _ & H)]; [|discriminate H].
      destruct (IH H) as (a' & Ha' & He). exists a'. auto.
Qed.

Lemma sum_beta_x_Err (a : attrs) (idx : list nat) (c i : nat) (e : exn) :
  sum_over idx (beta_x a c i) = Err e -> e = IndexError.
Proof.
  unfold sum_over. intros H. apply bind_Err in H.
  destruct H as [H|(ts & _ & H)]; [|discriminate H].
  apply mapM_Err in H. destruct H as (j & _ & H). unfold beta_x in H.
  apply bind_Err in H. destruct H as [H|(xv & _ & H)]; [|discriminate H].
  eapply index2_Err; eauto.
Qed.

Lemma sum_lamda_z_Err (a : attrs) (idx : list nat) (i : nat) (e : exn) :
  sum_over idx (lamda_z a i) = Err e -> e = IndexError \/ e = TypeError.
Proof.
  unfold sum_over. intros H. apply bind_Err in H.
  destruct H as [H|(ts & _ & H)]; [|discriminate H].
  apply mapM_Err in H. destruct H as (k & _ & H). unfold lamda_z, z_at in H.
  apply bind_Err in H. destruct H as [H|(zv & _ & H)]; [|discriminate H].
  destruct (z a).
  - left. eapply index2_Err; eauto.
  - right. injection H as <-. reflexivity.
Qed.

Lemma log_num_Err (q : Q) (e : exn) :
  log_num q = Err e -> e = ValueError "math domain error".
Proof.
  unfold log_num. destruct (Qlt_le_dec 0 q); intros H; [discriminate H|].
  injection H as <-. reflexivity.
Qed.

(** The exceptions raised while a rule is evaluated at an index. *)
Ltac err_steps :=
  repeat match goal with
  | H : bind _ _ = Err _ |- _ =>
      apply bind_Err in H; destruct H as [H|(? & _ & H)]
  | H : Ok _ = Err _ |- _ => discriminate H
  | H : index _ _ = Err _ |- _ => apply index_Err in H
  | H : index2 _ _ _ = Err _ |- _ => apply index2_Err in H
  | H : log_num _ = Err _ |- _ => apply log_num_Err in H
  | H : sum_over _ (beta_x _ _ _) = Err _ |- _ => apply sum_beta_x_Err in H
  | H : sum_over _ (lamda_z _ _) = Err _ |- _ => apply sum_lamda_z_Err in H
  end.

Lemma regression_rule_Err (a : attrs) (r : rule1) (model : index_sets)
    (i : nat) (e : exn) :
  CQERZG1.regression_rule a = Ok r -> r model i = Err e ->
  e = IndexError \/ e = TypeError \/ e = ValueError "math domain error".
Proof.
  unfold CQERZG1.regression_rule. intros Hr H.
  destruct (cet a); destruct (rts a);
    try discriminate Hr; injection Hr as <-; err_steps; tauto.
Qed.

Lemma log_rule_Err (a : attrs) (r : rule1) (model : index_sets) (i : nat)
    (e : exn) :
  CQERZG1.log_rule a = Ok r -> r model i = Err e -> e = IndexError.
Proof.
  unfold CQERZG1.log_rule. intros Hr H.
  destruct (cet a); destruct (rts a);
    try discriminate Hr; injection Hr as <-; err_steps; tauto.
Qed.

Lemma call_operator_Err (f : fun_t) (l r : result expr) (e : exn) :
  call_operator (select_operator f) l r = Err e ->
  e = NameError \/ l = Err e \/ r = Err e.
Proof.
  destruct f; simpl; intros H;
    try (injection H as <-; auto; fail);
    err_steps; auto.
Qed.

Lemma afriat_rule_Err (a : attrs) (r : rule1) (model : index_sets) (i : nat)
    (e : exn) :
  CQERZG1.afriat_rule a = Ok r -> r model i = Err e ->
  e = IndexError \/ e = NameError.
Proof.
  unfold CQERZG1.afriat_rule. intros Hr H.
  destruct (cet a); destruct (rts a);
    try discriminate Hr; injection Hr as <-;
    apply call_operator_Err in H; destruct H as [H|[H|H]];
    err_steps; auto.
Qed.

Lemma gated_Err (mx : list (list gate)) (i h : nat)
    (body : result rule_result) (e : exn) :
  gated mx i h body = Err e -> e = IndexError \/ body = Err e.
Proof.
  unfold gated. intros H. apply bind_Err in H.
  destruct H as [H|(g & _ & H)].
  - left. eapply index2_Err; eauto.
  - destruct (truthy g); [destruct (Nat.eqb i h)|];
      try discriminate H. auto.
Qed.

Lemma sweet_rule_Err (a : attrs) (r : rule2) (model : index_sets)
    (i h : nat) (e : exn) :
  CQERZG1.sweet_rule a = Ok r -> r model i h = Err e ->
  e = IndexError \/ e = NameError.
Proof.
  unfold CQERZG1.sweet_rule. intros Hr H.
  destruct (cet a); destruct (rts a);
    try discriminate Hr; injection Hr as <-;
    apply gated_Err in H; destruct H as [H|H]; auto;
    apply call_operator_Err in H; destruct H as [H|[H|H]];
    err_steps; auto.
Qed.

(** Where a rule returns a [bool]: never in the regression and log rules;
    in the comparisons only under CRS, over an empty set of inputs. *)
Lemma regression_rule_no_bool (a : attrs) (r : rule1) (model : index_sets)
    (i : nat) :
  CQERZG1.regression_rule a = Ok r -> r model i <> Ok Trivial.
Proof.
  unfold CQERZG1.regression_rule. intros Hr H.
  destruct (cet a); destruct (rts a); rule_steps; discriminate.
Qed.

Lemma log_rule_no_bool (a : attrs) (r : rule1) (model : index_sets)
    (i : nat) :
  CQERZG1.log_rule a = Ok r -> r model i <> Ok Trivial.
Proof.
  intros Hr H. pose proof (log_rule_Ok _ _ _ Hr H) as Hc. discriminate Hc.
Qed.

Lemma call_operator_bool (f : fun_t) (l r : result expr) :
  call_operator (select_operator f) l r = Ok Trivial ->
  exists a b, l = Ok a /\ r = Ok b /\
              native a = true /\ native b = true /\ f <> FUN_undefined.
Proof.
  destruct f; simpl; intros H; try discriminate H;
    bind_inv H; bind_inv H; exists v, v0;
    destruct (native v) eqn:Ea; destruct (native v0) eqn:Eb;
    simpl in H; try discriminate H;
    repeat split; auto; discriminate.
Qed.

Lemma comparison_bool (f : fun_t) (r : rts_t) (a : attrs)
    (model : index_sets) (i h : nat) :
  (match r with
   | RTS_CRS =>
       call_operator (select_operator f)
         (sum_over (J model) (beta_x a i i))
         (sum_over (J model) (beta_x a h i))
   | _ =>
       call_operator (select_operator f)
         (sx <- sum_over (J model) (beta_x a i i) ;;
          Ok (EAdd (EVar (alpha i)) sx))
         (sx <- sum_over (J model) (beta_x a h i) ;;
          Ok (EAdd (EVar (alpha h)) sx))
   end) = Ok Trivial ->
  r = RTS_CRS /\ J model = [] /\ f <> FUN_undefined.
Proof.
  intros H.
  destruct r; apply call_operator_bool in H;
    destruct H as (l & r' & Hl & Hr & Nl & Nr & Hf);
    rule_steps; try discriminate Nl.
  rewrite native_sum_beta_x in Nl.
  destruct (J model); [auto | discriminate Nl].
Qed.

Lemma afriat_rule_bool (a : attrs) (r : rule1) (model : index_sets)
    (i : nat) :
  CQERZG1.afriat_rule a = Ok r -> r model i = Ok Trivial ->
  rts a = RTS_CRS /\ J model = [] /\ fun_ a <> FUN_undefined.
Proof.
  unfold CQERZG1.afriat_rule. intros Hr H.
  destruct (cet a); destruct (rts a) eqn:Er; rule_steps;
    (apply (comparison_bool (fun_ a) RTS_VRS1) in H
     || apply (comparison_bool (fun_ a) RTS_CRS) in H);
    destruct H as (Hc & HJ & Hf); try discriminate Hc; auto.
Qed.

Lemma sweet_rule_bool (a : attrs) (r : rule2) (model : index_sets)
    (i h : nat) :
  CQERZG1.sweet_rule a = Ok r -> r model i h = Ok Trivial ->
  rts a = RTS_CRS /\ J model = [] /\ fun_ a <> FUN_undefined.
Proof.
  unfold CQERZG1.sweet_rule. intros Hr H.
  destruct (cet a); destruct (rts a) eqn:Er; rule_steps;
    apply gated_Ok in H;
    (destruct (passes (cutactive a) (i, h)); [|discriminate H]);
    (apply (comparison_bool (fun_ a) RTS_VRS1) in H
     || apply (comparison_bool (fun_ a) RTS_CRS) in H);
    destruct H as (Hc & HJ & Hf); try discriminate Hc; auto.
Qed.

Lemma init_sets_Err (a : attrs) (e : exn) :
  init_sets a = Err e -> e = IndexError \/ e = TypeError.
Proof.
  unfold init_sets. intros H. err_steps; auto.
  destruct (z a); [left; eapply index_Err; eauto|].
  injection H as <-. auto.
Qed.

Lemma index2_lt {A} (mx : list (list A)) (i j : nat) (d : A) :
  i < List.length mx -> j < List.length (nth i mx []) ->
  index2 mx i j = Ok (nth j (nth i mx []) d).
Proof.
  intros Hi Hj. unfold index2. rewrite (index_lt mx []) by exact Hi.
  simpl. apply index_lt. exact Hj.
Qed.

(** X11.  The exceptions of the phase-1 classes: a failed construction
    raises a [TypeError] or [IndexError] (reading the data), a
    [NameError] (unbound operator), [ValueError("math domain error")],
    [ValueError("Undefined model parameters.")] or an
    [InvalidConstraintError] (a comparison of two numbers).  It raises
    the [ValueError] of the parameters exactly when the index sets could
    be initialized and the error composition is undefined, or it is
    additive with undefined returns to scale, or it is multiplicative with
    undefined returns to scale and the regression component could be built
    (positive outputs, [z] covering the observations).  It raises the
    [InvalidConstraintError] only under CRS with a defined frontier type,
    an observation, and a first row of [x] without entries. *)
Theorem construction_errors (v : variant) (a : attrs) (act : raw_active)
    (e : exn) :
  phase2_variant v = false ->
  construct trans_list to_2d_list v a act = Err e ->
  let n := List.length (y a) in
  (e = TypeError \/ e = IndexError \/ e = NameError \/
   e = ValueError "math domain error" \/
   e = ValueError "Undefined model parameters." \/
   e = InvalidConstraintError) /\
  (e = ValueError "Undefined model parameters." <->
   (exists model, init_sets a = Ok model) /\
   (cet a = CET_undefined \/
    (cet a = CET_ADDI /\ rts a = RTS_undefined) \/
    (cet a = CET_MULT /\ rts a = RTS_undefined /\
     forall i, i < n ->
       (0 < y_val a i)%Q /\
       exists zs, z a = Some zs /\
         forall k, k < List.length (nth 0 zs []) ->
           i < List.length zs /\ k < List.length (nth i zs [])))) /\
  (e = InvalidConstraintError ->
   rts a = RTS_CRS /\ fun_ a <> FUN_undefined /\ 0 < n /\
   nth 0 (x a) [] = []).
Proof.
  intros Hp H n.
  assert (H1 : CQERZG1.CQRZG1 a = Err e).
  { destruct v; simpl in *; try discriminate Hp; [exact H|].
    rewrite CERZG1_is_expectile_of in H.
    destruct (CQERZG1.CQRZG1 a); [discriminate H | exact H]. }
  clear H. unfold CQERZG1.CQRZG1 in H1.
  apply bind_Err in H1. destruct H1 as [H1|(model & Hs & H1)].
  { pose proof (init_sets_Err _ H1) as He. split; [tauto|]. split; [split|].
    - intros ->. destruct He; discriminate.
    - intros ((model & Hm) & _). congruence.
    - intros ->. destruct He; discriminate. }
  pose proof (init_sets_I _ Hs) as HI. fold n in HI.
  assert (Hex : exists model0, init_sets a = Ok model0) by eauto.
  apply bind_Err in H1. destruct H1 as [H1|(rr & Hrr & H1)].
  { unfold CQERZG1.regression_rule in H1.
    destruct (cet a) eqn:Ec; [destruct (rts a) eqn:Er| |];
      try discriminate H1; injection H1 as <-;
      (split; [tauto|]);
      (split; [split; [intros _; split; [exact Hex | tauto] | reflexivity]
              | discriminate]). }
  apply bind_Err in H1. destruct H1 as [H1|(cr & Hcr & H1)].
  { apply Constraint_Err in H1.
    destruct H1 as [(i & Hi & H1)|(_ & i & _ & H1)];
      [|exfalso; exact (regression_rule_no_bool _ _ _ Hrr H1)].
    pose proof (regression_rule_Err _ _ _ Hrr H1) as He.
    split; [tauto|]. split; [split|].
    - intros ->. destruct He as [He|[He|He]]; discriminate He.
    - intros (_ & [Hc|[[Hc Hr]|(Hc & Hr & Hy)]]).
      + unfold CQERZG1.regression_rule in Hrr. rewrite Hc in Hrr.
        discriminate Hrr.
      + unfold CQERZG1.regression_rule in Hrr. rewrite Hc, Hr in Hrr.
        discriminate Hrr.
      + exfalso. rewrite HI in Hi. unfold range in Hi. apply in_seq in Hi.
        destruct (Hy i) as (Hpos & zs & Hz & Hzs); [lia|].
        unfold CQERZG1.regression_rule in Hrr. rewrite Hc in Hrr.
        injection Hrr as <-.
        rewrite (index_lt (y a) 0%Q) in H1 by lia. simpl in H1.
        unfold log_num in H1. fold (y_val a i) in H1.
        destruct (Qlt_le_dec 0 (y_val a i)) as [_|Hle];
          [|exact (Qlt_not_le _ _ Hpos Hle)].
        simpl in H1. unfold sum_over in H1.
        rewrite (mapM_total _
          (fun k => EMul (EVar (lamda k)) (ENum (z_val a i k)))) in H1.
        * discriminate H1.
        * intros k Hk. destruct (init_sets_K _ Hs) as (zs' & Hz' & HK).
          assert (zs' = zs) by congruence. subst zs'.
          rewrite HK in Hk. unfold range in Hk. apply in_seq in Hk.
          unfold lamda_z, z_at, z_val. rewrite Hz.
          destruct (Hzs k) as [Hb1 Hb2]; [lia|].
          rewrite (@index2_lt _ zs i k 0%Q Hb1 Hb2). reflexivity.
    - intros ->. destruct He as [He|[He|He]]; discriminate He. }
  apply bind_Err in H1. destruct H1 as [H1|(lc & Hlc & H1)].
  { destruct (cet a) eqn:Ec; try discriminate H1.
    apply bind_Err in H1. destruct H1 as [H1|(rl & Hrl & H1)].
    - unfold CQERZG1.log_rule in H1. rewrite Ec in H1.
      destruct (rts a) eqn:Er; try discriminate H1. injection H1 as <-.
      split; [tauto|]. split; [|discriminate]. split; [|reflexivity].
      intros _. split; [exact Hex|]. right. right.
      split; [reflexivity|]. split; [reflexivity|].
      intros i Hi.
      assert (Hin : In i (I model))
        by (rewrite HI; unfold range; apply in_seq; lia).
      destruct (Constraint_returns _ _ Hcr i Hin) as (res & Hres).
      split; [apply (regression_positive _ _ _ Ec Hrr Hres)|].
      destruct (init_sets_K _ Hs) as (zs & Hz & HK). exists zs.
      split; [exact Hz|]. intros k Hk.
      destruct (regression_reads_z _ _ _ Hrr Hres k) as (zs' & Hz' & Hb).
      + rewrite HK. unfold range. apply in_seq. lia.
      + assert (zs' = zs) by congruence. subst zs'. exact Hb.
    - apply bind_Err in H1. destruct H1 as [H1|(cl & _ & H1)];
        [|discriminate H1].
      apply Constraint_Err in H1.
      destruct H1 as [(i & _ & H1)|(_ & i & _ & H1)];
        [|exfalso; exact (log_rule_no_bool _ _ _ Hrl H1)].
      apply (log_rule_Err _ _ _ Hrl) in H1. subst e.
      split; [tauto|]. split; [|discriminate]. split; [discriminate|].
      intros (_ & [Hc|[[Hc Hr]|(Hc & Hr & _)]]); try congruence.
      unfold CQERZG1.log_rule in Hrl. rewrite Ec, Hr in Hrl.
      discriminate Hrl. }
  assert (Hdef : cet a <> CET_undefined /\ rts a <> RTS_undefined).
  { unfold CQERZG1.regression_rule in Hrr.
    destruct (cet a) eqn:Ec; [| |discriminate Hrr].
    - destruct (rts a); try discriminate Hrr; split; discriminate.
    - destruct (CQERZG1.log_rule a) as [rl|] eqn:El; [|discriminate Hlc].
      unfold CQERZG1.log_rule in El. rewrite Ec in El.
      destruct (rts a); try discriminate El; split; discriminate. }
  assert (Hno : ~ (cet a = CET_undefined \/
    (cet a = CET_ADDI /\ rts a = RTS_undefined) \/
    (cet a = CET_MULT /\ rts a = RTS_undefined /\
     forall i, i < n ->
       (0 < y_val a i)%Q /\
       exists zs, z a = Some zs /\
         forall k, k < List.length (nth 0 zs []) ->
           i < List.length zs /\ k < List.length (nth i zs [])))).
  { intros [Hc|[[_ Hr]|(_ & Hr & _)]]; tauto. }
  assert (Hbool : forall i : nat, In i (I model) -> J model = [] ->
            0 < n /\ nth 0 (x a) [] = []).
  { intros i Hi HJ0. rewrite HI in Hi. unfold range in Hi.
    apply in_seq in Hi. split; [lia|].
    rewrite (init_sets_J a Hs) in HJ0. unfold range in HJ0.
    apply (f_equal (@List.length nat)) in HJ0. rewrite length_seq in HJ0.
    apply length_zero_iff_nil. exact HJ0. }
  assert (Hfin : e = IndexError \/ e = NameError \/
                 (e = InvalidConstraintError /\
                  rts a = RTS_CRS /\ fun_ a <> FUN_undefined /\ 0 < n /\
                  nth 0 (x a) [] = [])).
  { apply bind_Err in H1. destruct H1 as [H1|(ra & Hra & H1)].
    { unfold CQERZG1.afriat_rule in H1.
      destruct (cet a); destruct (rts a); try discriminate H1; tauto. }
    apply bind_Err in H1. destruct H1 as [H1|(ca & _ & H1)].
    { apply Constraint_Err in H1.
      destruct H1 as [(i & _ & H1)|(-> & i & Hi & H1)].
      - destruct (afriat_rule_Err _ _ _ Hra H1); tauto.
      - destruct (afriat_rule_bool _ _ _ Hra H1) as (Hc & HJ0 & Hf).
        destruct (Hbool i Hi HJ0). tauto. }
    apply bind_Err in H1. destruct H1 as [H1|(rs & Hrs & H1)].
    { unfold CQERZG1.sweet_rule in H1.
      destruct (cet a); destruct (rts a); try discriminate H1; tauto. }
    apply bind_Err in H1. destruct H1 as [H1|(cs & _ & H1)];
      [|discriminate H1].
    apply Constraint_Err in H1.
    destruct H1 as [([i h] & _ & H1)|(-> & [i h] & Hi & H1)].
    - destruct (sweet_rule_Err _ _ _ _ Hrs H1); tauto.
    - simpl in H1.
      destruct (sweet_rule_bool _ _ _ _ Hrs H1) as (Hc & HJ0 & Hf).
      apply in_prod_iff in Hi. destruct (Hbool i (proj1 Hi) HJ0). tauto. }
  split; [tauto|]. split; [split|].
  - intros ->. destruct Hfin as [Hf|[Hf|[Hf _]]]; discriminate.
  - intros (_ & Hyes). contradiction.
  - intros ->. destruct Hfin as [Hf|[Hf|[_ Hf]]]; try discriminate Hf.
    exact Hf.
Qed.


(** *** Variables and bounds *)

Lemma vars_sum_beta_x (a : attrs) (model : index_sets) (c i : nat) (w : var) :
  In w (vars_of (sum_beta_x a model c i)) ->
  exists j, In j (J model) /\ w = beta c j.
Proof.
  unfold sum_beta_x. simpl. intros H. apply in_flat_map in H.
  destruct H as (e & He & Hw). apply in_map_iff in He.
  destruct He as (j & <- & Hj). simpl in Hw.
  destruct Hw as [<-|[]]. eauto.
Qed.

Lemma vars_sum_lamda_z (a : attrs) (model : index_sets) (i : nat) (w : var) :
  In w (vars_of (sum_lamda_z a model i)) ->
  exists k, In k (K model) /\ w = lamda k.
Proof.
  unfold sum_lamda_z. simpl. intros H. apply in_flat_map in H.
  destruct H as (e & He & Hw). apply in_map_iff in He.
  destruct He as (k & <- & Hk). simpl in Hw.
  destruct Hw as [<-|[]]. eauto.
Qed.

Lemma declared_sum_beta_x (a : attrs) (model : index_sets) (c i : nat)
    (w : var) :
  In c (I model) -> In w (vars_of (sum_beta_x a model c i)) ->
  declared model w.
Proof.
  intros Hc H. apply vars_sum_beta_x in H. destruct H as (j & Hj & ->).
  simpl. auto.
Qed.

Lemma declared_sum_lamda_z (a : attrs) (model : index_sets) (i : nat)
    (w : var) :
  In w (vars_of (sum_lamda_z a model i)) -> declared model w.
Proof.
  intros H. apply vars_sum_lamda_z in H. destruct H as (k & Hk & ->).
  exact Hk.
Qed.

Lemma declared_predictor_at (r : rts_t) (a : attrs) (model : index_sets)
    (c i : nat) (w : var) :
  In c (I model) -> In w (vars_of (predictor_at r a model c i)) ->
  declared model w.
Proof.
  intros Hc. unfold predictor_at.
  destruct r; cbn [vars_of app]; intros H;
    try (destruct H as [<-|H]; [exact Hc|]);
    eapply declared_sum_beta_x; eauto.
Qed.

Lemma declared_concavity_at (r : rts_t) (a : attrs) (model : index_sets)
    (i h : nat) (w : var) :
  In i (I model) -> In h (I model) ->
  In w (cvars (concavity_at r a model i h)) -> declared model w.
Proof.
  intros Hi Hh. unfold concavity_at, orientation.
  destruct (fun_ a); cbn [cvars]; intros H; apply in_app_or in H;
    (destruct H as [H|H];
     [exact (@declared_predictor_at r a model i i w Hi H)
     |exact (@declared_predictor_at r a model h i w Hh H)]).
Qed.

Lemma declared_spec_regression (a : attrs) (model : index_sets) (i : nat)
    (w : var) :
  In i (I model) -> In w (cvars (spec_regression a model i)) ->
  declared model w.
Proof.
  intros Hi. unfold spec_regression, predictor.
  destruct (cet a); cbn [cvars vars_of]; intros H;
    repeat (apply in_app_or in H; destruct H as [H|H]);
    try (destruct H as [<-|[]]; exact Hi);
    try (eapply declared_sum_lamda_z; eassumption);
    try (eapply declared_predictor_at; eassumption);
    try (destruct H as [<-|H]; [exact Hi | destruct H]);
    try (destruct H).
Qed.

Lemma declared_quantile_objective (t : Q) (n : nat) (model : index_sets)
    (w : var) :
  I model = range n -> In w (vars_of (quantile_objective t n)) ->
  declared model w.
Proof.
  intros HI. unfold quantile_objective. simpl. intros H.
  apply in_app_or in H. destruct H as [H|H]; apply in_flat_map in H;
    destruct H as (e & He & Hw); apply in_map_iff in He;
    destruct He as (i & <- & Hi); destruct Hw as [<-|[]];
    simpl; rewrite HI; exact Hi.
Qed.

Lemma declared_expectile_objective (t : Q) (n : nat) (model : index_sets)
    (w : var) :
  I model = range n -> In w (vars_of (expectile_objective t n)) ->
  declared model w.
Proof.
  intros HI. unfold expectile_objective. simpl. intros H.
  apply in_app_or in H. destruct H as [H|H]; apply in_flat_map in H;
    destruct H as (e & He & Hw); apply in_map_iff in He;
    destruct He as (i & <- & Hi); destruct Hw as [<-|[]];
    simpl; rewrite HI; exact Hi.
Qed.

Lemma built_squared_objective (v : variant) (a : attrs) (act : raw_active)
    (m : model_t) :
  construct trans_list to_2d_list v a act = Ok m ->
  squared_objective m
  = if quantile_variant v then None
    else Some (expectile_objective (tau a) (List.length (y a))).
Proof.
  intros H. destruct v; simpl in *.
  - apply CQRZG1_built in H. tauto.
  - rewrite CERZG1_is_expectile_of in H. unfold fmap in H. bind_inv H.
    injection H as <-. simpl.
    rewrite (built_objective_form trans_list to_2d_list CQRZG1 a act E).
    rewrite square_quantile_objective. reflexivity.
  - apply CQRZG2_built in H. destruct H as (st & _ & _ & _ & _ & ?). auto.
  - rewrite CERZG2_is_expectile_of in H. unfold fmap in H. bind_inv H.
    injection H as <-. simpl.
    rewrite (built_objective_form trans_list to_2d_list CQRZG2 a act E).
    rewrite square_quantile_objective. reflexivity.
Qed.

(** X12.  Every variable that occurs in a constraint or an objective of a
    built model is one the class declares over the model's index sets:
    [alpha], [epsilon_plus], [epsilon_minus], [frontier] at an
    observation, [beta] at an observation and an input, [lamda] at a
    contextual dimension; so no subscript of a rule falls outside its
    [Var], and the single residual [epsilon] never occurs. *)
Theorem variables_declared (v : variant) (a : attrs) (act : raw_active)
    (m : model_t) :
  construct trans_list to_2d_list v a act = Ok m ->
  let model := model_sets m in
  component_declared model (regression_constraints m) /\
  (forall cs, log_constraints m = Some cs -> component_declared model cs) /\
  component_declared model (afriat_constraints m) /\
  component_declared model (sweet_constraints m) /\
  (forall cs, sweet2_constraints m = Some cs ->
     component_declared model cs) /\
  (forall w, In w (vars_of (objective m)) -> declared model w) /\
  (forall e w, squared_objective m = Some e -> In w (vars_of e) ->
     declared model w).
Proof.
  intros H model. pose proof (built_I _ _ _ _ _ H) as HI.
  set (n := List.length (y a)) in *. fold model in HI.
  pose proof (construct_built _ _ _ _ _ H) as [P1 P2].
  assert (Hin : forall i, i < n -> In i (I model)).
  { intros i Hi. rewrite HI. unfold range. apply in_seq. lia. }
  split; [|split; [|split; [|split; [|split; [|split]]]]].
  - intros i c Hc w Hw.
    destruct P1 as [_ _ (r & Hr & Hcr) _ _ _]. fold model in Hcr.
    apply (Constraint_In _ _ Hcr) in Hc. destruct Hc as [Hi Hres].
    destruct (cet a) eqn:Ec; [destruct (rts a) eqn:Er| |].
    + assert (Heq : Emit c = Emit (spec_regression a model i)).
      { apply (regression_rule_Ok _ _ _ Hr Hres). congruence. }
      injection Heq as ->. eapply declared_spec_regression; eauto.
    + pose proof (regression_rule_additive_crs _ _ _ Hr Hres Ec Er) as Heq.
      injection Heq as ->. cbn [cvars vars_of] in Hw.
      repeat (apply in_app_or in Hw; destruct Hw as [Hw|Hw]);
        try (destruct Hw as [<-|[]]; exact Hi);
        try (eapply declared_sum_lamda_z; eassumption);
        try (eapply declared_sum_beta_x; eassumption);
        destruct Hw.
    + unfold CQERZG1.regression_rule in Hr. rewrite Ec, Er in Hr.
      discriminate Hr.
    + assert (Heq : Emit c = Emit (spec_regression a model i)).
      { apply (regression_rule_Ok _ _ _ Hr Hres). congruence. }
      injection Heq as ->. eapply declared_spec_regression; eauto.
    + unfold CQERZG1.regression_rule in Hr. rewrite Ec in Hr.
      discriminate Hr.
  - intros cs Hcs i c Hc w Hw. rewrite (log_closed P1) in Hcs.
    destruct (cet a); try discriminate Hcs. injection Hcs as <-.
    apply in_map_iff in Hc. destruct Hc as (k & Heq & Hk).
    injection Heq as -> <-. fold model in Hk, Hw.
    unfold spec_log, predictor in Hw. cbn [cvars vars_of] in Hw.
    repeat (apply in_app_or in Hw; destruct Hw as [Hw|Hw]);
      try (destruct Hw as [<-|[]]; exact Hk);
      try (eapply declared_predictor_at; eassumption);
      destruct Hw.
  - intros i c Hc w Hw.
    apply (@afriat_members a m n P1 HI) in Hc. destruct Hc as [Hi ->].
    eapply (declared_concavity_at (rts a)); [| |exact Hw];
      auto using next_neighbor_lt.
  - intros [i h] c Hc w Hw.
    apply (@sweet_members a m n P1 HI) in Hc.
    destruct Hc as (Hi & Hh & _ & ->).
    eapply (declared_concavity_at (rts a)); [| |exact Hw]; auto.
  - intros cs Hcs [i h] c Hc w Hw.
    destruct (phase2_variant v); [|congruence].
    destruct P2 as (st & _ & P2). rewrite (sweet2_closed P2) in Hcs.
    injection Hcs as <-. apply in_map_iff in Hc.
    destruct Hc as (k & Heq & Hk). injection Heq as -> <-.
    apply filter_In in Hk. destruct Hk as [Hk _].
    apply in_prod_iff in Hk. simpl in Hw.
    eapply declared_concavity_at; [| |exact Hw]; tauto.
  - intros w Hw. rewrite (built_objective_form _ _ _ _ _ H) in Hw.
    eapply declared_quantile_objective; eauto.
  - intros e w He Hw. rewrite (built_squared_objective _ _ _ H) in He.
    destruct (quantile_variant v); [discriminate He|].
    injection He as <-. eapply declared_expectile_objective; eauto.
Qed.


Lemma Qsum_nonneg (f : nat -> Q) (idx : list nat) :
  (forall i, 0 <= f i)%Q -> (0 <= Qsum f idx)%Q.
Proof.
  intros Hf. induction idx as [|i idx IH]; simpl.
  - apply Qle_refl.
  - rewrite <- (Qplus_0_r 0). apply Qplus_le_compat; auto.
Qed.

Lemma Qsquare_nonneg (q : Q) : (0 <= q ^ 2)%Q.
Proof.
  destruct q as [p d]. unfold Qle. simpl. nia.
Qed.

Lemma Qsum_zero (f : nat -> Q) (idx : list nat) :
  (forall i, f i == 0)%Q -> (Qsum f idx == 0)%Q.
Proof.
  intros Hf. induction idx as [|i idx IH]; simpl.
  - reflexivity.
  - rewrite IH, Hf. ring.
Qed.

(** X13.  For a level [tau] between 0 and 1 the objective of a built
    model is never negative at an assignment within the declared bounds
    (the residuals are declared non-negative), the squared objective is
    never negative at any assignment, and both are 0 when all residuals
    are 0. *)
Theorem objective_bounded_below (v : variant) (a : attrs) (act : raw_active)
    (m : model_t) :
  construct trans_list to_2d_list v a act = Ok m ->
  (0 <= tau a)%Q -> (tau a <= 1)%Q ->
  forall ln rho,
    (respects_bounds rho -> (0 <= eval ln rho (objective m))%Q) /\
    (forall e, squared_objective m = Some e -> (0 <= eval ln rho e)%Q) /\
    ((forall i, rho (epsilon_plus i) == 0 /\ rho (epsilon_minus i) == 0)%Q ->
     (eval ln rho (objective m) == 0)%Q /\
     forall e, squared_objective m = Some e -> (eval ln rho e == 0)%Q).
Proof.
  intros H Ht0 Ht1 ln rho.
  assert (Ht : (0 <= 1 - tau a)%Q).
  { apply (proj1 (Qle_minus_iff (tau a) 1)) in Ht1. exact Ht1. }
  rewrite (built_objective_form _ _ _ _ _ H).
  rewrite (built_squared_objective _ _ _ H).
  split; [|split].
  - intros Hb. rewrite eval_quantile_objective.
    rewrite <- (Qplus_0_r 0).
    apply Qplus_le_compat; apply Qmult_le_0_compat; auto;
      apply Qsum_nonneg; intros i; apply (Hb _ 0%Q); reflexivity.
  - intros e He. destruct (quantile_variant v); [discriminate He|].
    injection He as <-. rewrite eval_expectile_objective.
    rewrite <- (Qplus_0_r 0).
    apply Qplus_le_compat; apply Qmult_le_0_compat; auto;
      apply Qsum_nonneg; intros i; apply Qsquare_nonneg.
  - intros Hz. split.
    + rewrite eval_quantile_objective.
      rewrite !Qsum_zero by (intros i; apply Hz). ring.
    + intros e He. destruct (quantile_variant v); [discriminate He|].
      injection He as <-. rewrite eval_expectile_objective.
      rewrite !Qsum_zero; [ring| |];
        intros i; destruct (Hz i) as [Hp Hm];
        [rewrite Hm | rewrite Hp]; reflexivity.
Qed.


(** *** The regression rule of CNLSG1 *)

Lemma CNLSG1_regression_rule_Ok (a : attrs) (r : rule1) (model : index_sets)
    (i : nat) (res : rule_result) :
  CNLSG1.regression_rule a = Ok r -> r model i = Ok res ->
  res = Emit (CNLSG1_equation a model i).
Proof.
  unfold CNLSG1.regression_rule, CNLSG1_equation, predictor, predictor_at.
  intros Hr H.
  destruct (cet a); destruct (rts a); rule_steps;
    try (apply log_num_Ok in E0; destruct E0 as [-> _]);
    apply y_index_Ok in E; subst; reflexivity.
Qed.

(** X14.  The regression rule of CNLSG1 is selected for the combinations
    for which the rule of CQRZG1 is, and raises
    [ValueError("Undefined model parameters.")] for the others.  A
    component built from it holds one equation per index:
    [y[i] == alpha[i] + Σ_j beta[i,j]·x[i][j] - epsilon[i]] (additive
    VRS), the same without [alpha[i]] (additive CRS), or
    [log(y[i]) == log(frontier[i]+1) - epsilon[i]] (multiplicative).  It
    reads [y] and [x] only: the same component is built when [z] is
    replaced by anything, also by [None]. *)
Theorem CNLSG1_regression_component (a : attrs) (model : index_sets) :
  raised (CNLSG1.regression_rule a) = raised (CQERZG1.regression_rule a) /\
  (forall e, raised (CNLSG1.regression_rule a) = Some e ->
     e = ValueError "Undefined model parameters.") /\
  (forall r cs,
     CNLSG1.regression_rule a = Ok r ->
     Constraint_ (I model) (r model) = Ok cs ->
     cs = map (fun i => (i, CNLSG1_equation a model i)) (I model)) /\
  (forall zs,
     fmap (fun r => Constraint_ (I model) (r model))
          (CNLSG1.regression_rule (with_z a zs))
     = fmap (fun r => Constraint_ (I model) (r model))
            (CNLSG1.regression_rule a)).
Proof.
  split; [|split; [|split]].
  - unfold CNLSG1.regression_rule, CQERZG1.regression_rule.
    destruct (cet a); destruct (rts a); reflexivity.
  - unfold CNLSG1.regression_rule.
    destruct (cet a); destruct (rts a); simpl; intros e He;
      try discriminate He; injection He as <-; reflexivity.
  - intros r cs Hr Hc. eapply Constraint_all; [|exact Hc].
    intros i res _ Hres _. eapply CNLSG1_regression_rule_Ok; eauto.
  - intros zs. reflexivity.
Qed.

End Further.

(** ** Solving once, reading the coefficients *)

Lemma insert_sorted_seq_front (s len : nat) :
  insert_sorted s (seq (S s) len) = seq s (S len).
Proof.
  destruct len as [|len]; simpl.
  - reflexivity.
  - destruct (Nat.ltb_spec s (S s)); [reflexivity | lia].
Qed.

Lemma insert_sorted_present (k s len : nat) :
  In k (seq s len) -> insert_sorted k (seq s len) = seq s len.
Proof.
  revert s. induction len as [|len IH]; simpl; intros s Hk.
  - contradiction.
  - destruct Hk as [->|Hk].
    + rewrite Nat.ltb_irrefl, Nat.eqb_refl. reflexivity.
    + pose proof Hk as Hk'. apply in_seq in Hk'.
      destruct (Nat.ltb_spec k s); [lia|].
      destruct (Nat.eqb_spec k s); [lia|].
      rewrite IH by exact Hk. reflexivity.
Qed.

Lemma axis_labels_seq (s len : nat) : axis_labels (seq s len) = seq s len.
Proof.
  unfold axis_labels. revert s. induction len as [|len IH]; simpl; intros s.
  - reflexivity.
  - rewrite IH. apply insert_sorted_seq_front.
Qed.

Lemma axis_labels_app_present (l : list nat) (s len : nat) :
  (forall k, In k l -> In k (seq s len)) ->
  fold_right insert_sorted (seq s len) l = seq s len.
Proof.
  induction l as [|k l IH]; simpl; intros H.
  - reflexivity.
  - rewrite IH by auto. apply insert_sorted_present. auto.
Qed.

Lemma insert_repeated {B} (cols : list B) (s n : nat) :
  cols <> [] ->
  fold_right insert_sorted (seq (S s) n) (map (fun _ => s) cols)
  = seq s (S n).
Proof.
  induction cols as [|c cols IH]; [congruence|]. intros _.
  destruct cols as [|c' cols].
  - simpl. apply insert_sorted_seq_front.
  - change (insert_sorted s
              (fold_right insert_sorted (seq (S s) n)
                 (map (fun _ => s) (c' :: cols))) = seq s (S n)).
    rewrite IH by discriminate.
    apply insert_sorted_present. simpl. auto.
Qed.

(** The row labels of the rows of [seq s n x cols], for [cols] not
    empty, are [seq s n]. *)
Lemma axis_labels_names {B} (cols : list B) (s n : nat) :
  cols <> [] ->
  axis_labels (map fst (list_prod (seq s n) cols)) = seq s n.
Proof.
  intros Hc. unfold axis_labels. revert s.
  induction n as [|n IH]; intros s; simpl.
  - reflexivity.
  - rewrite map_app, fold_right_app, IH, map_map. simpl.
    apply insert_repeated. exact Hc.
Qed.

(** The column labels of the rows of [rows x seq c k], for [rows] not
    empty, are [seq c k]. *)
Lemma axis_labels_keys {A} (rows : list A) (c k : nat) :
  rows <> [] ->
  axis_labels (map snd (list_prod rows (seq c k))) = seq c k.
Proof.
  unfold axis_labels.
  induction rows as [|r rows IH]; [congruence|]. intros _. simpl.
  rewrite map_app, fold_right_app, map_map. simpl. rewrite map_id.
  destruct rows as [|r' rows].
  - simpl. apply axis_labels_seq.
  - rewrite IH by discriminate. apply axis_labels_app_present. auto.
Qed.

Lemma same_key_eq (p q : nat * nat) : same_key p q = true <-> p = q.
Proof.
  destruct p as [a b], q as [c d]. unfold same_key. simpl.
  rewrite andb_true_iff, !Nat.eqb_eq. split.
  - intros [-> ->]. reflexivity.
  - intros H. injection H as -> ->. auto.
Qed.

Lemma unique_keys_NoDup (l : list (nat * nat)) :
  NoDup l -> unique_keys l = true.
Proof.
  induction 1 as [|p l Hp _ IH]; simpl.
  - reflexivity.
  - rewrite IH, andb_true_r. apply negb_true_iff.
    destruct (existsb (same_key p) l) eqn:E; [|reflexivity].
    apply existsb_exists in E. destruct E as (q & Hq & Hs).
    apply same_key_eq in Hs. subst q. contradiction.
Qed.

Section Reading.

Variable value : Type.
Variables email solver : Type.
Variable OPT_LOCAL : email.
Variable OPT_DEFAULT : solver.

Lemma cell_found (f : nat * nat -> value) (l : list (nat * nat))
    (name key : nat) :
  In (name, key) l ->
  cell (map (fun ij => (ij, f ij)) l) name key = Some (f (name, key)).
Proof.
  unfold cell. induction l as [|p l IH]; simpl; intros H.
  - contradiction.
  - destruct (same_key p (name, key)) eqn:E.
    + apply same_key_eq in E. subst p. reflexivity.
    + destruct H as [->|H]; [|auto].
      assert (E' : same_key (name, key) (name, key) = true)
        by (apply same_key_eq; reflexivity).
      congruence.
Qed.

(** The pivot table of the rows [(i, j, f (i, j))] over a non-empty
    [range n x range k] is the [n x k] matrix of the [f (i, j)]. *)
Lemma pivot_product (f : nat * nat -> value) (n k : nat)
    (row : (nat * nat) * value) (more : list ((nat * nat) * value)) :
  0 < n -> 0 < k ->
  map (fun ij => (ij, f ij)) (list_prod (range n) (range k)) = row :: more ->
  pivot row more
  = Ok (map (fun i => map (fun j => Some (f (i, j))) (range k)) (range n)).
Proof.
  intros Hn Hk E. unfold pivot. cbv zeta. rewrite <- E. clear E row more.
  rewrite !map_map. simpl.
  rewrite map_id.
  rewrite unique_keys_NoDup
    by (unfold range; apply NoDup_list_prod; apply seq_NoDup).
  change (map (fun x0 : nat * nat => fst x0) (list_prod (range n) (range k)))
    with (map fst (list_prod (seq 0 n) (range k))).
  change (map (fun x0 : nat * nat => snd x0) (list_prod (range n) (range k)))
    with (map snd (list_prod (range n) (seq 0 k))).
  rewrite axis_labels_names
    by (unfold range; destruct k; [lia | discriminate]).
  rewrite axis_labels_keys
    by (unfold range; destruct n; [lia | discriminate]).
  f_equal. apply map_ext_in. intros i Hi. apply map_ext_in. intros j Hj.
  apply cell_found. apply in_prod_iff. auto.
Qed.

Section Oracles.

Variables solve solve' :
  model_t -> (var -> value) -> email -> cet_t -> solver ->
  result ((Z * Z) * (var -> value)).

Lemma combine_map {A B} (f : A -> B) (l : list A) :
  combine l (map f l) = map (fun a => (a, f a)) l.
Proof.
  induction l as [|a l IH]; simpl; [reflexivity|]. rewrite IH. reflexivity.
Qed.

Lemma slice_values_Ok {Ix} (keys : list Ix) (read : Ix -> value)
    (vals : list value) :
  slice_values keys read = Ok vals -> keys <> [] /\ vals = map read keys.
Proof.
  unfold slice_values. destruct keys; intros H; [discriminate H|].
  injection H as <-. split; [discriminate | reflexivity].
Qed.

Lemma slice_values_keys {Ix} (keys : list Ix) (read : Ix -> value) :
  keys <> [] -> slice_values keys read = Ok (map read keys).
Proof.
  unfold slice_values. destruct keys; [congruence | reflexivity].
Qed.

Lemma solve_keeps_model (s s' : instance value) :
  solve_if_unsolved OPT_LOCAL OPT_DEFAULT solve s = Ok s' ->
  inst_model s' = inst_model s /\ inst_self s' = inst_self s.
Proof.
  unfold solve_if_unsolved, optimize. intros H.
  destruct (Z.eqb (optimization_status s) 0).
  - bind_inv H. injection H as <-. auto.
  - injection H as <-. auto.
Qed.

(** X15.  Reading the coefficients.  A successful [get_alpha] leaves
    the model as it is and returns the value of [alpha[i]] for every
    observation, of which there is at least one; it solves only when
    [optimization_status] is 0, and once a solve has left another status,
    a further [get_alpha] returns the same array and the same instance
    whatever the solver would answer.  A model without observations,
    such as the classes build from an empty [y], cannot be read:
    [get_alpha] and [get_beta] never return, and raise [IndexError] when
    no solve is due.  An exception of the solver is the exception of
    the accessor. *)
Theorem accessors_solve_once (s : instance value) :
  (forall s1 al,
     get_alpha OPT_LOCAL OPT_DEFAULT solve s = Ok (s1, al) ->
     inst_model s1 = inst_model s /\
     I (model_sets (inst_model s)) <> [] /\
     al = map (fun i => values s1 (alpha i))
              (I (model_sets (inst_model s))) /\
     (optimization_status s <> 0%Z -> s1 = s) /\
     (optimization_status s1 <> 0%Z ->
      get_alpha OPT_LOCAL OPT_DEFAULT solve' s1 = Ok (s1, al))) /\
  (I (model_sets (inst_model s)) = [] ->
     (forall r, get_alpha OPT_LOCAL OPT_DEFAULT solve s <> Ok r) /\
     (forall r, get_beta OPT_LOCAL OPT_DEFAULT solve s <> Ok r) /\
     (optimization_status s <> 0%Z ->
      get_alpha OPT_LOCAL OPT_DEFAULT solve s = Err IndexError /\
      get_beta OPT_LOCAL OPT_DEFAULT solve s = Err IndexError)) /\
  (forall (raw_active listed : Type)
          (trans_list : raw_active -> result listed)
          (to_2d_list : listed -> result (list (list gate)))
          (v : variant) (a : attrs) (act : raw_active),
     construct trans_list to_2d_list v a act = Ok (inst_model s) ->
     y a = [] ->
     (forall r, get_alpha OPT_LOCAL OPT_DEFAULT solve s <> Ok r) /\
     (forall r, get_beta OPT_LOCAL OPT_DEFAULT solve s <> Ok r)) /\
  (forall e,
     optimization_status s = 0%Z ->
     solve (inst_model s) (values s) OPT_LOCAL (cet (inst_self s)) OPT_DEFAULT
       = Err e ->
     get_alpha OPT_LOCAL OPT_DEFAULT solve s = Err e /\
     get_beta OPT_LOCAL OPT_DEFAULT solve s = Err e).
Proof.
  assert (Hempty : I (model_sets (inst_model s)) = [] ->
     (forall r, get_alpha OPT_LOCAL OPT_DEFAULT solve s <> Ok r) /\
     (forall r, get_beta OPT_LOCAL OPT_DEFAULT solve s <> Ok r)).
  { intros HI. split; intros r H.
    - unfold get_alpha in H. bind_inv H. bind_inv H.
      destruct (solve_keeps_model _ E) as [Hm _]. rewrite Hm, HI in E0.
      discriminate E0.
    - unfold get_beta in H. bind_inv H. cbv zeta in H. bind_inv H.
      destruct (solve_keeps_model _ E) as [Hm _]. rewrite Hm, HI in E0.
      discriminate E0. }
  split; [|split; [|split]].
  - intros s1 al H. unfold get_alpha in H. bind_inv H. bind_inv H.
    injection H as <- <-.
    destruct (solve_keeps_model _ E) as [Hm _].
    apply slice_values_Ok in E0. destruct E0 as [Hne ->].
    rewrite Hm in Hne |- *.
    split; [reflexivity|]. split; [exact Hne|]. split; [reflexivity|].
    split.
    + intros Hs. unfold solve_if_unsolved in E.
      destruct (Z.eqb_spec (optimization_status s) 0); [contradiction|].
      congruence.
    + intros Hs. unfold get_alpha, solve_if_unsolved.
      destruct (Z.eqb_spec (optimization_status v) 0); [contradiction|].
      simpl. rewrite Hm. rewrite slice_values_keys by exact Hne.
      reflexivity.
  - intros HI. destruct (Hempty HI) as [Ha Hb].
    split; [exact Ha|]. split; [exact Hb|].
    intros Hs. unfold get_alpha, get_beta, solve_if_unsolved.
    destruct (Z.eqb_spec (optimization_status s) 0); [contradiction|].
    simpl. rewrite HI. split; reflexivity.
  - intros raw_active listed trans_list to_2d_list v a act Hc Hy.
    apply Hempty. rewrite (built_I _ _ _ _ _ Hc), Hy. reflexivity.
  - intros e Hs He. unfold get_alpha, get_beta, solve_if_unsolved, optimize.
    rewrite Hs, He. split; reflexivity.
Qed.

(** X16.  For a model over [I = range n] and [J = range k] with at
    least one observation and one input, [get_beta] returns (after the
    solve, if one is due) the [n x k] matrix whose entry in row [i],
    column [j] is the value of [beta[i,j]]: the reshaping through the
    table of (name, key, value) rows loses and reorders nothing. *)
Theorem get_beta_matrix (s : instance value) (n k : nat) :
  I (model_sets (inst_model s)) = range n ->
  J (model_sets (inst_model s)) = range k ->
  0 < n -> 0 < k ->
  get_beta OPT_LOCAL OPT_DEFAULT solve s
  = fmap (fun s' =>
            (s', map (fun i =>
                        map (fun j => Some (values s' (beta i j))) (range k))
                     (range n)))
         (solve_if_unsolved OPT_LOCAL OPT_DEFAULT solve s).
Proof.
  intros HI HJ Hn Hk. unfold get_beta, fmap.
  destruct (solve_if_unsolved OPT_LOCAL OPT_DEFAULT solve s) as [s'|e] eqn:E;
    simpl; [|reflexivity].
  destruct (solve_keeps_model _ E) as [Hm _]. rewrite Hm, HI, HJ.
  assert (Hne : list_prod (range n) (range k) <> []).
  { unfold range. destruct n; [lia|]. destruct k; [lia|]. discriminate. }
  rewrite slice_values_keys by exact Hne. simpl. rewrite combine_map.
  destruct (map (fun ij => (ij, values s' (beta (fst ij) (snd ij))))
                (list_prod (range n) (range k))) as [|row more] eqn:Er.
  { destruct (list_prod (range n) (range k)); [congruence | discriminate Er]. }
  rewrite (pivot_product (fun ij => values s' (beta (fst ij) (snd ij)))
             Hn Hk Er).
  reflexivity.
Qed.

End Oracles.

End Reading.

(** ** The further properties on the example data *)

Lemma component_keys_witness :
  exists m,
    construct as_given as_given CQRZG2 (example CET_ADDI FUN_PROD RTS_CRS)
      example_active = Ok m /\
    map fst (regression_constraints m) = range 2.
Proof.
  eexists. split; [vm_compute; reflexivity|].
  refine (proj1 (@component_keys _ _ as_given as_given CQRZG2
                   (example CET_ADDI FUN_PROD RTS_CRS) example_active _ _)).
  vm_compute. reflexivity.
Defined.

Lemma mask_extremes_witness :
  exists m,
    construct as_given as_given CQRZG1
      (with_cutactive (example CET_ADDI FUN_PROD RTS_VRS1) no_pair)
      example_active = Ok m /\
    sweet_constraints m = [].
Proof.
  eexists. split; [vm_compute; reflexivity|].
  refine (proj1 (@mask_extremes _ _ as_given as_given CQRZG1
                   (with_cutactive (example CET_ADDI FUN_PROD RTS_VRS1)
                                   no_pair)
                   example_active _ _) _).
  - vm_compute. reflexivity.
  - intros i h Hi Hh. simpl in Hi, Hh.
    destruct i as [|[|i]]; destruct h as [|[|h]]; try lia; reflexivity.
Defined.

Lemma neighbour_pair_repeats_afriat_witness :
  exists m c,
    construct as_given as_given CQRZG1 (example CET_ADDI FUN_PROD RTS_VRS1)
      example_active = Ok m /\
    In (0, c) (afriat_constraints m) /\
    In ((0, 1), c) (sweet_constraints m).
Proof.
  eexists. eexists. split; [vm_compute; reflexivity|].
  split; [left; reflexivity|].
  refine (@neighbour_pair_repeats_afriat _ _ as_given as_given CQRZG1
            (example CET_ADDI FUN_PROD RTS_VRS1) example_active _ _ _
            0 _ _ _).
  - vm_compute. reflexivity.
  - simpl. lia.
  - left. reflexivity.
  - reflexivity.
Defined.

Lemma afriat_cycle_witness :
  exists m,
    construct as_given as_given CERZG1 (example CET_MULT FUN_COST RTS_VRS1)
      example_active = Ok m /\
    In (1, concavity (example CET_MULT FUN_COST RTS_VRS1) (model_sets m) 1 0)
       (afriat_constraints m).
Proof.
  eexists. split; [vm_compute; reflexivity|].
  refine (proj1 (proj1 (@afriat_cycle _ _ as_given as_given CERZG1
                          (example CET_MULT FUN_COST RTS_VRS1)
                          example_active _ _) 0 _)).
  - vm_compute. reflexivity.
  - simpl. lia.
Defined.

Lemma phase2_adds_one_component_witness :
  phase2_variant CQRZG2 = true /\
  exists m2,
    construct as_given as_given CQRZG2 (example CET_ADDI FUN_PROD RTS_VRS1)
      example_active = Ok m2 /\
    exists m1 cs,
      construct as_given as_given CQRZG1 (example CET_ADDI FUN_PROD RTS_VRS1)
        example_active = Ok m1 /\
      m2 = with_sweet2 m1 cs.
Proof.
  split; [reflexivity|].
  eexists. split; [vm_compute; reflexivity|].
  destruct (proj1 (@phase2_adds_one_component _ _ as_given as_given CQRZG2
                     (example CET_ADDI FUN_PROD RTS_VRS1) example_active
                     eq_refl) _ ltac:(vm_compute; reflexivity))
    as (m1 & cs & H1 & _ & Heq & _).
  exists m1, cs. split; [exact H1 | exact Heq].
Defined.

Lemma mask_monotone_witness :
  exists m m',
    construct as_given as_given CQRZG1
      (with_cutactive (example CET_ADDI FUN_PROD RTS_VRS1) no_pair)
      example_active = Ok m /\
    construct as_given as_given CQRZG1
      (with_cutactive
         (with_cutactive (example CET_ADDI FUN_PROD RTS_VRS1) no_pair)
         example_active)
      example_active = Ok m' /\
    afriat_constraints m' = afriat_constraints m.
Proof.
  eexists. eexists. split; [vm_compute; reflexivity|].
  split; [vm_compute; reflexivity|].
  refine (proj1 (proj2 (proj2 (proj2 (proj2 (proj1
    (@mask_monotone _ _ as_given as_given CQRZG1
       (with_cutactive (example CET_ADDI FUN_PROD RTS_VRS1) no_pair)
       example_active example_active _ _ _ _))))))).
  - vm_compute. reflexivity.
  - vm_compute. reflexivity.
Defined.

Lemma unbound_operator_witness :
  fun_ (example CET_MULT FUN_undefined RTS_CRS) = FUN_undefined /\
  well_shaped (example CET_MULT FUN_undefined RTS_CRS) = true /\
  construct as_given as_given CERZG2 (example CET_MULT FUN_undefined RTS_CRS)
    example_active = Err NameError.
Proof.
  split; [reflexivity|]. split; [reflexivity|].
  refine (@unbound_operator _ _ as_given as_given CERZG2
            (example CET_MULT FUN_undefined RTS_CRS) example_active
            _ _ _ _ _ _).
  - reflexivity.
  - discriminate.
  - discriminate.
  - reflexivity.
  - simpl. lia.
  - intros _. exists example_active. reflexivity.
Defined.

Lemma no_observations_witness :
  y (with_y (example CET_ADDI FUN_undefined RTS_VRS1) []) = [] /\
  exists m,
    construct as_given as_given CQRZG2
      (with_y (example CET_ADDI FUN_undefined RTS_VRS1) [])
      example_active = Ok m /\
    afriat_constraints m = [].
Proof.
  split; [reflexivity|].
  destruct (@no_observations _ _ as_given as_given CQRZG2
              (with_y (example CET_ADDI FUN_undefined RTS_VRS1) [])
              example_active [1%Q] [[2%Q]] [1%Q] [[4%Q]])
    as (m & H & _ & _ & HA & _).
  - reflexivity.
  - reflexivity.
  - reflexivity.
  - discriminate.
  - discriminate.
  - intros _. exists example_active. reflexivity.
  - exists m. split; [exact H | exact HA].
Defined.

Lemma built_needs_shape_witness :
  exists m,
    construct as_given as_given CQRZG2 (example CET_MULT FUN_PROD RTS_CRS)
      example_active = Ok m /\
    forall i, i < 2 ->
      (0 < y_val (example CET_MULT FUN_PROD RTS_CRS) i)%Q.
Proof.
  eexists. split; [vm_compute; reflexivity|].
  refine (proj1 (proj2 (proj2 (proj2 (proj2
    (@built_needs_shape _ _ as_given as_given CQRZG2
       (example CET_MULT FUN_PROD RTS_CRS) example_active _ _))))) _).
  - vm_compute. reflexivity.
  - reflexivity.
Defined.

Lemma nonpositive_output_rejected_witness :
  cet (with_y (example CET_MULT FUN_PROD RTS_VRS1) [2; 0]%Q) = CET_MULT /\
  (y_val (with_y (example CET_MULT FUN_PROD RTS_VRS1) [2; 0]%Q) 1 <= 0)%Q /\
  construct as_given as_given CQRZG1
    (with_y (example CET_MULT FUN_PROD RTS_VRS1) [2; 0]%Q) example_active
  = Err (ValueError "math domain error").
Proof.
  split; [reflexivity|]. split; [apply Qle_refl|].
  refine (@nonpositive_output_rejected _ _ as_given as_given CQRZG1
            (with_y (example CET_MULT FUN_PROD RTS_VRS1) [2; 0]%Q)
            example_active [1%Q] [[4%Q]] _ _ _ _ _ _).
  - reflexivity.
  - discriminate.
  - reflexivity.
  - reflexivity.
  - exists 1. split; [simpl; lia | apply Qle_refl].
  - discriminate.
Defined.

Lemma construction_errors_witness :
  phase2_variant CERZG1 = false /\
  construct as_given as_given CERZG1
    (with_x (example CET_ADDI FUN_PROD RTS_CRS) [[]; []]) example_active
  = Err InvalidConstraintError /\
  rts (with_x (example CET_ADDI FUN_PROD RTS_CRS) [[]; []]) = RTS_CRS /\
  nth 0 (x (with_x (example CET_ADDI FUN_PROD RTS_CRS) [[]; []])) [] = [].
Proof.
  split; [reflexivity|]. split; [reflexivity|].
  destruct (proj2 (proj2
    (@construction_errors _ _ as_given as_given CERZG1
       (with_x (example CET_ADDI FUN_PROD RTS_CRS) [[]; []]) example_active
       InvalidConstraintError eq_refl eq_refl)) eq_refl)
    as (Hr & _ & _ & Hx).
  split; [exact Hr | exact Hx].
Defined.

Lemma variables_declared_witness :
  exists m,
    construct as_given as_given CERZG2 (example CET_ADDI FUN_COST RTS_CRS)
      example_active = Ok m /\
    component_declared (model_sets m) (regression_constraints m).
Proof.
  eexists. split; [vm_compute; reflexivity|].
  refine (proj1 (@variables_declared _ _ as_given as_given CERZG2
                   (example CET_ADDI FUN_COST RTS_CRS) example_active _ _)).
  vm_compute. reflexivity.
Defined.

Lemma objective_bounded_below_witness :
  exists m,
    construct as_given as_given CERZG1 (example CET_ADDI FUN_PROD RTS_VRS1)
      example_active = Ok m /\
    (0 <= tau (example CET_ADDI FUN_PROD RTS_VRS1))%Q /\
    (tau (example CET_ADDI FUN_PROD RTS_VRS1) <= 1)%Q /\
    forall e, squared_objective m = Some e ->
      (0 <= eval (fun q => q) unit_lamda e)%Q.
Proof.
  eexists. split; [vm_compute; reflexivity|].
  assert (H0 : (0 <= tau (example CET_ADDI FUN_PROD RTS_VRS1))%Q)
    by (vm_compute; discriminate).
  assert (H1 : (tau (example CET_ADDI FUN_PROD RTS_VRS1) <= 1)%Q)
    by (vm_compute; discriminate).
  split; [exact H0|]. split; [exact H1|].
  refine (proj1 (proj2
    (@objective_bounded_below _ _ as_given as_given CERZG1
       (example CET_ADDI FUN_PROD RTS_VRS1) example_active _ _ H0 H1
       (fun q => q) unit_lamda))).
  vm_compute. reflexivity.
Defined.

Lemma get_beta_matrix_witness :
  I (model_sets (inst_model example_instance)) = range 2 /\
  J (model_sets (inst_model example_instance)) = range 1 /\
  fmap snd (get_beta tt tt example_solver example_instance)
  = Ok [[Some 3%Q]; [Some 3%Q]].
Proof.
  split; [reflexivity|]. split; [reflexivity|].
  rewrite (@get_beta_matrix Q unit unit tt tt example_solver
             example_instance 2 1); [reflexivity | | | |].
  - reflexivity.
  - reflexivity.
  - lia.
  - lia.
Defined.

Lemma construct_succeeds_witness :
  unreachable (example CET_MULT FUN_COST RTS_CRS) = false /\
  well_shaped (example CET_MULT FUN_COST RTS_CRS) = true /\
  0 < List.length (nth 0 (x (example CET_MULT FUN_COST RTS_CRS)) []) /\
  exists m,
    construct as_given as_given CERZG2 (example CET_MULT FUN_COST RTS_CRS)
      example_active = Ok m.
Proof.
  split; [reflexivity|]. split; [reflexivity|].
  split; [simpl; lia|].
  refine (@construct_succeeds _ _ as_given as_given CERZG2
            (example CET_MULT FUN_COST RTS_CRS) example_active _ _ _ _).
  - reflexivity.
  - reflexivity.
  - intros _. right. simpl. lia.
  - intros _. exists example_active. split; reflexivity.
Defined.
